(** * Surface element graph: group index, connector index, tree utilities
      and ungroup index keys

    A shallow embedding of
    - [packages/framework/std/src/utils/tree.ts],
    - [packages/framework/std/src/gfx/model/surface/surface-model.ts],
    - the connector endpoint index of the affine surface model, and
    - [packages/affine/gfx/group/src/command/group-api.ts].

    JavaScript objects (elements, groups, blocks) are identified by their
    [id]; a [Map] whose iteration order is never observed is a [gmap], a
    [Map] or [Set] that is iterated is a list in insertion order. *)

From Stdlib Require OrderedTypeEx.
From stdpp Require Import gmap strings list fin_maps sorting.

Set Warnings "-clear-no-such-hyp".

Open Scope string_scope.
Open Scope nat_scope.
Open Scope list_scope.

(** ** Common helpers *)

(** [forEach] over a list with a state that may fail (fuel exhausted). *)
Fixpoint forEachM {S A : Type} (f : A → S → option S) (l : list A) (s : S)
  : option S :=
  match l with
  | [] => Some s
  | x :: r => match f x s with
              | Some s' => forEachM f r s'
              | None => None
              end
  end.

(** [[...new Set(xs)]]: the distinct elements in order of first occurrence. *)
Fixpoint uniqueFrom (seen : gset string) (xs : list string) : list string :=
  match xs with
  | [] => []
  | x :: r =>
      if decide (x ∈ seen) then uniqueFrom seen r
      else x :: uniqueFrom ({[x]} ∪ seen) r
  end.

Definition unique (xs : list string) : list string := uniqueFrom ∅ xs.

(** JavaScript truthiness of a string: the empty string is falsy. *)
Definition truthy (s : string) : bool := negb (String.eqb s "").

(** ** Tree utilities ([utils/tree.ts]) *)

Module Tree.

(** The object graph the utilities walk: [element.group] (absent for
    [null]) and, for group-compatible elements, [element.childElements]. *)
Record Graph := {
  group : gmap string string;
  childElements : gmap string (list string);
}.

(** The [while (ancestor)] loop of [getTopElements]; one unit of fuel per
    iteration, [None] when the fuel runs out before the loop exits. *)
Fixpoint hasSelectedAncestor (fuel : nat) (g : Graph) (selected : gset string)
    (ancestor : option string) : option bool :=
  match ancestor with
  | None => Some false
  | Some a =>
      if decide (a ∈ selected) then Some true
      else match fuel with
           | 0 => None
           | S n => hasSelectedAncestor n g selected (group g !! a)
           end
  end.

Fixpoint getTopElements_loop (fuel : nat) (g : Graph) (selected : gset string)
    (uniqueElements : list string) : option (list string) :=
  match uniqueElements with
  | [] => Some []
  | element :: rest =>
      match hasSelectedAncestor fuel g selected (group g !! element) with
      | None => None
      | Some hasAncestor =>
          match getTopElements_loop fuel g selected rest with
          | None => None
          | Some topElements =>
              Some (if hasAncestor then topElements
                    else element :: topElements)
          end
      end
  end.

Definition getTopElements (fuel : nat) (g : Graph) (elements : list string)
  : option (list string) :=
  let uniqueElements := unique elements in
  let selected : gset string := list_to_set uniqueElements in
  getTopElements_loop fuel g selected uniqueElements.

(** The [while (_container)] loop of [hasDescendantElementImpl]. *)
Fixpoint hasDescendantElement_loop (fuel : nat) (g : Graph) (container : string)
    (_container : option string) : option bool :=
  match _container with
  | None => Some false
  | Some c =>
      if decide (c = container) then Some true
      else match fuel with
           | 0 => None
           | S n => hasDescendantElement_loop n g container (group g !! c)
           end
  end.

Definition hasDescendantElementImpl (fuel : nat) (g : Graph)
    (container element : string) : option bool :=
  hasDescendantElement_loop fuel g container (group g !! element).

(** [traverse]: depth-first walk with a [visited] set that is local to one
    call of [traverse].  The callbacks act on a caller state [A];
    [preCallback] may interrupt the descent. *)
Section Traverse.
Context {A : Type}.
Variable preCallback : option (string → A → bool * A).
Variable postCallBack : option (string → A → A).

Fixpoint innerTraverse (fuel : nat) (g : Graph) (element : string)
    (st : gset string * A) : option (gset string * A) :=
  match fuel with
  | 0 => None
  | S n =>
      let '(visited, a) := st in
      if decide (element ∈ visited) then Some st
      else
        let visited := {[element]} ∪ visited in
        let '(interrupt, a) :=
          match preCallback with
          | Some pre => pre element a
          | None => (false, a)
          end in
        if interrupt then Some (visited, a)
        else
          let descended :=
            match childElements g !! element with
            | Some children =>
                forEachM (innerTraverse n g) children (visited, a)
            | None => Some (visited, a)
            end in
          match descended with
          | None => None
          | Some (visited, a) =>
              Some (visited,
                    match postCallBack with
                    | Some post => post element a
                    | None => a
                    end)
          end
  end.

Definition traverse (fuel : nat) (g : Graph) (element : string) (a : A)
  : option A :=
  snd <$> innerTraverse fuel g element (∅, a).
End Traverse.

(** The callback of [descendantElementsImpl]: [results.push(element)],
    which yields [undefined] and so never interrupts. *)
Definition pushResult (element : string) (results : list string)
  : bool * list string := (false, results ++ [element]).

Definition descendantElementsImpl_fuel (fuel : nat) (g : Graph)
    (container : string) : option (list string) :=
  forEachM (traverse (Some pushResult) None fuel g)
           (default [] (childElements g !! container)) [].

(** The recursion of [innerTraverse] is never deeper than the number of
    group-compatible elements plus one. *)
Definition descendantElementsImpl (g : Graph) (container : string)
  : option (list string) :=
  descendantElementsImpl_fuel (S (size (childElements g))) g container.

(** The group-compatible elements not yet visited bound the depth of the
    recursion of [innerTraverse]. *)
Definition unvisited (g : Graph) (visited : gset string) : nat :=
  size (dom (childElements g) ∖ visited).

(** While one [traverse] of [descendantElementsImpl] runs, [results] is
    [before ++ segment], where [segment] is what this traversal has pushed
    so far: it has no duplicates and lies within [visited]. *)
Definition pushInvariant (before : list string) (st : gset string * list string)
    (segment : list string) : Prop :=
  st.2 = before ++ segment ∧ NoDup segment ∧ ∀ y, y ∈ segment → y ∈ st.1.

(** The graphs of the unit tests. *)
Definition testTree : Graph := {|
  group := {[ "leaf-a" := "root"; "nested" := "root"; "leaf-b" := "nested" ]};
  childElements := {[ "root" := ["leaf-a"; "nested"]; "nested" := ["leaf-b"] ]};
|}.

Definition twoCycle (a b : string) : Graph := {|
  group := {[ b := a; a := b ]};
  childElements := {[ a := [b]; b := [a] ]};
|}.

(** Ranks for [testTree]: the root below its children. *)
Definition testRank (x : string) : nat :=
  if decide (x = "root") then 0
  else if decide (x = "nested") then 1
  else 2.

(** A 2-cycle [group-a ⇄ group-b] with a plain element below [group-a]. *)
Definition cycleWithLeaf : Graph := {|
  group := {[ "group-b" := "group-a"; "group-a" := "group-b";
              "leaf" := "group-a" ]};
  childElements := {[ "group-a" := ["group-b"; "leaf"];
                      "group-b" := ["group-a"];
                      "group-c" := [] ]};
|}.

(** [a] is reached from [x] by following [.group] one or more times. *)
Inductive ancestorOf (g : Graph) : string → string → Prop :=
| ancestor_parent x p : group g !! x = Some p → ancestorOf g x p
| ancestor_step x p a :
    group g !! x = Some p → ancestorOf g p a → ancestorOf g x a.

(** What lies on the walk that starts at [start]: [start] itself and its
    ancestors. *)
Definition onWalk (g : Graph) (start : option string) (a : string) : Prop :=
  match start with
  | Some p => p = a ∨ ancestorOf g p a
  | None => False
  end.

(** [batchAddChildren] and [batchRemoveChildren]: the container's methods
    act on a state [S]; the batch method ([addChildren], [removeChildren])
    is optional. *)
Section Batch.
Context {S : Type}.

Definition batchAddChildren (addChildren : option (list string → S → S))
    (addChild : string → S → S) (elements : list string) (s : S) : S :=
  let uniqueElements := unique elements in
  match uniqueElements with
  | [] => s
  | _ =>
      match addChildren with
      | Some addAll => addAll uniqueElements s
      | None => foldl (λ s element, addChild element s) s uniqueElements
      end
  end.

Definition batchRemoveChildren (removeChildren : option (list string → S → S))
    (removeChild : string → S → S) (elements : list string) (s : S) : S :=
  let uniqueElements := unique elements in
  match uniqueElements with
  | [] => s
  | _ =>
      match removeChildren with
      | Some removeAll => removeAll uniqueElements s
      | None => foldl (λ s element, removeChild element s) s uniqueElements
      end
  end.
End Batch.

(** [d] is reached from [x] by following [childElements] one or more
    times. *)
Inductive descendantOf (g : Graph) : string → string → Prop :=
| descendant_child x children c :
    childElements g !! x = Some children → c ∈ children → descendantOf g x c
| descendant_step x children c d :
    childElements g !! x = Some children → c ∈ children →
    descendantOf g c d → descendantOf g x d.

(** While one [traverse] of [descendantElementsImpl] runs, [pending]
    holds the elements whose visit has started but not finished: what was
    pushed is what was visited, and the children of every visited element
    that is not pending are visited. *)
Definition traverseInv (g : Graph) (pending : gset string)
    (before : list string) (st : gset string * list string) : Prop :=
  ∃ segment,
    st.2 = before ++ segment
    ∧ (∀ y, y ∈ segment ↔ y ∈ st.1)
    ∧ (∀ x children c, x ∈ st.1 → x ∉ pending →
         childElements g !! x = Some children → c ∈ children → c ∈ st.1).

(** [isGfxGroupCompatibleModel]: the element exposes [childElements]. *)
Definition isGfxGroupCompatibleModel (g : Graph) (element : string) : bool :=
  bool_decide (is_Some (childElements g !! element)).

(** [canSafeAddToContainer]; [hasDescendant element x] is the method
    [element.hasDescendant(x)] of a group-compatible model, which the
    model classes provide. *)
Definition canSafeAddToContainer (hasDescendant : string → string → bool)
    (g : Graph) (container element : string) : bool :=
  if bool_decide (element = container)
     || (isGfxGroupCompatibleModel g element
         && hasDescendant element container)
  then false
  else true.

(** No element is its own ancestor. *)
Definition acyclic (g : Graph) : Prop := ∀ x, ¬ ancestorOf g x x.

(** A [hasDescendant] method that answers through
    [hasDescendantElementImpl], with fuel for the three levels of
    [testTree]. *)
Definition testHasDescendant (element x : string) : bool :=
  default false (hasDescendantElementImpl 3 testTree element x).

End Tree.

(** ** Ungroup index keys ([command/group-api.ts]) *)

Module GroupApi.

(** Lexicographic order on index keys (JavaScript [<] on strings). *)
Definition key_lt (a b : string) : Prop := String.ltb a b = true.

Section BuildUngroupIndexes.
(** [fractional-indexing] is an external library.  Its two generators are
    parameters; [G] is whatever state the generator carries (nothing for
    the real library, the call history for a mock) and [None] stands for
    a thrown exception. *)
Context {G : Type}.
Variable generateNKeysBetween :
  option string → option string → nat → G → option (list string) * G.
Variable generateKeyBetween :
  option string → option string → G → option string * G.

Definition tryGenerateN (count : nat) (left right : option string) (lib : G)
  : option (list string) * G :=
  match generateNKeysBetween left right count lib with
  | (Some generated, lib') =>
      (if decide (length generated = count) then Some generated else None,
       lib')
  | (None, lib') => (None, lib')
  end.

(** [orderedElements.map(() => { cursor = generateKeyBetween(cursor, right);
    return cursor; })] inside [try]: the first exception abandons the
    whole map. *)
Fixpoint oneByOne {E : Type} (orderedElements : list E)
    (cursor right : option string) (lib : G) : option (list string) * G :=
  match orderedElements with
  | [] => (Some [], lib)
  | _ :: rest =>
      match generateKeyBetween cursor right lib with
      | (Some key, lib') =>
          match oneByOne rest (Some key) right lib' with
          | (Some keys, lib'') => (Some (key :: keys), lib'')
          | (None, lib'') => (None, lib'')
          end
      | (None, lib') => (None, lib')
      end
  end.

Definition tryGenerateOneByOne {E : Type} (orderedElements : list E)
    (left right : option string) (lib : G) : option (list string) * G :=
  oneByOne orderedElements left right lib.

(** [a ?? b]: [b] is evaluated only when [a] is [null]. *)
Definition orElse {A : Type} (a : G → option A * G) (b : G → option A * G)
    (lib : G) : option A * G :=
  match a lib with
  | (Some x, lib') => (Some x, lib')
  | (None, lib') => b lib'
  end.

Definition buildUngroupIndexes {E : Type} (orderedElements : list E)
    (afterIndex beforeIndex : option string) (fallbackAnchorIndex : string)
    (lib : G) : list string * G :=
  match orderedElements with
  | [] => ([], lib)
  | _ =>
      let count := length orderedElements in
      let '(keys, lib') :=
        orElse (tryGenerateN count afterIndex beforeIndex)
       (orElse (tryGenerateN count afterIndex None)
       (orElse (tryGenerateN count (Some fallbackAnchorIndex) None)
       (orElse (tryGenerateN count None None)
               (tryGenerateOneByOne orderedElements None None)))) lib in
      (default [] keys, lib')
  end.

(** The fallback chain in the words of the specification: the bounds to
    try, in priority order. *)
Definition strategies (afterIndex beforeIndex : option string)
    (fallbackAnchorIndex : string) : list (option string * option string) :=
  [ (afterIndex, beforeIndex); (afterIndex, None);
    (Some fallbackAnchorIndex, None); (None, None) ].

(** Try the bounds one after the other; stop at the first that yields
    [count] keys. *)
Fixpoint firstSuccess (count : nat)
    (bounds : list (option string * option string)) (lib : G)
  : option (list string) * G :=
  match bounds with
  | [] => (None, lib)
  | (lo, hi) :: rest =>
      match generateNKeysBetween lo hi count lib with
      | (Some generated, lib') =>
          if decide (length generated = count) then (Some generated, lib')
          else firstSuccess count rest lib'
      | (None, lib') => firstSuccess count rest lib'
      end
  end.

(** The last resort in the words of the specification: [count] keys
    generated one at a time, each between the key before it and the upper
    bound; one exception abandons them all. *)
Fixpoint chainedKeys_spec (count : nat) (cursor right : option string)
    (lib : G) : option (list string) * G :=
  match count with
  | 0 => (Some [], lib)
  | S n =>
      match generateKeyBetween cursor right lib with
      | (None, lib') => (None, lib')
      | (Some key, lib') =>
          match chainedKeys_spec n (Some key) right lib' with
          | (Some keys, lib'') => (Some (key :: keys), lib'')
          | (None, lib'') => (None, lib'')
          end
      end
  end.

Definition fallbackChain_spec {E : Type} (orderedElements : list E)
    (afterIndex beforeIndex : option string) (fallbackAnchorIndex : string)
    (lib : G) : list string * G :=
  let count := length orderedElements in
  match firstSuccess count
          (strategies afterIndex beforeIndex fallbackAnchorIndex) lib with
  | (Some keys, lib') => (keys, lib')
  | (None, lib') =>
      match chainedKeys_spec count None None lib' with
      | (Some keys, lib'') => (keys, lib'')
      | (None, lib'') => ([], lib'')
      end
  end.

(** The contract of [fractional-indexing]: a batch is strictly
    increasing, and a single key lies above its lower bound. *)
Definition batchSorted : Prop :=
  ∀ lo hi n lib keys lib',
    generateNKeysBetween lo hi n lib = (Some keys, lib') →
    Sorted key_lt keys.

Definition keyAboveLower : Prop :=
  ∀ lo hi lib key lib',
    generateKeyBetween (Some lo) hi lib = (Some key, lib') →
    key_lt lo key.
End BuildUngroupIndexes.

(** The mock of the unit test: the state is the history of calls; the first
    batch call throws, the second returns [['n0', 'n1']]. *)
Inductive Call :=
| CallN (left right : option string) (count : nat)
| CallOne (left right : option string).

Definition mockN (left right : option string) (count : nat)
    (history : list Call) : option (list string) * list Call :=
  (match history with
   | [] => None
   | [_] => Some ["n0"; "n1"]
   | _ => None
   end, history ++ [CallN left right count]).

Definition mockOne (left right : option string) (history : list Call)
  : option string * list Call :=
  (None, history ++ [CallOne left right]).

(** The mock of the second unit test: every batch call throws, the
    one-at-a-time generator returns [k0], [k1], ... *)
Definition throwingN (left right : option string) (count : nat)
    (history : list Call) : option (list string) * list Call :=
  (None, history ++ [CallN left right count]).

(** A batch generator that breaks the library's contract: it returns the
    right number of keys in descending order. *)
Definition unsortedN (left right : option string) (count : nat)
    (history : list Call) : option (list string) * list Call :=
  (Some ["n1"; "n0"], history ++ [CallN left right count]).

Definition isCallOne (c : Call) : bool :=
  match c with CallOne _ _ => true | CallN _ _ _ => false end.

Definition sequenceOne (left right : option string) (history : list Call)
  : option string * list Call :=
  (Some (match length (filter (λ c, isCallOne c = true) history) with
         | 0 => "k0"
         | 1 => "k1"
         | _ => "k2"
         end),
   history ++ [CallOne left right]).

End GroupApi.

(** ** Primitive element model: stash and pop *)

Module PrimitiveElementModel.

(** The primitive element model lives in [element-model.ts] and its field
    decorators, which are not among the sources; only its unit test is.
    The definitions of this module follow the specification. *)
Section Model.
Context {V : Type}.

(** Modelled from the spec: the element record of [element-model.ts].  An
    element wraps a backing key-value record [yMap]; a field is persisted
    when it is [declared]; [_stashed] is the in-memory overlay of the
    stashed fields and [_local] holds the properties that are never
    persisted. *)
Record Element := {
  declared : gset string;
  yMap : gmap string V;
  _stashed : gmap string (option V);
  _local : gmap string V;
}.

(** Modelled from the spec: [stash] of [element-model.ts].  It snapshots
    the current persisted value of a declared field into the overlay; on
    an undeclared or local-only field, or a field already stashed, it does
    nothing. *)
Definition stash (field : string) (e : Element) : Element :=
  if decide (field ∈ declared e) then
    match _stashed e !! field with
    | Some _ => e
    | None =>
        {| declared := declared e; yMap := yMap e;
           _stashed := <[field := yMap e !! field]> (_stashed e);
           _local := _local e |}
    end
  else e.

(** Modelled from the spec: the property setters of [element-model.ts].  A
    write to a stashed field goes to the overlay only, a write to a
    declared field goes to storage, and a write to any other property
    stays in memory. *)
Definition assign (field : string) (v : V) (e : Element) : Element :=
  match _stashed e !! field with
  | Some _ =>
      {| declared := declared e; yMap := yMap e;
         _stashed := <[field := Some v]> (_stashed e);
         _local := _local e |}
  | None =>
      if decide (field ∈ declared e) then
        {| declared := declared e; yMap := <[field := v]> (yMap e);
           _stashed := _stashed e; _local := _local e |}
      else
        {| declared := declared e; yMap := yMap e;
           _stashed := _stashed e; _local := <[field := v]> (_local e) |}
  end.

(** Modelled from the spec: [pop] of [element-model.ts].  It re-applies
    the overlay value of a stashed field to storage in one write and
    drops the overlay entry; on a field that is not stashed it does
    nothing. *)
Definition pop (field : string) (e : Element) : Element :=
  match _stashed e !! field with
  | None => e
  | Some overlay =>
      {| declared := declared e;
         yMap := match overlay with
                 | Some v => <[field := v]> (yMap e)
                 | None => yMap e
                 end;
         _stashed := delete field (_stashed e);
         _local := _local e |}
  end.

(** Only declared fields are ever recorded as stashed. *)
Definition wf (e : Element) : Prop := dom (_stashed e) ⊆ declared e.
End Model.

Arguments Element : clear implicits.

(** The element of the unit test: a shape whose [opacity] is local. *)
Definition testShape : Element string := {|
  declared := {[ "rotate"; "shapeType"; "index" ]};
  yMap := {[ "type" := "testShape"; "id" := "0"; "rotate" := "20" ]};
  _stashed := ∅;
  _local := ∅;
|}.

End PrimitiveElementModel.

(** ** Surface block model ([surface-model.ts]) *)

Module Surface.

(** [new Error(message)] *)
Inductive JsError := Error (message : string).

Inductive Outcome (A : Type) :=
| Return (a : A)
| Throw (e : JsError).
Arguments Return {A} a.
Arguments Throw {A} e.

(** What the surface reads of an element model: its [id], its [type] and,
    for a [GfxGroupLikeElementModel], its [childIds]. *)
Record ElementModel := {
  id : string;
  type : string;
  childIds : option (list string);
}.

(** What [getGroup] uses of a group-compatible model: its [id] and its
    [hasChild] method. *)
Record GroupModel := {
  gid : string;
  hasChild : string → bool;
}.

(** A block of the store; [true] when its model is group-compatible. *)
Record BlockModel := {
  isGroupCompatibleBlock : bool;
}.

Record State := {
  readonly : bool;
  blocks : gmap string BlockModel;
  _elementCtorMap : gset string;
  _elementModels : gmap string ElementModel;
  _groupLikeModels : list (string * GroupModel);
  _parentGroupMap : gmap string string;
  _groupChildIdsMap : gmap string (list string);
}.

Definition set_parentGroupMap (pm : gmap string string) (s : State) : State :=
  {| readonly := readonly s; blocks := blocks s;
     _elementCtorMap := _elementCtorMap s;
     _elementModels := _elementModels s;
     _groupLikeModels := _groupLikeModels s;
     _parentGroupMap := pm;
     _groupChildIdsMap := _groupChildIdsMap s |}.

Definition set_groupChildIdsMap (gc : gmap string (list string)) (s : State)
  : State :=
  {| readonly := readonly s; blocks := blocks s;
     _elementCtorMap := _elementCtorMap s;
     _elementModels := _elementModels s;
     _groupLikeModels := _groupLikeModels s;
     _parentGroupMap := _parentGroupMap s;
     _groupChildIdsMap := gc |}.

Definition set_groupLikeModels (gl : list (string * GroupModel)) (s : State)
  : State :=
  {| readonly := readonly s; blocks := blocks s;
     _elementCtorMap := _elementCtorMap s;
     _elementModels := _elementModels s;
     _groupLikeModels := gl;
     _parentGroupMap := _parentGroupMap s;
     _groupChildIdsMap := _groupChildIdsMap s |}.

Definition set_elementModels (em : gmap string ElementModel) (s : State)
  : State :=
  {| readonly := readonly s; blocks := blocks s;
     _elementCtorMap := _elementCtorMap s;
     _elementModels := em;
     _groupLikeModels := _groupLikeModels s;
     _parentGroupMap := _parentGroupMap s;
     _groupChildIdsMap := _groupChildIdsMap s |}.

Definition set_blocks (bs : gmap string BlockModel) (s : State) : State :=
  {| readonly := readonly s; blocks := bs;
     _elementCtorMap := _elementCtorMap s;
     _elementModels := _elementModels s;
     _groupLikeModels := _groupLikeModels s;
     _parentGroupMap := _parentGroupMap s;
     _groupChildIdsMap := _groupChildIdsMap s |}.

Definition getElementById (i : string) (s : State) : option ElementModel :=
  _elementModels s !! i.

Definition hasElementById (i : string) (s : State) : bool :=
  bool_decide (is_Some (_elementModels s !! i)).

(** [_groupLikeModels.get(key)] and [_groupLikeModels.delete(key)] *)
Fixpoint groupLike_get (key : string) (gl : list (string * GroupModel))
  : option GroupModel :=
  match gl with
  | [] => None
  | (k, g) :: r => if decide (k = key) then Some g else groupLike_get key r
  end.

Definition groupLike_delete (key : string) (gl : list (string * GroupModel))
  : list (string * GroupModel) :=
  filter (λ kg, kg.1 ≠ key) gl.

(** *** The group index *)

(** The loop shared by [_removeGroupFromChildrenIndex] and the first phase
    of [_syncGroupChildrenIndex]: a child's parent pointer is deleted only
    while it still equals [groupId]. *)
Definition unlinkChild (groupId : string) (pm : gmap string string)
    (childId : string) : gmap string string :=
  if decide (pm !! childId = Some groupId) then delete childId pm else pm.

Definition unlinkChildren (groupId : string) (childIds : list string)
    (pm : gmap string string) : gmap string string :=
  foldl (unlinkChild groupId) pm childIds.

Definition linkChildren (groupId : string) (nextChildIds : list string)
    (pm : gmap string string) : gmap string string :=
  foldl (λ pm childId, <[childId := groupId]> pm) pm nextChildIds.

Definition _removeGroupFromChildrenIndex (groupId : string) (s : State)
  : State :=
  let previousChildIds := default [] (_groupChildIdsMap s !! groupId) in
  set_groupChildIdsMap (delete groupId (_groupChildIdsMap s))
    (set_parentGroupMap
       (unlinkChildren groupId previousChildIds (_parentGroupMap s)) s).

(** The [prev] of [_syncGroupChildrenIndex]:
    [previousChildIds ?? this._groupChildIdsMap.get(groupId) ?? []]. *)
Definition syncPrev (groupId : string) (previousChildIds : option (list string))
    (s : State) : list string :=
  match previousChildIds with
  | Some prev => prev
  | None => default [] (_groupChildIdsMap s !! groupId)
  end.

(** First phase of [_syncGroupChildrenIndex]: [prev.forEach(...)]. *)
Definition syncRemovePrevious (groupId : string)
    (previousChildIds : option (list string)) (s : State) : State :=
  set_parentGroupMap
    (unlinkChildren groupId (syncPrev groupId previousChildIds s)
       (_parentGroupMap s)) s.

Definition _syncGroupChildrenIndex (groupId : string)
    (nextChildIds : list string) (previousChildIds : option (list string))
    (s : State) : State :=
  let s1 := syncRemovePrevious groupId previousChildIds s in
  let s2 :=
    set_parentGroupMap (linkChildren groupId nextChildIds (_parentGroupMap s1))
      s1 in
  set_groupChildIdsMap (<[groupId := nextChildIds]> (_groupChildIdsMap s2)) s2.

(** *** [getGroup] *)

(** The argument of [getGroup]: an id or a model. *)
Inductive Elem :=
| ById (i : string)
| ByModel (i : string).

Definition elemId (elem : Elem) : string :=
  match elem with ById i | ByModel i => i end.

(** [for (const group of this._groupLikeModels.values())
       if (group.hasChild(model)) ...]: the first group, in insertion
    order, that contains the model. *)
Fixpoint scanGroups (model : string) (gl : list (string * GroupModel))
  : option GroupModel :=
  match gl with
  | [] => None
  | (_, g) :: r => if hasChild g model then Some g else scanGroups model r
  end.

(** The model [getGroup] looks for: the argument itself, or for an id
    [this.getElementById(elem) ?? this.store.getBlock(elem)?.model]. *)
Definition resolveModel (elem : Elem) (s : State) : option string :=
  match elem with
  | ById i =>
      match getElementById i s with
      | Some _ => Some i
      | None => match blocks s !! i with
                | Some _ => Some i
                | None => None
                end
      end
  | ByModel i => Some i
  end.

(** The result of the linear scan: [null] when there is no model or no
    known group contains it. *)
Definition scanResult (elem : Elem) (s : State) : option GroupModel :=
  match resolveModel elem s with
  | None => None
  | Some m => scanGroups m (_groupLikeModels s)
  end.

(** The part of [getGroup] after the cache lookup. *)
Definition getGroup_scan (elem : Elem) (s : State)
  : option GroupModel * State :=
  match resolveModel elem s with
  | None => (None, s)
  | Some m =>
      match scanGroups m (_groupLikeModels s) with
      | Some g =>
          (Some g,
           set_parentGroupMap (<[elemId elem := gid g]> (_parentGroupMap s)) s)
      | None => (None, s)
      end
  end.

Definition getGroup (elem : Elem) (s : State) : option GroupModel * State :=
  let i := elemId elem in
  match _parentGroupMap s !! i with
  | Some parentGroupId =>
      if truthy parentGroupId then
        match groupLike_get parentGroupId (_groupLikeModels s) with
        | Some g => (Some g, s)
        | None =>
            getGroup_scan elem
              (set_parentGroupMap (delete i (_parentGroupMap s)) s)
        end
      else getGroup_scan elem s
  | None => getGroup_scan elem s
  end.

(** *** Deletion *)

(** The three collections [_collectElementsToDelete] fills. *)
Record Collected := {
  deleteElementIds : gset string;
  orderedDeleteIds : list string;
  deleteBlockIds : list string;
}.

Definition addBlockId (blockId : string) (c : Collected) : Collected :=
  {| deleteElementIds := deleteElementIds c;
     orderedDeleteIds := orderedDeleteIds c;
     deleteBlockIds :=
       if decide (blockId ∈ deleteBlockIds c) then deleteBlockIds c
       else deleteBlockIds c ++ [blockId] |}.

Fixpoint _collectElementsToDelete (fuel : nat) (s : State) (i : string)
    (c : Collected) : option Collected :=
  match fuel with
  | 0 => None
  | S n =>
      if decide (i ∈ deleteElementIds c) then Some c
      else
        match getElementById i s with
        | None => Some c
        | Some element =>
            let c := {| deleteElementIds := {[i]} ∪ deleteElementIds c;
                        orderedDeleteIds := orderedDeleteIds c;
                        deleteBlockIds := deleteBlockIds c |} in
            let collected :=
              match childIds element with
              | Some children =>
                  forEachM
                    (λ childId c,
                       if hasElementById childId s
                       then _collectElementsToDelete n s childId c
                       else if decide (is_Some (blocks s !! childId))
                            then Some (addBlockId childId c)
                            else Some c)
                    children c
              | None => Some c
              end in
            match collected with
            | None => None
            | Some c =>
                Some {| deleteElementIds := deleteElementIds c;
                        orderedDeleteIds := orderedDeleteIds c ++ [i];
                        deleteBlockIds := deleteBlockIds c |}
            end
        end
  end.

Definition emptyCollected : Collected :=
  {| deleteElementIds := ∅; orderedDeleteIds := []; deleteBlockIds := [] |}.

(** What an element model reports through [onChange], as far as the
    surface reads it: the [id], whether [props] has the key [childIds],
    and [oldValues['childIds']] (absent, an array, or something else). *)
Inductive OldChildIds :=
| OldAbsent
| OldOther (isTruthy : bool)
| OldArray (ids : list string).

Record ElementUpdatedData := {
  updatedId : string;
  propsChildIds : bool;
  oldValuesChildIds : OldChildIds;
}.

(** ['childIds' in payload.oldValues] *)
Definition oldPresent (old : OldChildIds) : bool :=
  match old with OldAbsent => false | _ => true end.

(** [Array.isArray(old) ? old : undefined] *)
Definition oldArray (old : OldChildIds) : option (list string) :=
  match old with OldArray ids => Some ids | _ => None end.

(** JavaScript truthiness of [oldValues['childIds']]; an array is truthy
    even when it is empty. *)
Definition oldTruthy (old : OldChildIds) : bool :=
  match old with
  | OldAbsent => false
  | OldOther isTruthy => isTruthy
  | OldArray _ => true
  end.

(** The report of the element model of group [g] after [removeChild]: when
    its [childIds] are no longer what they were [before], the model tells
    the surface that [childIds] changed, with the old list in
    [oldValues].  The group model classes are not among the sources; a
    group that is a block reports to the block store, not to the surface,
    and a model whose child list stayed the same has nothing to report. *)
Definition childIdsChange (g : GroupModel) (before after : State)
  : list ElementUpdatedData :=
  match getElementById (gid g) before, getElementById (gid g) after with
  | Some model, Some model' =>
      match childIds model with
      | Some old =>
          if decide (childIds model' = Some old) then []
          else [{| updatedId := gid g; propsChildIds := true;
                   oldValuesChildIds := OldArray old |}]
      | None => []
      end
  | _, _ => []
  end.

Section Mutations.
(** Collaborators that are not among the sources: the [removeChild]
    method of a group model, the conversion of properties to their stored
    form ([Y.Text], [Y.Map], the constructor's own [propsToY]) and the
    property setters of an element model. *)
Context {V : Type}.
Variable removeChild : GroupModel → string → State → State.
Variable propsToY : string → list (string * V) → list (string * V).
Variable setProperty : ElementModel → string → V → State → State.

Definition _removeFromParentGroupIfNeeded (element : string)
    (deleteElementIds : gset string) (s : State) : State :=
  let parentGroupId := _parentGroupMap s !! element in
  let skip :=
    match parentGroupId with
    | Some p => truthy p && bool_decide (p ∈ deleteElementIds)
    | None => false
    end in
  if skip then s
  else
    let parentGroup :=
      match parentGroupId with
      | Some p =>
          if truthy p then groupLike_get p (_groupLikeModels s) else None
      | None => None
      end in
    let '(parentGroup, s) :=
      match parentGroup with
      | Some g => (Some g, s)
      | None => getGroup (ById element) s
      end in
    match parentGroup with
    | Some g =>
        if decide (gid g ∈ deleteElementIds) then s
        else removeChild g element s
    | None => s
    end.

(** The group on which [_removeFromParentGroupIfNeeded] calls
    [removeChild], if any, and the state in which it does (after the
    cache repair of [getGroup]). *)
Definition detachedParentGroup (element : string)
    (deleteElementIds : gset string) (s : State) : option GroupModel * State :=
  let parentGroupId := _parentGroupMap s !! element in
  let skip :=
    match parentGroupId with
    | Some p => truthy p && bool_decide (p ∈ deleteElementIds)
    | None => false
    end in
  if skip then (None, s)
  else
    let parentGroup :=
      match parentGroupId with
      | Some p =>
          if truthy p then groupLike_get p (_groupLikeModels s) else None
      | None => None
      end in
    let '(parentGroup, s) :=
      match parentGroup with
      | Some g => (Some g, s)
      | None => getGroup (ById element) s
      end in
    match parentGroup with
    | Some g =>
        if decide (gid g ∈ deleteElementIds) then (None, s) else (Some g, s)
    | None => (None, s)
    end.

(** The ['delete'] case of [onElementsMapChange], with [removeFromType]
    inlined. *)
Definition onElementDeleted (i : string) (s : State) : State :=
  match _elementModels s !! i with
  | None => s
  | Some model =>
      let s := set_parentGroupMap (delete (id model) (_parentGroupMap s)) s in
      let s :=
        match childIds model with
        | Some _ =>
            let s := _removeGroupFromChildrenIndex (id model) s in
            set_groupLikeModels
              (groupLike_delete (id model) (_groupLikeModels s)) s
        | None => s
        end in
      set_elementModels (delete i (_elementModels s)) s
  end.

(** [store.deleteBlock(block)] followed by the ['delete'] case of the
    [blockUpdated] subscription; the second component is what the group
    the block is removed from reports. *)
Definition onBlockDeleted (i : string) (block : BlockModel) (s : State)
  : State * list ElementUpdatedData :=
  let s := set_blocks (delete i (blocks s)) s in
  let s :=
    if isGroupCompatibleBlock block then
      let s := _removeGroupFromChildrenIndex i s in
      set_groupLikeModels (groupLike_delete i (_groupLikeModels s)) s
    else s in
  let '(g, s) := getGroup (ById i) s in
  let '(s, reports) :=
    match g with
    | Some g => (removeChild g i s, childIdsChange g s (removeChild g i s))
    | None => (s, [])
    end in
  (set_parentGroupMap (delete i (_parentGroupMap s)) s, reports).

(** The subscriber of [_watchGroupRelationChange]: a group element whose
    child list has become empty deletes itself.  [deleteElement] is the
    method of the surface, which the subscriber calls back; what that call
    throws does not reach the one who emitted the event. *)
Definition _watchGroupRelationChange
    (deleteElement : string → State → option State)
    (payload : ElementUpdatedData) (s : State) : option State :=
  match getElementById (updatedId payload) s with
  | Some element =>
      match childIds element with
      | Some [] =>
          if oldTruthy (oldValuesChildIds payload)
          then deleteElement (updatedId payload) s
          else Some s
      | _ => Some s
      end
  | None => Some s
  end.

(** [_emitElementUpdated]: resync the index of a group whose child list
    changed, then [elementUpdated.next(payload)], whose subscriber within
    the sources is the one of [_watchGroupRelationChange]. *)
Definition _emitElementUpdated
    (deleteElement : string → State → option State)
    (model : ElementModel) (payload : ElementUpdatedData) (s : State)
  : option State :=
  let s :=
    match childIds model with
    | Some children =>
        if propsChildIds payload || oldPresent (oldValuesChildIds payload)
        then _syncGroupChildrenIndex (id model) children
               (oldArray (oldValuesChildIds payload)) s
        else s
    | None => s
    end in
  _watchGroupRelationChange deleteElement payload s.

(** The [onChange] callback the surface gives to every element model
    ([mounted && options.onChange(...)]): a model that has been removed
    reports nothing. *)
Definition onChange (deleteElement : string → State → option State)
    (payload : ElementUpdatedData) (s : State) : option State :=
  match getElementById (updatedId payload) s with
  | Some model => _emitElementUpdated deleteElement model payload s
  | None => Some s
  end.

(** The callback of [store.transact] in [deleteElement], and what follows
    when the transaction ends.  The observers of the storage run at that
    point, so the element models stay visible while the body runs: first
    the removed elements and blocks are taken out of the surface, then the
    groups that lost a child report their new child list, in the order of
    the [removeChild] calls. *)
Definition deleteTransaction (deleteElement : string → State → option State)
    (c : Collected) (s : State) : option State :=
  let '(s, deletedKeys, reports) :=
    foldl (λ '(s, keys, reports) elementId,
             match getElementById elementId s with
             | None => (s, keys, reports)
             | Some element =>
                 (_removeFromParentGroupIfNeeded (id element)
                    (deleteElementIds c) s,
                  keys ++ [elementId],
                  reports
                  ++ match detachedParentGroup (id element)
                             (deleteElementIds c) s with
                     | (Some g, s1) =>
                         childIdsChange g s1
                           (removeChild g (id element) s1)
                     | (None, _) => []
                     end)
             end)
          (s, [], []) (orderedDeleteIds c) in
  let '(s, deletedBlocks, reports) :=
    foldl (λ '(s, bs, reports) blockId,
             match blocks s !! blockId with
             | None => (s, bs, reports)
             | Some block =>
                 (_removeFromParentGroupIfNeeded blockId
                    (deleteElementIds c) s,
                  bs ++ [(blockId, block)],
                  reports
                  ++ match detachedParentGroup blockId
                             (deleteElementIds c) s with
                     | (Some g, s1) =>
                         childIdsChange g s1 (removeChild g blockId s1)
                     | (None, _) => []
                     end)
             end)
          (s, [], reports) (deleteBlockIds c) in
  let s := foldl (λ s i, onElementDeleted i s) s deletedKeys in
  let '(s, reports) :=
    foldl (λ '(s, reports) '(i, block),
             let '(s, more) := onBlockDeleted i block s in
             (s, reports ++ more))
          (s, reports) deletedBlocks in
  forEachM (onChange deleteElement) reports s.

(** [deleteElement]; one unit of fuel per nested call, which a group
    makes when it deletes itself after losing its last child. *)
Fixpoint deleteElement_fuel (fuel : nat) (i : string) (s : State)
  : option (Outcome unit * State) :=
  match fuel with
  | 0 => None
  | S n =>
      if readonly s then
        Some (Throw (Error "Cannot remove element in readonly mode"), s)
      else if negb (hasElementById i s) then Some (Return (), s)
      else
        match _collectElementsToDelete (S (size (_elementModels s))) s i
                emptyCollected with
        | None => None
        | Some c =>
            match orderedDeleteIds c with
            | [] => Some (Return (), s)
            | _ =>
                match deleteTransaction
                        (λ j st, snd <$> deleteElement_fuel n j st) c s with
                | Some s' => Some (Return (), s')
                | None => None
                end
            end
        end
  end.

(** [None] only if the fuel ran out: every nested call removes an element
    as long as [removeChild] adds none, so the number of elements bounds
    the nesting. *)
Definition deleteElement (i : string) (s : State)
  : option (Outcome unit * State) :=
  deleteElement_fuel (S (size (_elementModels s))) i s.

Definition _propsToY (ty : string) (props : list (string * V)) (s : State)
  : Outcome (list (string * V)) :=
  if decide (ty ∈ _elementCtorMap s) then Return (propsToY ty props)
  else Throw (Error ("Invalid element type: " +:+ ty)).

(** [updateElement].  [store.transact] belongs to the store, which is not
    among the sources: it runs its callback and keeps what the callback
    throws from its caller.  So an exception of [_propsToY] ends the
    transaction before any property is assigned, and the call returns. *)
Definition updateElement (i : string) (props : list (string * V)) (s : State)
  : Outcome unit * State :=
  if readonly s then
    (Throw (Error "Cannot update element in readonly mode"), s)
  else
    match getElementById i s with
    | None => (Throw (Error ("Element " +:+ i +:+ " is not found")), s)
    | Some elementModel =>
        (Return (),
         match _propsToY (type elementModel) props s with
         | Throw _ => s
         | Return props =>
             foldl (λ s '(key, value), setProperty elementModel key value s)
                   s props
         end)
    end.
End Mutations.

(** The state of the unit test "getGroup should recover from stale cache":
    a shape, a fake group that contains it, and a parent pointer to a
    group that does not exist. *)
Definition fakeGroup (shapeId : string) : GroupModel :=
  {| gid := "group-fallback"; hasChild := λ e, bool_decide (e = shapeId) |}.

Definition testShape (i : string) : ElementModel :=
  {| id := i; type := "testShape"; childIds := None |}.

Definition staleCacheState : State := {|
  readonly := false;
  blocks := ∅;
  _elementCtorMap := {[ "testShape" ]};
  _elementModels := {[ "0" := testShape "0"; "1" := testShape "1" ]};
  _groupLikeModels := [("group-fallback", fakeGroup "0")];
  _parentGroupMap := {[ "0" := "stale-group-id";
                        "1" := "another-missing-group" ]};
  _groupChildIdsMap := ∅;
|}.

(** The same store in read-only mode. *)
Definition readonlyState (s : State) : State :=
  {| readonly := true; blocks := blocks s;
     _elementCtorMap := _elementCtorMap s;
     _elementModels := _elementModels s;
     _groupLikeModels := _groupLikeModels s;
     _parentGroupMap := _parentGroupMap s;
     _groupChildIdsMap := _groupChildIdsMap s |}.

(** A cached parent that is a known group but does not contain the
    element, next to a group that does. *)
Definition emptyGroup : GroupModel :=
  {| gid := "group-empty"; hasChild := λ _, false |}.

Definition outdatedCacheState : State := {|
  readonly := false;
  blocks := ∅;
  _elementCtorMap := {[ "testShape" ]};
  _elementModels := {[ "0" := testShape "0" ]};
  _groupLikeModels := [("group-empty", emptyGroup);
                       ("group-fallback", fakeGroup "0")];
  _parentGroupMap := {[ "0" := "group-empty" ]};
  _groupChildIdsMap := ∅;
|}.

(** *** What [_collectElementsToDelete] maintains *)

(** [x] is [root] or is reached from it through [childIds] entries that
    resolve to live elements. *)
Inductive reachableElement (s : State) (root : string) : string → Prop :=
| reach_root : reachableElement s root root
| reach_child x element children child :
    reachableElement s root x →
    getElementById x s = Some element →
    childIds element = Some children →
    child ∈ children →
    is_Some (getElementById child s) →
    reachableElement s root child.

(** While the collection runs, [pending] holds the ids whose call has
    started but not finished: every marked id is either listed or
    pending, listed ids are distinct live elements whose live children
    are all marked, and the queued blocks are distinct ids of blocks that
    are not elements. *)
Definition collectInv (s : State) (pending : gset string) (c : Collected)
  : Prop :=
  NoDup (orderedDeleteIds c)
  ∧ (∀ x, x ∈ deleteElementIds c ↔ x ∈ orderedDeleteIds c ∨ x ∈ pending)
  ∧ (∀ x, x ∈ orderedDeleteIds c → x ∉ pending)
  ∧ (∀ x, x ∈ deleteElementIds c → is_Some (getElementById x s))
  ∧ (∀ x element children child,
       x ∈ orderedDeleteIds c →
       getElementById x s = Some element →
       childIds element = Some children →
       child ∈ children →
       is_Some (getElementById child s) →
       child ∈ deleteElementIds c)
  ∧ NoDup (deleteBlockIds c)
  ∧ (∀ b, b ∈ deleteBlockIds c →
       getElementById b s = None ∧ is_Some (blocks s !! b)).

(** *** [getGroups] *)

(** The [while (group)] loop of [getGroups].  [visited] holds the groups
    already listed (a group model is identified by its id); a group met
    again ends the walk (the code logs a warning and breaks). *)
Fixpoint getGroups_loop (fuel : nat) (visited : gset string)
    (groups : list GroupModel) (group : option GroupModel) (s : State)
  : option (list GroupModel * State) :=
  match group with
  | None => Some (groups, s)
  | Some g =>
      if decide (gid g ∈ visited) then Some (groups, s)
      else match fuel with
           | 0 => None
           | S n =>
               let '(next, s') := getGroup (ById (gid g)) s in
               getGroups_loop n ({[gid g]} ∪ visited) (groups ++ [g]) next s'
           end
  end.

(** Every iteration that continues lists a group with a new id, so the
    number of known groups is fuel enough. *)
Definition getGroups (i : string) (s : State)
  : option (list GroupModel * State) :=
  let '(group, s') := getGroup (ById i) s in
  getGroups_loop (length (_groupLikeModels s)) ∅ [] group s'.

(** The ids of the known groups. *)
Definition knownGroupIds (s : State) : gset string :=
  list_to_set (gid <$> (_groupLikeModels s).*2).

(** The registry of groups as the code fills it
    ([_groupLikeModels.set(model.id, model)]): one entry per id, filed
    under the id of its model. *)
Definition registryWf (s : State) : Prop :=
  NoDup (_groupLikeModels s).*1
  ∧ ∀ k g, (k, g) ∈ _groupLikeModels s → gid g = k.

(** *** [_rebuildGroupChildrenIndex] *)

Section RebuildGroupIndex.
(** [group.childIds], a getter of the group model. *)
Variable childIdsOf : GroupModel → list string.

Definition _rebuildGroupChildrenIndex (s : State) : State :=
  foldl (λ s '(_, group),
           _syncGroupChildrenIndex (gid group) (childIdsOf group) (Some []) s)
        (set_parentGroupMap ∅ (set_groupChildIdsMap ∅ s))
        (_groupLikeModels s).
End RebuildGroupIndex.

(** A parent index with a cycle: [group-a] and [group-b] contain each
    other. *)
Definition groupModel (i : string) (children : list string) : GroupModel :=
  {| gid := i; hasChild := λ e, bool_decide (e ∈ children) |}.

Definition cyclicIndexState : State := {|
  readonly := false;
  blocks := ∅;
  _elementCtorMap := {[ "group" ]};
  _elementModels :=
    {[ "group-a" := {| id := "group-a"; type := "group";
                       childIds := Some ["group-b"] |};
       "group-b" := {| id := "group-b"; type := "group";
                       childIds := Some ["group-a"] |} ]};
  _groupLikeModels := [("group-a", groupModel "group-a" ["group-b"]);
                       ("group-b", groupModel "group-b" ["group-a"])];
  _parentGroupMap := {[ "group-b" := "group-a"; "group-a" := "group-b" ]};
  _groupChildIdsMap := {[ "group-a" := ["group-b"];
                          "group-b" := ["group-a"] ]};
|}.

(** Two groups claim the child [b]: [group-1] was indexed with the
    children [a] and [b], then [group-2] with the child [b]. *)
Definition sharedChildState : State :=
  _syncGroupChildrenIndex "group-2" ["b"] (Some [])
    (_syncGroupChildrenIndex "group-1" ["a"; "b"] (Some []) staleCacheState).

(** A group [g] with an element child [s], a block child [blk] and a
    child id that resolves to nothing. *)
Definition groupWithChildren : State := {|
  readonly := false;
  blocks := {[ "blk" := {| isGroupCompatibleBlock := false |} ]};
  _elementCtorMap := {[ "testShape"; "group" ]};
  _elementModels :=
    {[ "g" := {| id := "g"; type := "group";
                 childIds := Some ["s"; "blk"; "gone"] |};
       "s" := testShape "s"; "t" := testShape "t" ]};
  _groupLikeModels :=
    [("g", {| gid := "g";
              hasChild := λ e, bool_decide (e ∈ ["s"; "blk"; "gone"]) |})];
  _parentGroupMap := {[ "s" := "g"; "blk" := "g"; "gone" := "g" ]};
  _groupChildIdsMap := {[ "g" := ["s"; "blk"; "gone"] ]};
|}.

(** A [removeChild] for the examples, standing for the one of the group
    element model: it takes the child out of the [childIds] of the group's
    element model. *)
Definition removeChildOfElement (g : GroupModel) (element : string)
    (s : State) : State :=
  match _elementModels s !! gid g with
  | Some model =>
      set_elementModels
        (<[gid g := {| id := id model; type := type model;
                       childIds := filter (λ c, c ≠ element)
                                     <$> childIds model |}]>
           (_elementModels s)) s
  | None => s
  end.

(** What a nested [deleteElement] has to do for the transaction around
    it to end: return, once there are fewer than [n] elements, and add
    none. *)
Definition shrinks (n : nat) (deleteSelf : string → State → option State)
  : Prop :=
  ∀ j st, size (dom (_elementModels st)) < n →
    ∃ st', deleteSelf j st = Some st'
           ∧ dom (_elementModels st') ⊆ dom (_elementModels st).

(** Group [outer] holds group [inner], which holds the shape [leaf];
    the shape [t] stands apart. *)
Definition nestedGroupsState : State := {|
  readonly := false;
  blocks := ∅;
  _elementCtorMap := {[ "testShape"; "group" ]};
  _elementModels :=
    {[ "outer" := {| id := "outer"; type := "group";
                     childIds := Some ["inner"] |};
       "inner" := {| id := "inner"; type := "group";
                     childIds := Some ["leaf"] |};
       "leaf" := testShape "leaf"; "t" := testShape "t" ]};
  _groupLikeModels := [("outer", groupModel "outer" ["inner"]);
                       ("inner", groupModel "inner" ["leaf"])];
  _parentGroupMap := {[ "inner" := "outer"; "leaf" := "inner" ]};
  _groupChildIdsMap := {[ "outer" := ["inner"]; "inner" := ["leaf"] ]};
|}.

End Surface.

(** ** Connector endpoint index (affine surface model) *)

Module AffineSurface.

(** The cached pair [{ sourceId, targetId }] of a connector. *)
Record Endpoints := {
  sourceId : option string;
  targetId : option string;
}.

(** What the index reads of a connector: its [id], [source?.id] and
    [target?.id]. *)
Record ConnectorElementModel := {
  cid : string;
  source : option string;
  target : option string;
}.

(** The subclass state: the base surface model and the two index maps.  The
    sets of connector ids are iterated by [getConnectors], so they are
    lists in insertion order. *)
Record State := {
  base : Surface.State;
  _connectorIdsByEndpoint : gmap string (list string);
  _connectorEndpoints : gmap string Endpoints;
}.

Definition set_index (idx : gmap string (list string)) (s : State) : State :=
  {| base := base s; _connectorIdsByEndpoint := idx;
     _connectorEndpoints := _connectorEndpoints s |}.

Definition set_endpoints (eps : gmap string Endpoints) (s : State) : State :=
  {| base := base s; _connectorIdsByEndpoint := _connectorIdsByEndpoint s;
     _connectorEndpoints := eps |}.

(** [Set.prototype.add] and [Set.prototype.delete] on an insertion-ordered
    set. *)
Definition setAdd (x : string) (xs : list string) : list string :=
  if decide (x ∈ xs) then xs else xs ++ [x].

Definition setDelete (x : string) (xs : list string) : list string :=
  filter (λ y, y ≠ x) xs.

Definition _addConnectorEndpoint (endpointId connectorId : string) (s : State)
  : State :=
  match _connectorIdsByEndpoint s !! endpointId with
  | Some connectorIds =>
      set_index (<[endpointId := setAdd connectorId connectorIds]>
                   (_connectorIdsByEndpoint s)) s
  | None =>
      set_index (<[endpointId := [connectorId]]> (_connectorIdsByEndpoint s)) s
  end.

Definition _isConnectorModel (model : option Surface.ElementModel) : bool :=
  match model with
  | Some m => bool_decide (Surface.type m = "connector")
  | None => false
  end.

Definition _removeConnectorEndpoint (endpointId connectorId : string)
    (s : State) : State :=
  match _connectorIdsByEndpoint s !! endpointId with
  | None => s
  | Some connectorIds =>
      let connectorIds := setDelete connectorId connectorIds in
      match connectorIds with
      | [] => set_index (delete endpointId (_connectorIdsByEndpoint s)) s
      | _ => set_index (<[endpointId := connectorIds]>
                          (_connectorIdsByEndpoint s)) s
      end
  end.

(** [if (endpoint) this._removeConnectorEndpoint(endpoint, connectorId)] *)
Definition removeIfSet (endpoint : option string) (connectorId : string)
    (s : State) : State :=
  match endpoint with
  | Some e => if truthy e then _removeConnectorEndpoint e connectorId s else s
  | None => s
  end.

Definition addIfSet (endpoint : option string) (connectorId : string)
    (s : State) : State :=
  match endpoint with
  | Some e => if truthy e then _addConnectorEndpoint e connectorId s else s
  | None => s
  end.

Definition _removeConnectorFromIndex (connectorId : string) (s : State)
  : State :=
  match _connectorEndpoints s !! connectorId with
  | None => s
  | Some endpoints =>
      let s := removeIfSet (sourceId endpoints) connectorId s in
      let s := removeIfSet (targetId endpoints) connectorId s in
      set_endpoints (delete connectorId (_connectorEndpoints s)) s
  end.

Definition _setConnectorEndpoints (connector : ConnectorElementModel)
    (s : State) : State :=
  let newSource := source connector in
  let newTarget := target connector in
  let previousEndpoints := _connectorEndpoints s !! cid connector in
  let unchanged :=
    match previousEndpoints with
    | Some p => bool_decide (sourceId p = newSource)
                && bool_decide (targetId p = newTarget)
    | None => false
    end in
  if unchanged then s
  else
    let s := match previousEndpoints with
             | Some p => removeIfSet (sourceId p) (cid connector) s
             | None => s
             end in
    let s := match previousEndpoints with
             | Some p => removeIfSet (targetId p) (cid connector) s
             | None => s
             end in
    let s := addIfSet newSource (cid connector) s in
    let s := addIfSet newTarget (cid connector) s in
    set_endpoints
      (<[cid connector := {| sourceId := newSource; targetId := newTarget |}]>
         (_connectorEndpoints s)) s.

(** [this._connectorIdsByEndpoint.clear(); this._connectorEndpoints.clear()] *)
Definition clearConnectorIndex (s : State) : State :=
  {| base := base s; _connectorIdsByEndpoint := ∅; _connectorEndpoints := ∅ |}.

Definition isLiveConnector (s : State) (connectorId : string) : bool :=
  _isConnectorModel (Surface.getElementById connectorId (base s)).

(** The [connectorIds.forEach] loop of [getConnectors]: ids that do not
    resolve to a connector model are collected as stale, the others
    contribute their model. *)
Definition classifyConnector (s : State)
    (acc : list string * list Surface.ElementModel) (connectorId : string)
  : list string * list Surface.ElementModel :=
  let '(staleConnectorIds, connectors) := acc in
  match Surface.getElementById connectorId (base s) with
  | Some model =>
      if _isConnectorModel (Some model)
      then (staleConnectorIds, connectors ++ [model])
      else (staleConnectorIds ++ [connectorId], connectors)
  | None => (staleConnectorIds ++ [connectorId], connectors)
  end.

Definition getConnectors (i : string) (s : State)
  : list Surface.ElementModel * State :=
  match _connectorIdsByEndpoint s !! i with
  | None | Some [] => ([], s)
  | Some connectorIds =>
      let '(staleConnectorIds, connectors) :=
        foldl (classifyConnector s) ([], []) connectorIds in
      (connectors,
       foldl (λ s connectorId, _removeConnectorFromIndex connectorId s)
             s staleConnectorIds)
  end.

(** The model a connector id resolves to, when it is a live connector. *)
Definition liveModel (s : State) (connectorId : string)
  : option Surface.ElementModel :=
  match Surface.getElementById connectorId (base s) with
  | Some model => if _isConnectorModel (Some model) then Some model else None
  | None => None
  end.

(** The connector ids indexed under an endpoint ([[]] when the endpoint has
    no entry). *)
Definition indexOf (s : State) (endpointId : string) : list string :=
  default [] (_connectorIdsByEndpoint s !! endpointId).

(** Every id indexed under an endpoint is backed by the cached pair of
    that connector, and only set endpoints are indexed. *)
Definition indexBacked (s : State) : Prop :=
  ∀ e c, c ∈ indexOf s e →
    truthy e = true ∧
    ∃ ep, _connectorEndpoints s !! c = Some ep ∧
          (sourceId ep = Some e ∨ targetId ep = Some e).

(** A surface with one live connector [c1] from [a] to [b]; the index
    was also given the connector [c0], which has no live element. *)
Definition connectorModel (i : string) : Surface.ElementModel :=
  {| Surface.id := i; Surface.type := "connector"; Surface.childIds := None |}.

Definition connectorFromTo (i a b : string) : ConnectorElementModel :=
  {| cid := i; source := Some a; target := Some b |}.

Definition emptyIndexState : State := {|
  base := {|
    Surface.readonly := false;
    Surface.blocks := ∅;
    Surface._elementCtorMap := {[ "connector"; "testShape" ]};
    Surface._elementModels :=
      {[ "a" := Surface.testShape "a"; "b" := Surface.testShape "b";
         "c1" := connectorModel "c1" ]};
    Surface._groupLikeModels := [];
    Surface._parentGroupMap := ∅;
    Surface._groupChildIdsMap := ∅;
  |};
  _connectorIdsByEndpoint := ∅;
  _connectorEndpoints := ∅;
|}.

Definition staleIndexState : State :=
  _setConnectorEndpoints (connectorFromTo "c1" "a" "b")
    (_setConnectorEndpoints (connectorFromTo "c0" "a" "b")
       (clearConnectorIndex emptyIndexState)).

(** [_rebuildConnectorIndex]; [connectors] is what
    [getElementsByType('connector')] returns, read as the [id], [source?.id]
    and [target?.id] of each connector. *)
Definition _rebuildConnectorIndex (connectors : list ConnectorElementModel)
    (s : State) : State :=
  foldl (λ s connector, _setConnectorEndpoints connector s)
        (clearConnectorIndex s) connectors.

(** A connector is attached to an endpoint when the endpoint is a
    non-empty id and is the source or the target of its cached pair. *)
Definition attached (ep : Endpoints) (e : string) : Prop :=
  truthy e = true ∧ (sourceId ep = Some e ∨ targetId ep = Some e).

(** The index and the cached pairs agree in both directions. *)
Definition indexExact (s : State) : Prop :=
  ∀ e c, c ∈ indexOf s e ↔
    ∃ ep, _connectorEndpoints s !! c = Some ep ∧ attached ep e.

(** No endpoint lists a connector twice (the index holds [Set]s). *)
Definition indexNoDup (s : State) : Prop :=
  ∀ e, NoDup (indexOf s e).

End AffineSurface.

(** * Properties *)

(** ** Tree utilities *)

Example getTopElements_test :
  Tree.getTopElements 5 Tree.testTree
    ["root"; "nested"; "leaf-a"; "leaf-b"; "leaf-c"] = Some ["root"; "leaf-c"].
Proof. vm_compute. reflexivity. Qed.

Example descendantElementsImpl_test :
  Tree.descendantElementsImpl (Tree.twoCycle "group-a" "group-b") "group-a"
  = Some ["group-b"; "group-a"].
Proof. vm_compute. reflexivity. Qed.

(** On an acyclic parent chain the ancestor walks do exit. *)
Example hasDescendantElementImpl_test :
  Tree.hasDescendantElementImpl 2 Tree.testTree "root" "leaf-b" = Some true ∧
  Tree.hasDescendantElementImpl 2 Tree.testTree "nested" "leaf-a" = Some false.
Proof. split; vm_compute; reflexivity. Qed.

(** Where every parent has a smaller rank than its child (no cycle), both
    walks exit within [rank] iterations. *)
Lemma hasSelectedAncestor_returns (g : Tree.Graph) (rank : string → nat)
    (selected : gset string) :
  (∀ x p, Tree.group g !! x = Some p → rank p < rank x) →
  ∀ fuel a, rank a < fuel →
    is_Some (Tree.hasSelectedAncestor fuel g selected (Some a)).
Proof.
  intros Hrank. induction fuel as [|n IH]; intros a Hlt; [lia|].
  cbn [Tree.hasSelectedAncestor].
  destruct (decide (a ∈ selected)); [by eexists|].
  destruct (Tree.group g !! a) as [p|] eqn:Hp.
  - apply IH. specialize (Hrank a p Hp). lia.
  - destruct n; by eexists.
Qed.

Lemma hasDescendantElement_loop_returns (g : Tree.Graph) (rank : string → nat)
    (container : string) :
  (∀ x p, Tree.group g !! x = Some p → rank p < rank x) →
  ∀ fuel a, rank a < fuel →
    is_Some (Tree.hasDescendantElement_loop fuel g container (Some a)).
Proof.
  intros Hrank. induction fuel as [|n IH]; intros a Hlt; [lia|].
  cbn [Tree.hasDescendantElement_loop].
  destruct (decide (a = container)); [by eexists|].
  destruct (Tree.group g !! a) as [p|] eqn:Hp.
  - apply IH. specialize (Hrank a p Hp). lia.
  - destruct n; by eexists.
Qed.

Lemma cycleWithLeaf_group_a :
  Tree.group Tree.cycleWithLeaf !! "group-a" = Some "group-b".
Proof. vm_compute. reflexivity. Qed.

Lemma cycleWithLeaf_group_b :
  Tree.group Tree.cycleWithLeaf !! "group-b" = Some "group-a".
Proof. vm_compute. reflexivity. Qed.

(** Once on the 2-cycle, the walk of [getTopElements] stays on it as long as
    neither group is selected. *)
Lemma hasSelectedAncestor_on_cycle (selected : gset string) fuel a :
  "group-a" ∉ selected → "group-b" ∉ selected →
  a = "group-a" ∨ a = "group-b" →
  Tree.hasSelectedAncestor fuel Tree.cycleWithLeaf selected (Some a) = None.
Proof.
  intros Ha Hb. revert a.
  induction fuel as [|n IH]; intros a [-> | ->];
    cbn [Tree.hasSelectedAncestor];
    (rewrite decide_False by assumption); try reflexivity.
  - rewrite cycleWithLeaf_group_a. apply IH. by right.
  - rewrite cycleWithLeaf_group_b. apply IH. by left.
Qed.

Lemma hasDescendantElement_loop_on_cycle fuel a :
  a = "group-a" ∨ a = "group-b" →
  Tree.hasDescendantElement_loop fuel Tree.cycleWithLeaf "group-c" (Some a)
  = None.
Proof.
  revert a.
  induction fuel as [|n IH]; intros a [-> | ->];
    cbn [Tree.hasDescendantElement_loop];
    (rewrite decide_False by discriminate); try reflexivity.
  - rewrite cycleWithLeaf_group_a. apply IH. by right.
  - rewrite cycleWithLeaf_group_b. apply IH. by left.
Qed.

(** C1 (the code diverges).  In the group graph where [group-a] and
    [group-b] contain each other and [leaf] is a child of [group-a], the
    ancestor walk of [getTopElements] on the selection [[leaf]] and the
    walk of [hasDescendantElementImpl] from [leaf] looking for the
    unrelated group [group-c] never exit: however many loop iterations are
    allowed, neither produces a result. *)
Theorem ancestor_walks_diverge_on_cycle (fuel : nat) :
  Tree.getTopElements fuel Tree.cycleWithLeaf ["leaf"] = None ∧
  Tree.hasDescendantElementImpl fuel Tree.cycleWithLeaf "group-c" "leaf" = None.
Proof.
  split.
  - unfold Tree.getTopElements. cbn [Tree.getTopElements_loop].
    change (unique ["leaf"]) with ["leaf"].
    cbn [Tree.getTopElements_loop].
    replace (Tree.group Tree.cycleWithLeaf !! "leaf") with (Some "group-a")
      by (vm_compute; reflexivity).
    rewrite hasSelectedAncestor_on_cycle; [reflexivity | | | by left].
    + rewrite list_to_set_cons, list_to_set_nil. set_solver.
    + rewrite list_to_set_cons, list_to_set_nil. set_solver.
  - unfold Tree.hasDescendantElementImpl.
    replace (Tree.group Tree.cycleWithLeaf !! "leaf") with (Some "group-a")
      by (vm_compute; reflexivity).
    apply hasDescendantElement_loop_on_cycle. by left.
Qed.

(** *** Termination of [traverse] *)

Section TraverseFacts.
Context {A : Type}.
Variable pre : option (string → A → bool * A).
Variable post : option (string → A → A).

Lemma unvisited_mono g (v v' : gset string) :
  v ⊆ v' → Tree.unvisited g v' ≤ Tree.unvisited g v.
Proof. intros Hsub. apply subseteq_size. set_solver. Qed.

Lemma unvisited_visit g (v : gset string) x children :
  Tree.childElements g !! x = Some children → x ∉ v →
  Tree.unvisited g ({[x]} ∪ v) < Tree.unvisited g v.
Proof.
  intros Hx Hnv. apply subset_size.
  assert (x ∈ dom (Tree.childElements g)) by (apply elem_of_dom; eauto).
  set_solver.
Qed.

Lemma forEachM_innerTraverse_enough n g :
  (∀ x visited a, Tree.unvisited g visited < n →
     ∃ visited' a',
       Tree.innerTraverse pre post n g x (visited, a) = Some (visited', a')
       ∧ visited ⊆ visited') →
  ∀ children visited a, Tree.unvisited g visited < n →
    ∃ visited' a',
      forEachM (Tree.innerTraverse pre post n g) children (visited, a)
      = Some (visited', a') ∧ visited ⊆ visited'.
Proof.
  intros IH. induction children as [|c cs IHcs]; intros visited a Hlt.
  - exists visited, a. split; [reflexivity | set_solver].
  - cbn [forEachM].
    destruct (IH c visited a Hlt) as (v1 & a1 & -> & Hsub1).
    destruct (IHcs v1 a1) as (v2 & a2 & -> & Hsub2).
    + pose proof (unvisited_mono g _ _ Hsub1). lia.
    + exists v2, a2. split; [reflexivity | set_solver].
Qed.

Lemma innerTraverse_enough fuel g : ∀ x visited a,
  Tree.unvisited g visited < fuel →
  ∃ visited' a',
    Tree.innerTraverse pre post fuel g x (visited, a) = Some (visited', a')
    ∧ visited ⊆ visited'.
Proof.
  induction fuel as [|n IH]; intros x visited a Hlt; [lia|].
  cbn [Tree.innerTraverse].
  destruct (decide (x ∈ visited)) as [Hin | Hnin].
  { exists visited, a. split; [reflexivity | set_solver]. }
  destruct (match pre with Some f => f x a | None => (false, a) end)
    as [interrupt a1].
  destruct interrupt.
  { eexists _, _. split; [reflexivity | set_solver]. }
  destruct (Tree.childElements g !! x) as [children|] eqn:Hx.
  - destruct (forEachM_innerTraverse_enough n g IH children
                ({[x]} ∪ visited) a1) as (v2 & a2 & -> & Hsub).
    + pose proof (unvisited_visit g visited x children Hx Hnin). lia.
    + eexists _, _. split; [reflexivity | set_solver].
  - eexists _, _. split; [reflexivity | set_solver].
Qed.

Lemma traverse_enough g x a :
  is_Some (Tree.traverse pre post (S (size (Tree.childElements g))) g x a).
Proof.
  unfold Tree.traverse.
  destruct (innerTraverse_enough (S (size (Tree.childElements g))) g x ∅ a)
    as (v & a' & -> & _).
  - unfold Tree.unvisited. rewrite difference_empty_L, size_dom. lia.
  - eexists. reflexivity.
Qed.
End TraverseFacts.

(** *** What one [traverse] of [descendantElementsImpl] appends *)

Lemma forEachM_push_invariant n g before :
  (∀ x st st' segment,
     Tree.innerTraverse (Some Tree.pushResult) None n g x st = Some st' →
     Tree.pushInvariant before st segment →
     ∃ more, Tree.pushInvariant before st' (segment ++ more)) →
  ∀ children st st' segment,
    forEachM (Tree.innerTraverse (Some Tree.pushResult) None n g) children st
    = Some st' →
    Tree.pushInvariant before st segment →
    ∃ more, Tree.pushInvariant before st' (segment ++ more).
Proof.
  intros IH. induction children as [|c cs IHcs]; intros st st' segment Hrun Hinv.
  - injection Hrun as <-. exists []. by rewrite app_nil_r.
  - cbn [forEachM] in Hrun.
    destruct (Tree.innerTraverse _ _ n g c st) as [st1|] eqn:Hc; [|done].
    destruct (IH _ _ _ _ Hc Hinv) as [more1 Hinv1].
    destruct (IHcs _ _ _ Hrun Hinv1) as [more2 Hinv2].
    exists (more1 ++ more2). by rewrite app_assoc.
Qed.

Lemma innerTraverse_push_invariant fuel g before : ∀ x st st' segment,
  Tree.innerTraverse (Some Tree.pushResult) None fuel g x st = Some st' →
  Tree.pushInvariant before st segment →
  ∃ more, Tree.pushInvariant before st' (segment ++ more).
Proof.
  induction fuel as [|n IH]; intros x [visited results] st' segment Hrun Hinv;
    [done|].
  cbn [Tree.innerTraverse] in Hrun.
  destruct (decide (x ∈ visited)) as [Hin | Hnin].
  { injection Hrun as <-. exists []. by rewrite app_nil_r. }
  cbn [Tree.pushResult] in Hrun.
  destruct Hinv as (Hres & Hnd & Hsub). cbn [fst snd] in Hres, Hsub.
  assert (Hinv1 : Tree.pushInvariant before ({[x]} ∪ visited, results ++ [x])
                    (segment ++ [x])).
  { split; [|split]; cbn [fst snd].
    - by rewrite Hres, app_assoc.
    - apply NoDup_app. split; [done|]. split; [|apply NoDup_singleton].
      intros y Hy ->%list_elem_of_singleton. by apply Hnin, Hsub.
    - intros y [Hy | ->%list_elem_of_singleton]%elem_of_app; set_solver. }
  destruct (Tree.childElements g !! x) as [children|].
  - destruct (forEachM _ children _) as [[v2 r2]|] eqn:Hkids; [|done].
    destruct (forEachM_push_invariant n g before (IH) _ _ _ _ Hkids Hinv1)
      as [more Hinv2].
    injection Hrun as <-. exists ([x] ++ more). by rewrite app_assoc.
  - injection Hrun as <-. exists [x]. done.
Qed.

(** One [traverse] from [child] appends a duplicate-free segment that
    starts with [child]. *)
Lemma traverse_push_segment g child results :
  ∃ segment,
    Tree.traverse (Some Tree.pushResult) None
      (S (size (Tree.childElements g))) g child results
    = Some (results ++ segment)
    ∧ head segment = Some child ∧ NoDup segment.
Proof.
  pose proof (traverse_enough (Some Tree.pushResult) None g child results)
    as [r Hr].
  unfold Tree.traverse in *.
  destruct (Tree.innerTraverse _ _ _ g child (∅, results))
    as [[v r']|] eqn:Hrun; [|done].
  injection Hr as <-.
  remember (S (size (Tree.childElements g))) as fuel eqn:Hfuel.
  destruct fuel as [|n]; [done|].
  cbn [Tree.innerTraverse] in Hrun.
  rewrite decide_False in Hrun by set_solver.
  cbn [Tree.pushResult] in Hrun.
  assert (Hinv1 : Tree.pushInvariant results ({[child]} ∪ ∅, results ++ [child])
                    [child]).
  { split; [done|]. split; [apply NoDup_singleton|].
    intros y ->%list_elem_of_singleton. set_solver. }
  destruct (Tree.childElements g !! child) as [children|].
  - destruct (forEachM _ children _) as [[v2 r2]|] eqn:Hkids; [|done].
    destruct (forEachM_push_invariant n g results
                (innerTraverse_push_invariant n g results) _ _ _ _ Hkids Hinv1)
      as [more (Hres & Hnd & _)].
    injection Hrun as <- <-. cbn [fst snd] in Hres.
    exists ([child] ++ more). rewrite Hres. done.
  - injection Hrun as <- <-. exists [child].
    split; [done|]. split; [done | apply NoDup_singleton].
Qed.

Lemma forEachM_traverse_segments g children : ∀ results,
  ∃ segments,
    forEachM (Tree.traverse (Some Tree.pushResult) None
                (S (size (Tree.childElements g))) g) children results
    = Some (results ++ concat segments)
    ∧ Forall2 (λ child segment, head segment = Some child ∧ NoDup segment)
        children segments.
Proof.
  induction children as [|c cs IH]; intros results.
  - exists []. cbn. rewrite app_nil_r. split; [done | constructor].
  - cbn [forEachM].
    destruct (traverse_push_segment g c results) as (seg & -> & Hhd & Hnd).
    destruct (IH (results ++ seg)) as (segs & -> & Hall).
    exists (seg :: segs). cbn [concat]. rewrite app_assoc.
    split; [done | by constructor].
Qed.

Lemma size_two_keys {V : Type} (m : gmap string V) a b :
  a ≠ b → is_Some (m !! a) → is_Some (m !! b) → 2 ≤ size m.
Proof.
  intros Hne Ha Hb. rewrite <- size_dom.
  assert (Hsub : ({[a; b]} : gset string) ⊆ dom m).
  { intros x [->%elem_of_singleton | ->%elem_of_singleton]%elem_of_union;
      by apply elem_of_dom. }
  apply subseteq_size in Hsub.
  rewrite size_union, !size_singleton in Hsub by set_solver. exact Hsub.
Qed.

(** The 2-cycle: [container] has the single child [b], whose single child
    is [container]. *)
Lemma descendantElementsImpl_two_cycle g container b :
  b ≠ container →
  Tree.childElements g !! container = Some [b] →
  Tree.childElements g !! b = Some [container] →
  Tree.descendantElementsImpl g container = Some [b; container].
Proof.
  intros Hne Hc Hb.
  unfold Tree.descendantElementsImpl, Tree.descendantElementsImpl_fuel.
  pose proof (size_two_keys (Tree.childElements g) b container Hne) as Hsize.
  destruct (size (Tree.childElements g)) as [|[|n]];
    [ exfalso; specialize (Hsize ltac:(eauto) ltac:(eauto)); lia ..|].
  rewrite Hc. change (default [] (Some [b])) with [b].
  cbn [forEachM]. unfold Tree.traverse.
  cbn [Tree.innerTraverse Tree.pushResult].
  rewrite decide_False by set_solver. rewrite Hb. cbn [forEachM].
  rewrite decide_False by set_solver. rewrite Hc. cbn [forEachM].
  rewrite decide_True by set_solver. reflexivity.
Qed.

(** C5 (amended).  On every group graph, cyclic or not,
    [descendantElementsImpl] returns; its result is the concatenation, over
    the direct children of the container in order, of one list per child
    that starts with that child and has no duplicates (the [visited] set
    is local to each [traverse], so elements reached from several direct
    children may repeat across the lists); and for a 2-cycle, where the
    container's only child [b] has the container as its only child, the
    result is exactly the two distinct elements [[b; container]]. *)
Theorem descendantElementsImpl_returns_segments (g : Tree.Graph)
    (container : string) :
  ∃ segments,
    Tree.descendantElementsImpl g container = Some (concat segments)
    ∧ Forall2 (λ child segment, head segment = Some child ∧ NoDup segment)
        (default [] (Tree.childElements g !! container)) segments
    ∧ (∀ b, b ≠ container →
         Tree.childElements g !! container = Some [b] →
         Tree.childElements g !! b = Some [container] →
         concat segments = [b; container] ∧ NoDup (concat segments)).
Proof.
  destruct (forEachM_traverse_segments g
              (default [] (Tree.childElements g !! container)) [])
    as (segments & Hrun & Hall).
  exists segments. split; [exact Hrun|]. split; [exact Hall|].
  intros b Hne Hc Hb.
  pose proof (descendantElementsImpl_two_cycle g container b Hne Hc Hb) as H2.
  unfold Tree.descendantElementsImpl, Tree.descendantElementsImpl_fuel in H2.
  rewrite Hrun in H2. injection H2 as H2. cbn [app] in H2. rewrite H2.
  split; [reflexivity|].
  apply NoDup_cons. split; [|apply NoDup_singleton].
  by intros ->%list_elem_of_singleton.
Qed.

Lemma descendantElementsImpl_returns_segments_witness :
  Tree.descendantElementsImpl (Tree.twoCycle "group-a" "group-b") "group-a"
  = Some ["group-b"; "group-a"].
Proof.
  destruct (descendantElementsImpl_returns_segments
              (Tree.twoCycle "group-a" "group-b") "group-a")
    as (segments & Hrun & _ & Htwo).
  rewrite Hrun. f_equal.
  apply (Htwo "group-b"); [discriminate | vm_compute; reflexivity ..].
Defined.

(** C5 (the claim as stated fails).  In the cyclic graph where [group-a]
    contains [group-b] and [leaf], and [group-b] contains [group-a], the
    descendants of [group-a] list [leaf] twice. *)
Lemma descendantElementsImpl_duplicates_on_cycle :
  Tree.childElements Tree.cycleWithLeaf !! "group-a"
    = Some ["group-b"; "leaf"] ∧
  Tree.childElements Tree.cycleWithLeaf !! "group-b" = Some ["group-a"] ∧
  Tree.descendantElementsImpl Tree.cycleWithLeaf "group-a"
    = Some ["group-b"; "group-a"; "leaf"; "leaf"] ∧
  ¬ NoDup ["group-b"; "group-a"; "leaf"; "leaf"].
Proof.
  repeat split; try (vm_compute; reflexivity).
  intros Hnd. apply NoDup_cons in Hnd as [_ Hnd].
  apply NoDup_cons in Hnd as [_ Hnd]. apply NoDup_cons in Hnd as [Hnin _].
  apply Hnin. left.
Qed.

(** ** Ungroup index keys *)

(** The second unit test: four failed batch calls, then two keys one at a
    time. *)
Example buildUngroupIndexes_one_by_one_test :
  GroupApi.buildUngroupIndexes GroupApi.throwingN GroupApi.sequenceOne
    ["child-a"; "child-b"] (Some "a0") (Some "a0") "m0" []
  = (["k0"; "k1"],
     [ GroupApi.CallN (Some "a0") (Some "a0") 2;
       GroupApi.CallN (Some "a0") None 2;
       GroupApi.CallN (Some "m0") None 2;
       GroupApi.CallN None None 2;
       GroupApi.CallOne None None;
       GroupApi.CallOne (Some "k0") None ]).
Proof. vm_compute. reflexivity. Qed.

Lemma key_lt_trans : Transitive GroupApi.key_lt.
Proof.
  intros a b c Hab Hbc. unfold GroupApi.key_lt, String.ltb in *.
  destruct (String.compare a b) eqn:Eab; try discriminate.
  destruct (String.compare b c) eqn:Ebc; try discriminate.
  apply OrderedTypeEx.String_as_OT.cmp_lt in Eab, Ebc.
  pose proof (OrderedTypeEx.String_as_OT.lt_trans _ _ _ Eab Ebc) as Hac.
  apply OrderedTypeEx.String_as_OT.cmp_lt in Hac.
  unfold OrderedTypeEx.String_as_OT.cmp in Hac. by rewrite Hac.
Qed.

Section BuildUngroupIndexesFacts.
Context {G E : Type}.
Variable generateNKeysBetween :
  option string → option string → nat → G → option (list string) * G.
Variable generateKeyBetween :
  option string → option string → G → option string * G.

Local Abbreviation oneByOne := (GroupApi.oneByOne generateKeyBetween).
Local Abbreviation batchSorted := (GroupApi.batchSorted generateNKeysBetween).
Local Abbreviation keyAboveLower := (GroupApi.keyAboveLower generateKeyBetween).
Local Abbreviation buildUngroupIndexes :=
  (GroupApi.buildUngroupIndexes generateNKeysBetween generateKeyBetween).
Local Abbreviation fallbackChain_spec :=
  (GroupApi.fallbackChain_spec generateNKeysBetween generateKeyBetween).
Local Abbreviation chainedKeys_spec :=
  (GroupApi.chainedKeys_spec generateKeyBetween).
Local Abbreviation firstSuccess :=
  (GroupApi.firstSuccess generateNKeysBetween).

(** The [map] of [tryGenerateOneByOne] is the chained generation of the
    specification. *)
Lemma oneByOne_chained (orderedElements : list E) : ∀ cursor hi lib,
  oneByOne orderedElements cursor hi lib
  = chainedKeys_spec (length orderedElements) cursor hi lib.
Proof.
  induction orderedElements as [|e rest IH]; intros cursor hi lib;
    cbn [GroupApi.oneByOne GroupApi.chainedKeys_spec length]; [done|].
  destruct (generateKeyBetween cursor hi lib) as [[key|] lib1]; [|done].
  by rewrite IH.
Qed.

(** The code follows the chain of the specification. *)
Lemma buildUngroupIndexes_chain (orderedElements : list E) afterIndex
    beforeIndex fallbackAnchorIndex lib :
  orderedElements ≠ [] →
  buildUngroupIndexes orderedElements afterIndex beforeIndex
    fallbackAnchorIndex lib
  = fallbackChain_spec orderedElements afterIndex beforeIndex
      fallbackAnchorIndex lib.
Proof.
  intros Hne. destruct orderedElements as [|e rest]; [done|].
  unfold GroupApi.buildUngroupIndexes, GroupApi.fallbackChain_spec,
    GroupApi.strategies, GroupApi.orElse, GroupApi.tryGenerateN,
    GroupApi.tryGenerateOneByOne.
  cbn [GroupApi.firstSuccess].
  repeat (first
    [ progress destruct (generateNKeysBetween _ _ _ _) as [[?|] ?]
    | progress destruct (decide _) ];
    cbn [default from_option id]; try reflexivity).
  all: rewrite <- oneByOne_chained.
  all: by destruct (GroupApi.oneByOne _ _ _ _ _) as [[?|] ?].
Qed.

Lemma oneByOne_length (orderedElements : list E) :
  ∀ cursor hi lib keys lib',
    oneByOne orderedElements cursor hi lib = (Some keys, lib') →
    length keys = length orderedElements.
Proof.
  induction orderedElements as [|e rest IH];
    intros cursor hi lib keys lib' Hrun; cbn [GroupApi.oneByOne] in Hrun.
  - by injection Hrun as <- <-.
  - destruct (generateKeyBetween cursor hi lib) as [[key|] lib1]; [|done].
    destruct (oneByOne rest (Some key) hi lib1) as [[keys'|] lib2] eqn:Hrest;
      [|done].
    injection Hrun as <- <-. cbn [length]. f_equal. by eapply IH.
Qed.

Lemma oneByOne_sorted (orderedElements : list E) :
  keyAboveLower →
  ∀ cursor hi lib keys lib',
    oneByOne orderedElements cursor hi lib = (Some keys, lib') →
    Sorted GroupApi.key_lt keys
    ∧ ∀ c, cursor = Some c → HdRel GroupApi.key_lt c keys.
Proof.
  intros Hone. induction orderedElements as [|e rest IH];
    intros cursor hi lib keys lib' Hrun; cbn [GroupApi.oneByOne] in Hrun.
  - injection Hrun as <- <-. repeat split; constructor.
  - destruct (generateKeyBetween cursor hi lib) as [[key|] lib1] eqn:Hkey;
      [|done].
    destruct (oneByOne rest (Some key) hi lib1) as [[keys'|] lib2] eqn:Hrest;
      [|done].
    injection Hrun as <- <-.
    destruct (IH _ _ _ _ _ Hrest) as (Hsorted & Hhd).
    split.
    + constructor; [exact Hsorted | by apply Hhd].
    + intros c ->. constructor. by eapply Hone.
Qed.

Lemma fallbackChain_spec_sorted (orderedElements : list E) afterIndex
    beforeIndex fallbackAnchorIndex lib :
  batchSorted → keyAboveLower →
  Sorted GroupApi.key_lt
    (fallbackChain_spec orderedElements afterIndex beforeIndex
       fallbackAnchorIndex lib).1.
Proof.
  intros Hbatch Hone.
  unfold GroupApi.fallbackChain_spec, GroupApi.strategies.
  generalize [(afterIndex, beforeIndex); (afterIndex, None);
              (Some fallbackAnchorIndex, None); (None, None)].
  intros bounds. revert lib.
  induction bounds as [|[lo hi] rest IH]; intros lib;
    cbn [GroupApi.firstSuccess].
  - rewrite <- oneByOne_chained.
    destruct (oneByOne orderedElements None None lib) as [[keys|] lib1]
      eqn:Hrun; [|constructor].
    by destruct (oneByOne_sorted _ Hone _ _ _ _ _ Hrun) as [? _].
  - destruct (generateNKeysBetween lo hi _ lib) as [[keys|] lib1] eqn:Hgen;
      [|apply IH].
    destruct (decide _); [|apply IH]. by eapply Hbatch.
Qed.

Lemma fallbackChain_spec_length (orderedElements : list E) afterIndex
    beforeIndex fallbackAnchorIndex lib :
  (fallbackChain_spec orderedElements afterIndex beforeIndex
     fallbackAnchorIndex lib).1 = []
  ∨ length (fallbackChain_spec orderedElements afterIndex beforeIndex
              fallbackAnchorIndex lib).1 = length orderedElements.
Proof.
  unfold GroupApi.fallbackChain_spec, GroupApi.strategies.
  generalize [(afterIndex, beforeIndex); (afterIndex, None);
              (Some fallbackAnchorIndex, None); (None, None)].
  intros bounds. revert lib.
  induction bounds as [|[lo hi] rest IH]; intros lib;
    cbn [GroupApi.firstSuccess].
  - rewrite <- oneByOne_chained.
    destruct (oneByOne orderedElements None None lib) as [[keys|] lib1]
      eqn:Hrun; [|by left].
    right. by eapply oneByOne_length.
  - destruct (generateNKeysBetween lo hi _ lib) as [[keys|] lib1] eqn:Hgen;
      [|apply IH].
    destruct (decide _) as [Hlen|]; [|apply IH]. by right.
Qed.

Lemma firstSuccess_count count bounds : ∀ lib keys lib',
  firstSuccess count bounds lib = (Some keys, lib') → length keys = count.
Proof.
  induction bounds as [|[lo hi] rest IH]; intros lib keys lib' Hrun;
    cbn [GroupApi.firstSuccess] in Hrun; [done|].
  destruct (generateNKeysBetween lo hi count lib) as [[generated|] lib1];
    [|by eapply IH].
  destruct (decide (length generated = count)) as [Hlen | Hlen];
    [|by eapply IH].
  by injection Hrun as <- <-.
Qed.

(** A non-empty list gets no key only when all five attempts failed. *)
Lemma fallbackChain_spec_empty (orderedElements : list E) afterIndex
    beforeIndex fallbackAnchorIndex lib :
  orderedElements ≠ [] →
  (fallbackChain_spec orderedElements afterIndex beforeIndex
     fallbackAnchorIndex lib).1 = [] →
  ∃ lib1,
    firstSuccess (length orderedElements)
      (GroupApi.strategies afterIndex beforeIndex fallbackAnchorIndex) lib
    = (None, lib1)
    ∧ (chainedKeys_spec (length orderedElements) None None lib1).1 = None.
Proof.
  intros Hne. unfold GroupApi.fallbackChain_spec.
  assert (Hpos : length orderedElements ≠ 0)
    by (by destruct orderedElements).
  destruct (firstSuccess _ _ lib) as [[keys|] lib1] eqn:Hfirst; cbn [fst].
  - intros ->. apply firstSuccess_count in Hfirst. by cbn in Hfirst.
  - intros Hempty. exists lib1. split; [done|].
    rewrite <- oneByOne_chained in *.
    destruct (oneByOne orderedElements None None lib1) as [[keys|] lib2]
      eqn:Hrun; [|done].
    cbn [fst] in Hempty. subst keys.
    apply oneByOne_length in Hrun. by cbn in Hrun.
Qed.

End BuildUngroupIndexesFacts.



(** ** Stash and pop *)

Section StashFacts.
Import PrimitiveElementModel.
Context {V : Type}.
Implicit Types (e : Element V) (field : string) (v : V).

Lemma stash_wf e field : wf e → wf (stash field e).
Proof.
  unfold wf, stash. intros Hwf.
  destruct (decide (field ∈ declared e)); [|done].
  destruct (_stashed e !! field); [done|].
  cbn. rewrite dom_insert. set_solver.
Qed.

Lemma assign_wf e field v : wf e → wf (assign field v e).
Proof.
  unfold wf, assign. intros Hwf.
  destruct (_stashed e !! field) eqn:Hst.
  - cbn. rewrite dom_insert.
    assert (field ∈ dom (_stashed e)) by (apply elem_of_dom; eauto).
    set_solver.
  - by destruct (decide (field ∈ declared e)).
Qed.

Lemma pop_wf e field : wf e → wf (pop field e).
Proof.
  unfold wf, pop. intros Hwf.
  destruct (_stashed e !! field); [|done].
  cbn. rewrite dom_delete. set_solver.
Qed.

Lemma undeclared_not_stashed e field :
  wf e → field ∉ declared e → _stashed e !! field = None.
Proof.
  intros Hwf Hnd. apply not_elem_of_dom. set_solver.
Qed.

(** C4.  For an element whose stashed fields are all declared (which
    [stash], assignment and [pop] preserve) and a field that is not
    declared: [stash] changes nothing, the assignment that follows
    leaves the backing record and the stashed fields as they were, and
    [pop] changes nothing either.  So the field is never recorded as
    stashed, nothing is written to the backing record, and if it had no
    entry for the field it still has none.  The three operations are
    total functions: none of them raises. *)
Theorem stash_pop_undeclared_is_silent e field v :
  wf e → field ∉ declared e →
  let e1 := stash field e in
  let e2 := assign field v e1 in
  let e3 := pop field e2 in
  e1 = e
  ∧ _stashed e2 = _stashed e
  ∧ yMap e2 = yMap e
  ∧ e3 = e2
  ∧ _stashed e !! field = None
  ∧ (yMap e !! field = None → yMap e3 !! field = None).
Proof.
  intros Hwf Hnd e1 e2 e3.
  pose proof (undeclared_not_stashed e field Hwf Hnd) as Hns.
  assert (He1 : e1 = e).
  { subst e1. unfold stash. by rewrite decide_False. }
  assert (He2 : _stashed e2 = _stashed e ∧ yMap e2 = yMap e).
  { subst e2. rewrite He1. unfold assign.
    rewrite Hns, decide_False by done. done. }
  destruct He2 as [Hst2 Hy2].
  assert (He3 : e3 = e2).
  { subst e3. unfold pop. by rewrite Hst2, Hns. }
  repeat split; try done.
  intros Hy. by rewrite He3, Hy2.
Qed.
End StashFacts.

Lemma stash_pop_undeclared_is_silent_witness :
  let shape := PrimitiveElementModel.testShape in
  PrimitiveElementModel.stash "opacity" shape = shape
  ∧ PrimitiveElementModel.yMap
      (PrimitiveElementModel.pop "opacity"
         (PrimitiveElementModel.assign "opacity" "0.5"
            (PrimitiveElementModel.stash "opacity" shape)))
    !! "opacity" = None.
Proof.
  pose proof (stash_pop_undeclared_is_silent PrimitiveElementModel.testShape
                "opacity" "0.5") as H.
  cbv zeta in *.
  destruct H as (H1 & _ & _ & _ & _ & H6).
  - unfold PrimitiveElementModel.wf. cbn. set_solver.
  - cbn. set_solver.
  - split; [exact H1 | apply H6; vm_compute; reflexivity].
Defined.

(** ** The group index *)

(** The first unit test of the index cache. *)
Example syncGroupChildrenIndex_test :
  let s1 := Surface._syncGroupChildrenIndex "group-1" ["a"; "b"] (Some [])
              Surface.staleCacheState in
  let s2 := Surface._syncGroupChildrenIndex "group-1" ["b"; "c"] None s1 in
  Surface._parentGroupMap s2 !! "a" = None
  ∧ Surface._parentGroupMap s2 !! "b" = Some "group-1"
  ∧ Surface._parentGroupMap s2 !! "c" = Some "group-1".
Proof. repeat split; vm_compute; reflexivity. Qed.

Lemma unlinkChildren_cons groupId c cs (pm : gmap string string) :
  Surface.unlinkChildren groupId (c :: cs) pm
  = Surface.unlinkChildren groupId cs (Surface.unlinkChild groupId pm c).
Proof. reflexivity. Qed.

Lemma lookup_unlinkChild groupId (pm : gmap string string) c k :
  Surface.unlinkChild groupId pm c !! k
  = if decide (k = c ∧ pm !! k = Some groupId) then None else pm !! k.
Proof.
  unfold Surface.unlinkChild.
  destruct (decide (pm !! c = Some groupId)) as [Hc | Hc].
  - destruct (decide (k = c)) as [-> | Hne].
    + rewrite lookup_delete_eq, decide_True; done.
    + rewrite lookup_delete_ne by done. rewrite decide_False; [done | tauto].
  - rewrite decide_False; [done|]. intros [-> ?]. done.
Qed.

(** A parent pointer is removed exactly when the child is listed and the
    pointer equals the group. *)
Lemma lookup_unlinkChildren groupId cs : ∀ (pm : gmap string string) k,
  Surface.unlinkChildren groupId cs pm !! k
  = if decide (k ∈ cs ∧ pm !! k = Some groupId) then None else pm !! k.
Proof.
  induction cs as [|c cs IH]; intros pm k.
  - cbn. rewrite decide_False; [done|]. intros [[]%not_elem_of_nil _].
  - rewrite unlinkChildren_cons, IH, !lookup_unlinkChild.
    repeat case_decide; try done; exfalso;
      rewrite ?elem_of_cons in *; naive_solver.
Qed.

Lemma lookup_linkChildren groupId cs : ∀ (pm : gmap string string) k,
  Surface.linkChildren groupId cs pm !! k
  = if decide (k ∈ cs) then Some groupId else pm !! k.
Proof.
  induction cs as [|c cs IH]; intros pm k.
  - cbn. rewrite decide_False; [done | apply not_elem_of_nil].
  - change (Surface.linkChildren groupId (c :: cs) pm)
      with (Surface.linkChildren groupId cs (<[c := groupId]> pm)).
    rewrite IH.
    destruct (decide (k ∈ cs)) as [Hin | Hnin].
    + rewrite decide_True; [done | by right].
    + destruct (decide (k = c)) as [-> | Hne].
      * rewrite lookup_insert_eq, decide_True; [done | left].
      * rewrite lookup_insert_ne by done.
        rewrite decide_False; [done|].
        intros [-> | Hin]%elem_of_cons; tauto.
Qed.

(** Unlinking and relinking the children of a group is the identity on a
    parent map in which they all point at the group. *)
Lemma relink_id groupId cs (pm : gmap string string) :
  (∀ c, c ∈ cs → pm !! c = Some groupId) →
  Surface.linkChildren groupId cs (Surface.unlinkChildren groupId cs pm) = pm.
Proof.
  intros Hall. apply map_eq. intros k.
  rewrite lookup_linkChildren, lookup_unlinkChildren.
  destruct (decide (k ∈ cs)) as [Hin | Hnin].
  - by rewrite Hall.
  - rewrite decide_False; [done | tauto].
Qed.

(** C8.  [_syncGroupChildrenIndex] is idempotent: after a first call for
    group [groupId] with the child list [nextChildIds] (whatever previous
    list that call was given), a second call with the same group and list
    leaves the whole state, and so the parent index and the snapshot of
    the group's children as id-to-value mappings, as the first call left
    it. *)
Theorem syncGroupChildrenIndex_idempotent (groupId : string)
    (nextChildIds : list string) (previousChildIds : option (list string))
    (s : Surface.State) :
  let s1 := Surface._syncGroupChildrenIndex groupId nextChildIds
              previousChildIds s in
  let s2 := Surface._syncGroupChildrenIndex groupId nextChildIds None s1 in
  s2 = s1
  ∧ Surface._parentGroupMap s2 = Surface._parentGroupMap s1
  ∧ Surface._groupChildIdsMap s2 = Surface._groupChildIdsMap s1.
Proof.
  intros s1 s2.
  assert (Heq : s2 = s1); [|by rewrite Heq].
  subst s2 s1. destruct s as [ro bs ctors em gl pm gc].
  unfold Surface._syncGroupChildrenIndex, Surface.syncRemovePrevious,
    Surface.syncPrev, Surface.set_parentGroupMap, Surface.set_groupChildIdsMap.
  cbn [Surface.readonly Surface.blocks Surface._elementCtorMap
       Surface._elementModels Surface._groupLikeModels
       Surface._parentGroupMap Surface._groupChildIdsMap].
  rewrite lookup_insert_eq. cbn [default from_option id].
  rewrite insert_insert_eq. f_equal.
  apply relink_id. intros c Hc.
  rewrite lookup_linkChildren. by rewrite decide_True.
Qed.

(** C9.  A child whose parent pointer names another group [other] than
    [groupId] keeps that pointer through
    [_removeGroupFromChildrenIndex(groupId)] and through the
    remove-previous-children phase of [_syncGroupChildrenIndex(groupId,
    ...)], whatever list of previous children is given or looked up; the
    whole resync keeps it too unless the child is in the new child list. *)
Theorem other_group_claim_not_clobbered (groupId other childId : string)
    (nextChildIds : list string) (previousChildIds : option (list string))
    (s : Surface.State) :
  Surface._parentGroupMap s !! childId = Some other →
  other ≠ groupId →
  Surface._parentGroupMap (Surface._removeGroupFromChildrenIndex groupId s)
    !! childId = Some other
  ∧ Surface._parentGroupMap
      (Surface.syncRemovePrevious groupId previousChildIds s)
    !! childId = Some other
  ∧ (childId ∉ nextChildIds →
     Surface._parentGroupMap
       (Surface._syncGroupChildrenIndex groupId nextChildIds
          previousChildIds s)
     !! childId = Some other).
Proof.
  intros Hc Hne.
  assert (Hkeep : ∀ cs,
    Surface.unlinkChildren groupId cs (Surface._parentGroupMap s) !! childId
    = Some other).
  { intros cs. rewrite lookup_unlinkChildren, decide_False; [done|].
    intros [_ Hg]. congruence. }
  split; [|split].
  - apply Hkeep.
  - apply Hkeep.
  - intros Hnin. cbn. rewrite lookup_linkChildren, decide_False by done.
    apply Hkeep.
Qed.

Lemma other_group_claim_not_clobbered_witness :
  Surface._parentGroupMap
    (Surface._removeGroupFromChildrenIndex "group-1" Surface.sharedChildState)
    !! "b" = Some "group-2"
  ∧ Surface._parentGroupMap
      (Surface.syncRemovePrevious "group-1" None Surface.sharedChildState)
    !! "b" = Some "group-2".
Proof.
  destruct (other_group_claim_not_clobbered "group-1" "group-2" "b" [] None
              Surface.sharedChildState) as (H1 & H2 & _).
  - vm_compute. reflexivity.
  - discriminate.
  - exact (conj H1 H2).
Defined.

(** ** [getGroup] *)

(** The unit test "getGroup should recover from stale cache and update
    reverse lookup". *)
Example getGroup_test :
  let '(g0, s0) := Surface.getGroup (Surface.ById "0") Surface.staleCacheState in
  let '(g1, s1) := Surface.getGroup (Surface.ById "1") s0 in
  let '(g2, s2) := Surface.getGroup (Surface.ByModel "0") s1 in
  Surface.gid <$> g0 = Some "group-fallback"
  ∧ Surface._parentGroupMap s0 !! "0" = Some "group-fallback"
  ∧ g1 = None
  ∧ Surface._parentGroupMap s1 !! "1" = None
  ∧ Surface.gid <$> g2 = Some "group-fallback".
Proof. vm_compute. repeat split. Qed.

Lemma scanGroups_Some model gl g :
  Surface.scanGroups model gl = Some g →
  Surface.hasChild g model = true
  ∧ ∃ before key after,
      gl = before ++ (key, g) :: after
      ∧ ∀ kg, kg ∈ before → Surface.hasChild kg.2 model = false.
Proof.
  induction gl as [|[k g'] gl IH]; cbn [Surface.scanGroups]; [done|].
  destruct (Surface.hasChild g' model) eqn:Hg'.
  - intros [= <-]. split; [done|]. exists [], k, gl. split; [done|].
    intros kg []%not_elem_of_nil.
  - intros Hscan. destruct (IH Hscan) as (Hg & before & key & after & -> & Hb).
    split; [done|]. exists ((k, g') :: before), key, after. split; [done|].
    intros kg [-> | Hin]%elem_of_cons; [done | by apply Hb].
Qed.

Lemma scanGroups_None model gl :
  Surface.scanGroups model gl = None →
  ∀ kg, kg ∈ gl → Surface.hasChild kg.2 model = false.
Proof.
  induction gl as [|[k g'] gl IH]; cbn [Surface.scanGroups].
  - intros _ kg []%not_elem_of_nil.
  - destruct (Surface.hasChild g' model) eqn:Hg'; [done|].
    intros Hscan kg [-> | Hin]%elem_of_cons; [done | by apply IH].
Qed.

(** C2 (amended).  [getGroup] trusts a non-empty cached parent id that
    is the id of a known group: the group is returned without any
    containment check and the state is left alone.  A non-empty cached
    parent id that is not among the known groups is stale: the entry is
    purged and the result is that of the linear scan, which is cached when
    it finds a group and leaves the entry absent when it finds none.
    Without a usable cached parent (no entry, or the empty id, which the
    code reads as no parent even when a group is registered under it) the
    same scan runs; a group it finds is cached, and otherwise the index is
    left as it was.  The scan yields the first known group, in insertion
    order, whose [hasChild] accepts the model, and nothing when the id
    resolves to no element or block. *)
Theorem getGroup_cache_behaviour (elem : Surface.Elem) (s : Surface.State) :
  let i := Surface.elemId elem in
  let pm := Surface._parentGroupMap s in
  let found := Surface.scanResult elem s in
  (∀ p g, pm !! i = Some p → truthy p = true →
     Surface.groupLike_get p (Surface._groupLikeModels s) = Some g →
     Surface.getGroup elem s = (Some g, s))
  ∧ (∀ p, pm !! i = Some p → truthy p = true →
       Surface.groupLike_get p (Surface._groupLikeModels s) = None →
       Surface.getGroup elem s
       = (found,
          Surface.set_parentGroupMap
            match found with
            | Some g => <[i := Surface.gid g]> pm
            | None => delete i pm
            end s))
  ∧ ((∀ p, pm !! i = Some p → truthy p = false) →
       Surface.getGroup elem s
       = (found,
          Surface.set_parentGroupMap
            match found with
            | Some g => <[i := Surface.gid g]> pm
            | None => pm
            end s))
  ∧ (∀ g, found = Some g →
       Surface.hasChild g i = true
       ∧ ∃ before key after,
           Surface._groupLikeModels s = before ++ (key, g) :: after
           ∧ ∀ kg, kg ∈ before → Surface.hasChild kg.2 i = false)
  ∧ (found = None →
       Surface.resolveModel elem s = None
       ∨ ∀ kg, kg ∈ Surface._groupLikeModels s →
           Surface.hasChild kg.2 i = false).
Proof.
  intros i pm found. subst i pm found.
  assert (Hres : ∀ m, Surface.resolveModel elem s = Some m →
                      m = Surface.elemId elem).
  { intros m. destruct elem as [i | i]; cbn.
    - unfold Surface.getElementById.
      destruct (Surface._elementModels s !! i); [congruence|].
      destruct (Surface.blocks s !! i); congruence.
    - congruence. }
  assert (Hmiss : Surface.getGroup_scan elem s
    = (Surface.scanResult elem s,
       Surface.set_parentGroupMap
         match Surface.scanResult elem s with
         | Some g => <[Surface.elemId elem := Surface.gid g]>
                       (Surface._parentGroupMap s)
         | None => Surface._parentGroupMap s
         end s)).
  { unfold Surface.getGroup_scan, Surface.scanResult.
    destruct (Surface.resolveModel elem s) as [m|]; [|by destruct s].
    destruct (Surface.scanGroups m _); [done | by destruct s]. }
  split; [|split; [|split; [|split]]].
  - intros p g Hp Ht Hg. unfold Surface.getGroup. by rewrite Hp, Ht, Hg.
  - intros p Hp Ht Hg. unfold Surface.getGroup. rewrite Hp, Ht, Hg.
    unfold Surface.getGroup_scan, Surface.scanResult.
    replace (Surface.resolveModel elem (Surface.set_parentGroupMap _ s))
      with (Surface.resolveModel elem s) by (by destruct elem).
    destruct (Surface.resolveModel elem s) as [m|]; [|done].
    cbn. destruct (Surface.scanGroups m _); [|done].
    by rewrite insert_delete_eq.
  - intros Hfalsy. unfold Surface.getGroup.
    destruct (Surface._parentGroupMap s !! Surface.elemId elem) as [p|] eqn:Hp;
      [|exact Hmiss].
    rewrite (Hfalsy p eq_refl). exact Hmiss.
  - intros g. unfold Surface.scanResult.
    destruct (Surface.resolveModel elem s) as [m|] eqn:Hm; [|done].
    rewrite <- (Hres m eq_refl). apply scanGroups_Some.
  - unfold Surface.scanResult.
    destruct (Surface.resolveModel elem s) as [m|] eqn:Hm; [|by left].
    intros Hscan. right. rewrite <- (Hres m eq_refl).
    by apply scanGroups_None.
Qed.

Lemma getGroup_cache_behaviour_witness :
  Surface.gid <$> (Surface.getGroup (Surface.ById "1")
                     Surface.staleCacheState).1 = None
  ∧ Surface._parentGroupMap
      (Surface.getGroup (Surface.ById "1") Surface.staleCacheState).2
    !! "1" = None.
Proof.
  destruct (getGroup_cache_behaviour (Surface.ById "1")
              Surface.staleCacheState) as (_ & Hstale & _).
  cbv zeta in Hstale.
  rewrite (Hstale "another-missing-group");
    [split | ..]; vm_compute; reflexivity.
Defined.

(** C2 (the claim as stated fails).  The cached parent [group-empty] is a
    known group that does not contain element [0], while the scan would
    find [group-fallback]; [getGroup] still returns [group-empty] and
    leaves the cache entry in place. *)
Lemma getGroup_trusts_known_cached_parent :
  Surface._parentGroupMap Surface.outdatedCacheState !! "0"
    = Some "group-empty"
  ∧ Surface.hasChild Surface.emptyGroup "0" = false
  ∧ Surface.gid <$> Surface.scanResult (Surface.ById "0")
                      Surface.outdatedCacheState = Some "group-fallback"
  ∧ Surface.gid <$> (Surface.getGroup (Surface.ById "0")
                       Surface.outdatedCacheState).1 = Some "group-empty"
  ∧ Surface._parentGroupMap
      (Surface.getGroup (Surface.ById "0") Surface.outdatedCacheState).2
    !! "0" = Some "group-empty".
Proof. repeat split; vm_compute; reflexivity. Qed.

(** ** [deleteElement] and [updateElement] *)

(** Deleting a group: the closure is collected in post-order, the
    block-backed child is queued apart, and the indices are cleaned. *)
Example collectElementsToDelete_test :
  Surface._collectElementsToDelete 4 Surface.groupWithChildren "g"
    Surface.emptyCollected
  = Some {| Surface.deleteElementIds := {[ "g"; "s" ]};
            Surface.orderedDeleteIds := ["s"; "g"];
            Surface.deleteBlockIds := ["blk"] |}.
Proof. vm_compute. reflexivity. Qed.

Example deleteElement_group_test :
  match Surface.deleteElement (λ _ _ s, s) "g" Surface.groupWithChildren with
  | Some (Surface.Return _, s') =>
      dom (Surface._elementModels s') = {[ "t" ]}
      ∧ Surface.blocks s' = ∅
      ∧ Surface._groupLikeModels s' = []
      ∧ Surface._parentGroupMap s' = ∅
      ∧ Surface._groupChildIdsMap s' = ∅
  | _ => False
  end.
Proof. vm_compute. repeat split. Qed.

(** The deletion closure is always collected: the fuel
    [S (size _elementModels)] is never used up. *)
Lemma collect_forEachM_enough n (s : Surface.State) :
  (∀ i c,
     size (dom (Surface._elementModels s) ∖ Surface.deleteElementIds c) < n →
     ∃ c', Surface._collectElementsToDelete n s i c = Some c'
           ∧ Surface.deleteElementIds c ⊆ Surface.deleteElementIds c') →
  ∀ children c,
    size (dom (Surface._elementModels s) ∖ Surface.deleteElementIds c) < n →
    ∃ c',
      forEachM
        (λ childId c,
           if Surface.hasElementById childId s
           then Surface._collectElementsToDelete n s childId c
           else if decide (is_Some (Surface.blocks s !! childId))
                then Some (Surface.addBlockId childId c)
                else Some c)
        children c = Some c'
      ∧ Surface.deleteElementIds c ⊆ Surface.deleteElementIds c'.
Proof.
  intros IH. induction children as [|child cs IHcs]; intros c Hlt.
  - exists c. done.
  - cbn [forEachM].
    assert (Hstep : ∃ c1,
      (if Surface.hasElementById child s
       then Surface._collectElementsToDelete n s child c
       else if decide (is_Some (Surface.blocks s !! child))
            then Some (Surface.addBlockId child c)
            else Some c) = Some c1
      ∧ Surface.deleteElementIds c ⊆ Surface.deleteElementIds c1).
    { destruct (Surface.hasElementById child s); [by apply IH|].
      destruct (decide _); eexists; split; done. }
    destruct Hstep as (c1 & -> & Hsub1).
    destruct (IHcs c1) as (c2 & -> & Hsub2).
    + eapply Nat.le_lt_trans; [|exact Hlt]. apply subseteq_size. set_solver.
    + exists c2. split; [done | set_solver].
Qed.

Lemma collectElementsToDelete_enough fuel (s : Surface.State) : ∀ i c,
  size (dom (Surface._elementModels s) ∖ Surface.deleteElementIds c) < fuel →
  ∃ c', Surface._collectElementsToDelete fuel s i c = Some c'
        ∧ Surface.deleteElementIds c ⊆ Surface.deleteElementIds c'.
Proof.
  induction fuel as [|n IH]; intros i c Hlt; [lia|].
  cbn [Surface._collectElementsToDelete].
  destruct (decide (i ∈ Surface.deleteElementIds c)); [by exists c|].
  destruct (Surface.getElementById i s) as [element|] eqn:Hel; [|by exists c].
  set (c0 := {| Surface.deleteElementIds := {[i]} ∪ Surface.deleteElementIds c;
                Surface.orderedDeleteIds := Surface.orderedDeleteIds c;
                Surface.deleteBlockIds := Surface.deleteBlockIds c |}).
  assert (Hlt0 : size (dom (Surface._elementModels s)
                       ∖ Surface.deleteElementIds c0) < n).
  { assert (i ∈ dom (Surface._elementModels s))
      by (apply elem_of_dom; unfold Surface.getElementById in Hel; eauto).
    assert (size (dom (Surface._elementModels s)
                  ∖ Surface.deleteElementIds c0)
            < size (dom (Surface._elementModels s)
                    ∖ Surface.deleteElementIds c)); [|lia].
    apply subset_size. subst c0. cbn. set_solver. }
  destruct (Surface.childIds element) as [children|].
  - destruct (collect_forEachM_enough n s IH children c0 Hlt0)
      as (c1 & -> & Hsub).
    eexists. split; [done|]. subst c0. cbn in *. set_solver.
  - eexists. split; [done|]. subst c0. cbn. set_solver.
Qed.

Section MutationFacts.
Context {V : Type}.
Variable removeChild :
  Surface.GroupModel → string → Surface.State → Surface.State.
Variable propsToY : string → list (string * V) → list (string * V).
Variable setProperty :
  Surface.ElementModel → string → V → Surface.State → Surface.State.

(** C6.  While the store is writable, for an id with no live element
    [updateElement] throws the error "Element <id> is not found" and
    [deleteElement] returns normally; both leave the state unchanged. *)
Theorem update_missing_throws_delete_missing_returns (i : string)
    (props : list (string * V)) (s : Surface.State) :
  Surface.readonly s = false →
  Surface.getElementById i s = None →
  Surface.updateElement propsToY setProperty i props s
  = (Surface.Throw (Surface.Error ("Element " +:+ i +:+ " is not found")), s)
  ∧ Surface.deleteElement removeChild i s = Some (Surface.Return (), s).
Proof.
  intros Hrw Hmissing. split.
  - unfold Surface.updateElement. by rewrite Hrw, Hmissing.
  - unfold Surface.deleteElement. cbn [Surface.deleteElement_fuel].
    unfold Surface.hasElementById.
    rewrite Hrw. unfold Surface.getElementById in Hmissing.
    rewrite Hmissing. rewrite bool_decide_false; [done|].
    by intros [? ?].
Qed.

(** C10.  [deleteElement] tests the read-only flag first: while the
    store is read-only it throws "Cannot remove element in readonly
    mode" for every id, live or not, and leaves the state unchanged; in
    particular it does not return normally for a missing id. *)
Theorem delete_readonly_throws_first (i : string) (s : Surface.State) :
  Surface.readonly s = true →
  Surface.deleteElement removeChild i s
  = Some (Surface.Throw
            (Surface.Error "Cannot remove element in readonly mode"), s)
  ∧ Surface.deleteElement removeChild i s ≠ Some (Surface.Return (), s).
Proof.
  intros Hro. unfold Surface.deleteElement. cbn [Surface.deleteElement_fuel].
  rewrite Hro. done.
Qed.
End MutationFacts.

Lemma update_missing_throws_delete_missing_returns_witness :
  Surface.updateElement (λ _ props, props) (λ _ _ _ s, s) "missing"
    [("xywh", "[0,0,10,10]")] Surface.staleCacheState
  = (Surface.Throw (Surface.Error "Element missing is not found"),
     Surface.staleCacheState)
  ∧ Surface.deleteElement (λ _ _ s, s) "missing" Surface.staleCacheState
    = Some (Surface.Return (), Surface.staleCacheState).
Proof.
  apply (update_missing_throws_delete_missing_returns
           (λ _ _ s, s) (λ _ props, props) (λ _ _ _ s, s) "missing"
           [("xywh", "[0,0,10,10]")] Surface.staleCacheState);
    vm_compute; reflexivity.
Defined.

Lemma delete_readonly_throws_first_witness :
  Surface.deleteElement (λ _ _ s, s) "missing"
    (Surface.readonlyState Surface.staleCacheState)
  = Some (Surface.Throw
            (Surface.Error "Cannot remove element in readonly mode"),
          Surface.readonlyState Surface.staleCacheState)
  ∧ Surface.deleteElement (λ _ _ s, s) "0"
      (Surface.readonlyState Surface.staleCacheState)
    = Some (Surface.Throw
              (Surface.Error "Cannot remove element in readonly mode"),
            Surface.readonlyState Surface.staleCacheState).
Proof.
  split.
  - apply (delete_readonly_throws_first (λ _ _ s, s) "missing"
             (Surface.readonlyState Surface.staleCacheState)).
    reflexivity.
  - apply (delete_readonly_throws_first (λ _ _ s, s) "0"
             (Surface.readonlyState Surface.staleCacheState)).
    reflexivity.
Defined.

(** ** The connector endpoint index *)

Example staleIndexState_index :
  AffineSurface.indexOf AffineSurface.staleIndexState "a" = ["c0"; "c1"]
  ∧ AffineSurface.indexOf AffineSurface.staleIndexState "b" = ["c0"; "c1"]
  ∧ AffineSurface.isLiveConnector AffineSurface.staleIndexState "c0" = false
  ∧ AffineSurface.isLiveConnector AffineSurface.staleIndexState "c1" = true.
Proof. repeat split; vm_compute; reflexivity. Qed.

Section ConnectorIndexFacts.
Implicit Types (s : AffineSurface.State) (e c : string).

Lemma setDelete_not_in c (l : list string) :
  c ∉ l → AffineSurface.setDelete c l = l.
Proof.
  intros Hnin. unfold AffineSurface.setDelete.
  induction l as [|x l IH]; [done|].
  rewrite filter_cons. rewrite decide_True by set_solver.
  f_equal. apply IH. set_solver.
Qed.

Lemma setDelete_idemp c (l : list string) :
  AffineSurface.setDelete c (AffineSurface.setDelete c l)
  = AffineSurface.setDelete c l.
Proof.
  apply setDelete_not_in. unfold AffineSurface.setDelete.
  rewrite list_elem_of_filter. tauto.
Qed.

Lemma elem_of_setDelete c x (l : list string) :
  x ∈ AffineSurface.setDelete c l ↔ x ≠ c ∧ x ∈ l.
Proof. unfold AffineSurface.setDelete. by rewrite list_elem_of_filter. Qed.

Lemma elem_of_setAdd c x (l : list string) :
  x ∈ AffineSurface.setAdd c l ↔ x = c ∨ x ∈ l.
Proof.
  unfold AffineSurface.setAdd. destruct (decide (c ∈ l)).
  - split; [by right | by intros [-> | ?]].
  - rewrite elem_of_app, list_elem_of_singleton. tauto.
Qed.

Lemma indexOf_removeConnectorEndpoint s e c e' :
  AffineSurface.indexOf (AffineSurface._removeConnectorEndpoint e c s) e'
  = if decide (e' = e)
    then AffineSurface.setDelete c (AffineSurface.indexOf s e')
    else AffineSurface.indexOf s e'.
Proof.
  unfold AffineSurface._removeConnectorEndpoint, AffineSurface.indexOf.
  destruct (decide (e' = e)) as [-> | Hne].
  - destruct (AffineSurface._connectorIdsByEndpoint s !! e) as [ids|] eqn:He;
      [|by rewrite He].
    cbn [default from_option id].
    destruct (AffineSurface.setDelete c ids) as [|x rest]; cbn.
    + by rewrite lookup_delete_eq.
    + by rewrite lookup_insert_eq.
  - destruct (AffineSurface._connectorIdsByEndpoint s !! e) as [ids|];
      [|done].
    destruct (AffineSurface.setDelete c ids) as [|x rest]; cbn.
    + by rewrite lookup_delete_ne.
    + by rewrite lookup_insert_ne.
Qed.

Lemma indexOf_addConnectorEndpoint s e c e' :
  AffineSurface.indexOf (AffineSurface._addConnectorEndpoint e c s) e'
  = if decide (e' = e)
    then AffineSurface.setAdd c (AffineSurface.indexOf s e')
    else AffineSurface.indexOf s e'.
Proof.
  unfold AffineSurface._addConnectorEndpoint, AffineSurface.indexOf.
  destruct (decide (e' = e)) as [-> | Hne].
  - destruct (AffineSurface._connectorIdsByEndpoint s !! e) as [ids|] eqn:He;
      cbn; by rewrite lookup_insert_eq.
  - destruct (AffineSurface._connectorIdsByEndpoint s !! e) as [ids|];
      cbn; by rewrite lookup_insert_ne.
Qed.

Lemma indexOf_removeIfSet s (endpoint : option string) c e' :
  AffineSurface.indexOf (AffineSurface.removeIfSet endpoint c s) e'
  = if decide (endpoint = Some e' ∧ truthy e' = true)
    then AffineSurface.setDelete c (AffineSurface.indexOf s e')
    else AffineSurface.indexOf s e'.
Proof.
  unfold AffineSurface.removeIfSet.
  destruct endpoint as [e|]; [|by rewrite decide_False by (by intros [? ?])].
  destruct (truthy e) eqn:Ht.
  - rewrite indexOf_removeConnectorEndpoint.
    destruct (decide (e' = e)) as [-> | Hne].
    + by rewrite decide_True.
    + rewrite decide_False; [done|]. intros [[= ->] _]. done.
  - rewrite decide_False; [done|]. intros [[= ->] ?]. congruence.
Qed.

Lemma indexOf_addIfSet s (endpoint : option string) c e' :
  AffineSurface.indexOf (AffineSurface.addIfSet endpoint c s) e'
  = if decide (endpoint = Some e' ∧ truthy e' = true)
    then AffineSurface.setAdd c (AffineSurface.indexOf s e')
    else AffineSurface.indexOf s e'.
Proof.
  unfold AffineSurface.addIfSet.
  destruct endpoint as [e|]; [|by rewrite decide_False by (by intros [? ?])].
  destruct (truthy e) eqn:Ht.
  - rewrite indexOf_addConnectorEndpoint.
    destruct (decide (e' = e)) as [-> | Hne].
    + by rewrite decide_True.
    + rewrite decide_False; [done|]. intros [[= ->] _]. done.
  - rewrite decide_False; [done|]. intros [[= ->] ?]. congruence.
Qed.

Lemma isLiveConnector_liveModel s c :
  AffineSurface.isLiveConnector s c = true
  ↔ is_Some (AffineSurface.liveModel s c).
Proof.
  unfold AffineSurface.isLiveConnector, AffineSurface.liveModel.
  destruct (Surface.getElementById c (AffineSurface.base s)) as [m|];
    [destruct (AffineSurface._isConnectorModel (Some m))|];
    cbn; split; intros H; try done; try (by eexists); by destruct H.
Qed.

Lemma classifyConnector_foldl s (ids : list string) :
  ∀ stale (connectors : list Surface.ElementModel),
    foldl (AffineSurface.classifyConnector s) (stale, connectors) ids
    = (stale ++ filter (λ c, AffineSurface.isLiveConnector s c = false) ids,
       connectors ++ omap (AffineSurface.liveModel s) ids).
Proof.
  induction ids as [|c ids IH]; intros stale connectors.
  - cbn. by rewrite !app_nil_r.
  - cbn [foldl].
    assert (Homap : omap (AffineSurface.liveModel s) (c :: ids)
              = match AffineSurface.liveModel s c with
                | Some model => model :: omap (AffineSurface.liveModel s) ids
                | None => omap (AffineSurface.liveModel s) ids
                end) by reflexivity.
    rewrite Homap, filter_cons. clear Homap.
    unfold AffineSurface.classifyConnector at 2.
    destruct (Surface.getElementById c (AffineSurface.base s)) as [m|] eqn:Hm;
      [destruct (AffineSurface._isConnectorModel (Some m)) eqn:Hc|].
    + assert (AffineSurface.isLiveConnector s c = true) as ->
        by (unfold AffineSurface.isLiveConnector; by rewrite Hm).
      assert (AffineSurface.liveModel s c = Some m) as ->
        by (unfold AffineSurface.liveModel; by rewrite Hm, Hc).
      rewrite IH, decide_False by done. by rewrite <- app_assoc.
    + assert (AffineSurface.isLiveConnector s c = false) as ->
        by (unfold AffineSurface.isLiveConnector; by rewrite Hm).
      assert (AffineSurface.liveModel s c = None) as ->
        by (unfold AffineSurface.liveModel; by rewrite Hm, Hc).
      rewrite IH, decide_True by done. by rewrite <- app_assoc.
    + assert (AffineSurface.isLiveConnector s c = false) as ->
        by (unfold AffineSurface.isLiveConnector; by rewrite Hm).
      assert (AffineSurface.liveModel s c = None) as ->
        by (unfold AffineSurface.liveModel; by rewrite Hm).
      rewrite IH, decide_True by done. by rewrite <- app_assoc.
Qed.

Lemma endpoints_removeIfSet s endpoint c :
  AffineSurface._connectorEndpoints (AffineSurface.removeIfSet endpoint c s)
  = AffineSurface._connectorEndpoints s
  ∧ AffineSurface.base (AffineSurface.removeIfSet endpoint c s)
    = AffineSurface.base s.
Proof.
  unfold AffineSurface.removeIfSet, AffineSurface._removeConnectorEndpoint.
  destruct endpoint as [e|]; [|done]. destruct (truthy e); [|done].
  destruct (AffineSurface._connectorIdsByEndpoint s !! e); [|done].
  by destruct (AffineSurface.setDelete c _).
Qed.

Lemma endpoints_addIfSet s endpoint c :
  AffineSurface._connectorEndpoints (AffineSurface.addIfSet endpoint c s)
  = AffineSurface._connectorEndpoints s
  ∧ AffineSurface.base (AffineSurface.addIfSet endpoint c s)
    = AffineSurface.base s.
Proof.
  unfold AffineSurface.addIfSet, AffineSurface._addConnectorEndpoint.
  destruct endpoint as [e|]; [|done]. destruct (truthy e); [|done].
  by destruct (AffineSurface._connectorIdsByEndpoint s !! e).
Qed.
End ConnectorIndexFacts.

Section SelfHealing.
Implicit Types (s : AffineSurface.State) (e c : string).

(** On a backed index, removing a connector deletes its id from every
    endpoint's set. *)
Lemma removeConnectorFromIndex_backed s c :
  AffineSurface.indexBacked s →
  (∀ e, AffineSurface.indexOf (AffineSurface._removeConnectorFromIndex c s) e
        = AffineSurface.setDelete c (AffineSurface.indexOf s e))
  ∧ (∀ c', c' ≠ c →
       AffineSurface._connectorEndpoints
         (AffineSurface._removeConnectorFromIndex c s) !! c'
       = AffineSurface._connectorEndpoints s !! c')
  ∧ AffineSurface._connectorEndpoints
      (AffineSurface._removeConnectorFromIndex c s) !! c = None
  ∧ AffineSurface.base (AffineSurface._removeConnectorFromIndex c s)
    = AffineSurface.base s.
Proof.
  intros Hbacked. unfold AffineSurface._removeConnectorFromIndex.
  destruct (AffineSurface._connectorEndpoints s !! c) as [ep|] eqn:Hep.
  - split; [|split; [|split]].
    + intros e.
      change (AffineSurface.indexOf (AffineSurface.set_endpoints ?m ?x) e)
        with (AffineSurface.indexOf x e).
      rewrite !indexOf_removeIfSet.
      destruct (decide (AffineSurface.targetId ep = Some e ∧ truthy e = true))
        as [Ht | Ht];
      destruct (decide (AffineSurface.sourceId ep = Some e ∧ truthy e = true))
        as [Hs | Hs]; try done.
      * apply setDelete_idemp.
      * symmetry. apply setDelete_not_in. intros Hin.
        destruct (Hbacked e c Hin) as (Htr & ep' & Hep' & Hor).
        rewrite Hep in Hep'. injection Hep' as <-. tauto.
    + intros c' Hne. cbn.
      destruct (endpoints_removeIfSet
                  (AffineSurface.removeIfSet (AffineSurface.sourceId ep) c s)
                  (AffineSurface.targetId ep) c) as [-> _].
      destruct (endpoints_removeIfSet s (AffineSurface.sourceId ep) c)
        as [-> _].
      by rewrite lookup_delete_ne.
    + cbn. by rewrite lookup_delete_eq.
    + cbn.
      destruct (endpoints_removeIfSet
                  (AffineSurface.removeIfSet (AffineSurface.sourceId ep) c s)
                  (AffineSurface.targetId ep) c) as [_ ->].
      by destruct (endpoints_removeIfSet s (AffineSurface.sourceId ep) c)
        as [_ ->].
  - split; [|done]. intros e. symmetry. apply setDelete_not_in. intros Hin.
    destruct (Hbacked e c Hin) as (_ & ep' & Hep' & _). congruence.
Qed.

Lemma removeConnectorFromIndex_keeps_backed s c :
  AffineSurface.indexBacked s →
  AffineSurface.indexBacked (AffineSurface._removeConnectorFromIndex c s).
Proof.
  intros Hbacked.
  destruct (removeConnectorFromIndex_backed s c Hbacked)
    as (Hidx & Hother & _ & _).
  intros e c' Hin. rewrite Hidx in Hin.
  apply elem_of_setDelete in Hin as [Hne Hin].
  destruct (Hbacked e c' Hin) as (Htr & ep & Hep & Hor).
  split; [done|]. exists ep. by rewrite Hother.
Qed.

Lemma endpoints_removeConnectorFromIndex s c c' :
  AffineSurface._connectorEndpoints
    (AffineSurface._removeConnectorFromIndex c s) !! c'
  = if decide (c' = c) then None
    else AffineSurface._connectorEndpoints s !! c'.
Proof.
  unfold AffineSurface._removeConnectorFromIndex.
  destruct (AffineSurface._connectorEndpoints s !! c) as [ep|] eqn:Hep.
  - cbn.
    destruct (endpoints_removeIfSet
                (AffineSurface.removeIfSet (AffineSurface.sourceId ep) c s)
                (AffineSurface.targetId ep) c) as [-> _].
    destruct (endpoints_removeIfSet s (AffineSurface.sourceId ep) c)
      as [-> _].
    destruct (decide (c' = c)) as [-> | Hne].
    + by rewrite lookup_delete_eq.
    + by rewrite lookup_delete_ne.
  - destruct (decide (c' = c)) as [-> | Hne]; done.
Qed.

Lemma endpoints_remove_foldl (stale : list string) : ∀ s c,
  c ∈ stale ∨ AffineSurface._connectorEndpoints s !! c = None →
  AffineSurface._connectorEndpoints
    (foldl (λ s c, AffineSurface._removeConnectorFromIndex c s) s stale)
  !! c = None.
Proof.
  induction stale as [|d stale IH]; intros s c Hc; cbn [foldl].
  - destruct Hc as [[]%not_elem_of_nil | Hc]. done.
  - apply IH. rewrite endpoints_removeConnectorFromIndex.
    destruct (decide (c = d)) as [-> | Hne]; [by right|].
    destruct Hc as [[-> | Hin]%elem_of_cons | Hc]; [done | by left | by right].
Qed.

Lemma remove_stale_foldl (stale : list string) : ∀ s,
  AffineSurface.indexBacked s →
  let s' := foldl (λ s c, AffineSurface._removeConnectorFromIndex c s)
              s stale in
  AffineSurface.indexBacked s'
  ∧ (∀ e, AffineSurface.indexOf s' e
          = filter (λ x, x ∉ stale) (AffineSurface.indexOf s e))
  ∧ AffineSurface.base s' = AffineSurface.base s.
Proof.
  induction stale as [|c stale IH]; intros s Hbacked; cbn [foldl].
  - split; [done|]. split; [|done].
    intros e. symmetry.
    induction (AffineSurface.indexOf s e) as [|x l IHl]; [done|].
    rewrite filter_cons_True by apply not_elem_of_nil. by f_equal.
  - destruct (removeConnectorFromIndex_backed s c Hbacked)
      as (Hidx & _ & _ & Hbase).
    destruct (IH _ (removeConnectorFromIndex_keeps_backed s c Hbacked))
      as (Hb' & Hidx' & Hbase').
    split; [done|]. split.
    + intros e. rewrite Hidx', Hidx. unfold AffineSurface.setDelete.
      rewrite list_filter_filter. apply list_filter_iff.
      intros x. rewrite not_elem_of_cons. tauto.
    + by rewrite Hbase'.
Qed.
End SelfHealing.

Lemma filter_ext_elem {A : Type} (P Q : A → Prop)
    `{!∀ x, Decision (P x)} `{!∀ x, Decision (Q x)} (l : list A) :
  (∀ x, x ∈ l → P x ↔ Q x) → filter P l = filter Q l.
Proof.
  induction l as [|x l IH]; intros Hext; [done|].
  rewrite !filter_cons.
  rewrite IH by (intros y Hy; apply Hext; by right).
  destruct (decide (P x)) as [HP | HP], (decide (Q x)) as [HQ | HQ];
    try done; exfalso; specialize (Hext x ltac:(left)); tauto.
Qed.

(** [getConnectors] as one expression over the indexed ids. *)
Lemma getConnectors_unfold (i : string) (s : AffineSurface.State) :
  AffineSurface.getConnectors i s
  = (omap (AffineSurface.liveModel s) (AffineSurface.indexOf s i),
     foldl (λ s c, AffineSurface._removeConnectorFromIndex c s) s
       (filter (λ c, AffineSurface.isLiveConnector s c = false)
          (AffineSurface.indexOf s i))).
Proof.
  unfold AffineSurface.getConnectors, AffineSurface.indexOf.
  destruct (AffineSurface._connectorIdsByEndpoint s !! i) as [[|c ids]|];
    try done.
  cbn [default from_option id]. by rewrite classifyConnector_foldl.
Qed.

(** The writers of the index keep it backed. *)
Lemma clearConnectorIndex_backed (s : AffineSurface.State) :
  AffineSurface.indexBacked (AffineSurface.clearConnectorIndex s).
Proof.
  intros e c Hin. unfold AffineSurface.indexOf in Hin. cbn in Hin.
  rewrite lookup_empty in Hin. by apply not_elem_of_nil in Hin.
Qed.

Lemma setConnectorEndpoints_keeps_backed
    (connector : AffineSurface.ConnectorElementModel)
    (s : AffineSurface.State) :
  AffineSurface.indexBacked s →
  AffineSurface.indexBacked (AffineSurface._setConnectorEndpoints connector s).
Proof.
  intros Hbacked. unfold AffineSurface._setConnectorEndpoints.
  destruct (match AffineSurface._connectorEndpoints s
                    !! AffineSurface.cid connector with
            | Some p => _
            | None => false
            end); [done|].
  set (c := AffineSurface.cid connector).
  set (s1 := match AffineSurface._connectorEndpoints s !! c with
             | Some p => AffineSurface.removeIfSet (AffineSurface.sourceId p) c s
             | None => s
             end).
  set (s2 := match AffineSurface._connectorEndpoints s !! c with
             | Some p => AffineSurface.removeIfSet (AffineSurface.targetId p) c s1
             | None => s1
             end).
  assert (Heps : AffineSurface._connectorEndpoints s2
                 = AffineSurface._connectorEndpoints s).
  { subst s2 s1. destruct (AffineSurface._connectorEndpoints s !! c); [|done].
    destruct (endpoints_removeIfSet
                (AffineSurface.removeIfSet (AffineSurface.sourceId e) c s)
                (AffineSurface.targetId e) c) as [-> _].
    by destruct (endpoints_removeIfSet s (AffineSurface.sourceId e) c)
      as [-> _]. }
  assert (Hs2 : ∀ e c', c' ∈ AffineSurface.indexOf s2 e →
                        c' ≠ c ∧ c' ∈ AffineSurface.indexOf s e).
  { intros e c' Hin. subst s2 s1.
    destruct (AffineSurface._connectorEndpoints s !! c) as [p|] eqn:Hp.
    - rewrite !indexOf_removeIfSet in Hin.
      assert (Hin0 : c' ∈ AffineSurface.indexOf s e).
      { repeat case_decide; rewrite ?elem_of_setDelete in Hin; tauto. }
      split; [|done]. intros ->.
      destruct (Hbacked e c Hin0) as (Htr & ep & Hep & Hor).
      rewrite Hp in Hep. injection Hep as <-.
      repeat case_decide; rewrite ?elem_of_setDelete in Hin; tauto.
    - split; [|done]. intros ->.
      destruct (Hbacked e c Hin) as (_ & ep & Hep & _). congruence. }
  intros e c' Hin.
  change (AffineSurface.indexOf (AffineSurface.set_endpoints ?m ?x) e)
    with (AffineSurface.indexOf x e) in Hin.
  rewrite !indexOf_addIfSet in Hin.
  cbn [AffineSurface._connectorEndpoints AffineSurface.set_endpoints].
  destruct (endpoints_addIfSet
              (AffineSurface.addIfSet (AffineSurface.source connector) c s2)
              (AffineSurface.target connector) c) as [-> _].
  destruct (endpoints_addIfSet s2 (AffineSurface.source connector) c)
    as [-> _].
  rewrite Heps.
  assert (Hcases :
    (c' = c ∧ truthy e = true
     ∧ (AffineSurface.source connector = Some e
        ∨ AffineSurface.target connector = Some e))
    ∨ c' ∈ AffineSurface.indexOf s2 e).
  { repeat case_decide; rewrite ?elem_of_setAdd in Hin; tauto. }
  destruct Hcases as [(-> & Htr & Hor) | Hin2].
  - split; [done|]. eexists. rewrite lookup_insert_eq. split; [done|]. exact Hor.
  - destruct (Hs2 e c' Hin2) as [Hne Hin0].
    destruct (Hbacked e c' Hin0) as (Htr & ep & Hep & Hor).
    split; [done|]. exists ep. by rewrite lookup_insert_ne.
Qed.

(** C7.  On an index whose entries are backed by the cached endpoint pairs
    (as [clear], [_setConnectorEndpoints] and [_removeConnectorFromIndex]
    leave it), [getConnectors(id)] is a total function that returns, in
    index order, the models of exactly the indexed ids that resolve to a
    live element of type [connector]; after the read the ids indexed
    under [id] are the live ones only, every stale id has left the whole
    index together with its cached pair, the element models are
    untouched and the index is still backed. *)
Theorem getConnectors_self_healing (i : string) (s : AffineSurface.State) :
  AffineSurface.indexBacked s →
  let connectors := (AffineSurface.getConnectors i s).1 in
  let s' := (AffineSurface.getConnectors i s).2 in
  connectors = omap (AffineSurface.liveModel s) (AffineSurface.indexOf s i)
  ∧ (∀ m, m ∈ connectors ↔
       ∃ c, c ∈ AffineSurface.indexOf s i
            ∧ Surface.getElementById c (AffineSurface.base s) = Some m
            ∧ Surface.type m = "connector")
  ∧ AffineSurface.indexOf s' i
    = filter (λ c, AffineSurface.isLiveConnector s c = true)
        (AffineSurface.indexOf s i)
  ∧ (∀ c, c ∈ AffineSurface.indexOf s i →
       AffineSurface.isLiveConnector s c = false →
       (∀ e, c ∉ AffineSurface.indexOf s' e)
       ∧ AffineSurface._connectorEndpoints s' !! c = None)
  ∧ AffineSurface.base s' = AffineSurface.base s
  ∧ AffineSurface.indexBacked s'.
Proof.
  intros Hbacked connectors s'. subst connectors s'.
  rewrite getConnectors_unfold. cbn [fst snd].
  set (stale := filter (λ c, AffineSurface.isLiveConnector s c = false)
                  (AffineSurface.indexOf s i)).
  destruct (remove_stale_foldl stale s Hbacked) as (Hb' & Hidx & Hbase).
  split; [done|]. split; [|split; [|split; [|split]]]; try done.
  - intros m. rewrite list_elem_of_omap. split.
    + intros (c & Hin & Hlive). exists c. split; [done|].
      unfold AffineSurface.liveModel in Hlive.
      destruct (Surface.getElementById c (AffineSurface.base s)) as [m'|];
        [|done].
      destruct (AffineSurface._isConnectorModel (Some m')) eqn:Hc; [|done].
      injection Hlive as <-. split; [done|].
      cbn in Hc. by apply bool_decide_eq_true in Hc.
    + intros (c & Hin & Hm & Hty). exists c. split; [done|].
      unfold AffineSurface.liveModel. rewrite Hm. cbn.
      by rewrite bool_decide_true.
  - rewrite Hidx. apply filter_ext_elem. intros x Hx. subst stale.
    rewrite list_elem_of_filter.
    destruct (AffineSurface.isLiveConnector s x); naive_solver.
  - intros c Hin Hstale.
    assert (Hc : c ∈ stale) by (subst stale; by apply list_elem_of_filter).
    split.
    + intros e. rewrite Hidx, list_elem_of_filter. tauto.
    + apply endpoints_remove_foldl. by left.
Qed.

Lemma getConnectors_self_healing_witness :
  Surface.id <$> (AffineSurface.getConnectors "a"
                    AffineSurface.staleIndexState).1 = ["c1"]
  ∧ AffineSurface.indexOf
      (AffineSurface.getConnectors "a" AffineSurface.staleIndexState).2 "a"
    = ["c1"].
Proof.
  assert (Hbacked : AffineSurface.indexBacked AffineSurface.staleIndexState).
  { repeat apply setConnectorEndpoints_keeps_backed.
    apply clearConnectorIndex_backed. }
  destruct (getConnectors_self_healing "a" AffineSurface.staleIndexState
              Hbacked) as (H1 & _ & H3 & _).
  cbv zeta in H1, H3. rewrite H1, H3. split; vm_compute; reflexivity.
Defined.

(** * Further properties *)

(** ** [[...new Set(xs)]] *)

Lemma elem_of_uniqueFrom (xs : list string) : ∀ (seen : gset string) e,
  e ∈ uniqueFrom seen xs ↔ e ∈ xs ∧ e ∉ seen.
Proof.
  induction xs as [|x xs IH]; intros seen e; cbn [uniqueFrom].
  - split; [by intros ?%not_elem_of_nil | by intros [?%not_elem_of_nil _]].
  - destruct (decide (x ∈ seen)) as [Hx | Hx].
    + rewrite IH, elem_of_cons. naive_solver.
    + rewrite !elem_of_cons, IH, elem_of_union, elem_of_singleton.
      destruct (decide (e = x)); naive_solver.
Qed.

Lemma uniqueFrom_NoDup (xs : list string) : ∀ (seen : gset string),
  NoDup (uniqueFrom seen xs).
Proof.
  induction xs as [|x xs IH]; intros seen; cbn [uniqueFrom];
    [apply NoDup_nil_2|].
  destruct (decide (x ∈ seen)); [apply IH|].
  apply NoDup_cons. split; [|apply IH].
  rewrite elem_of_uniqueFrom. set_solver.
Qed.

Lemma uniqueFrom_id (xs : list string) : ∀ (seen : gset string),
  NoDup xs → (∀ e, e ∈ xs → e ∉ seen) → uniqueFrom seen xs = xs.
Proof.
  induction xs as [|x xs IH]; intros seen Hnd Hseen; [done|].
  apply NoDup_cons in Hnd as [Hx Hnd]. cbn [uniqueFrom].
  rewrite decide_False by (apply Hseen; left). f_equal.
  apply IH; [done|]. intros e He.
  specialize (Hseen e ltac:(by right)). set_solver.
Qed.

Lemma elem_of_unique (xs : list string) e : e ∈ unique xs ↔ e ∈ xs.
Proof. unfold unique. rewrite elem_of_uniqueFrom. set_solver. Qed.

Lemma unique_NoDup (xs : list string) : NoDup (unique xs).
Proof. apply uniqueFrom_NoDup. Qed.

Lemma unique_id (xs : list string) : NoDup xs → unique xs = xs.
Proof. intros Hnd. apply uniqueFrom_id; [done | set_solver]. Qed.

Lemma unique_idemp (xs : list string) : unique (unique xs) = unique xs.
Proof. apply unique_id, unique_NoDup. Qed.

(** ** Ancestor walks that return *)

Lemma onWalk_step g p a :
  Tree.onWalk g (Some p) a ↔ p = a ∨ Tree.onWalk g (Tree.group g !! p) a.
Proof.
  cbn [Tree.onWalk]. split.
  - intros [-> | Hanc]; [by left|]. right.
    inversion Hanc as [x q Hq | x q b Hq Hrest]; subst; rewrite Hq; cbn.
    + by left.
    + by right.
  - intros [-> | Hw]; [by left|]. right.
    destruct (Tree.group g !! p) as [q|] eqn:Hq; [|done].
    destruct Hw as [-> | Hanc].
    + by apply Tree.ancestor_parent.
    + by eapply Tree.ancestor_step.
Qed.

Lemma ancestorOf_onWalk g x a :
  Tree.ancestorOf g x a ↔ Tree.onWalk g (Tree.group g !! x) a.
Proof.
  pose proof (onWalk_step g x a) as Hstep. cbn [Tree.onWalk] in Hstep.
  split.
  - intros Hanc.
    inversion Hanc as [y q Hq | y q b Hq Hrest]; subst; rewrite Hq; cbn.
    + by left.
    + by right.
  - destruct (Tree.group g !! x) as [q|] eqn:Hq; [|done].
    intros [-> | Hanc].
    + by apply Tree.ancestor_parent.
    + by eapply Tree.ancestor_step.
Qed.

Lemma hasSelectedAncestor_sound g (selected : gset string) fuel :
  ∀ start b,
    Tree.hasSelectedAncestor fuel g selected start = Some b →
    (b = true ↔ ∃ a, Tree.onWalk g start a ∧ a ∈ selected).
Proof.
  induction fuel as [|n IH]; intros [p|] b Hrun;
    cbn [Tree.hasSelectedAncestor] in Hrun.
  - destruct (decide (p ∈ selected)); [|done]. injection Hrun as <-.
    split; [|done]. intros _. exists p. split; [by left | done].
  - injection Hrun as <-. split; [done | by intros (a & [] & _)].
  - destruct (decide (p ∈ selected)) as [Hp | Hp].
    + injection Hrun as <-. split; [|done]. intros _. exists p.
      split; [by left | done].
    + rewrite (IH _ _ Hrun). split.
      * intros (a & Hw & Ha). exists a. split; [|done].
        apply onWalk_step. by right.
      * intros (a & Hw & Ha). exists a. split; [|done].
        apply onWalk_step in Hw as [-> | Hw]; done.
  - injection Hrun as <-. split; [done | by intros (a & [] & _)].
Qed.

Lemma hasSelectedAncestor_fewer g (selected selected' : gset string) fuel :
  selected' ⊆ selected →
  ∀ start,
    Tree.hasSelectedAncestor fuel g selected start = Some false →
    Tree.hasSelectedAncestor fuel g selected' start = Some false.
Proof.
  intros Hsub. induction fuel as [|n IH]; intros [p|] Hrun;
    cbn [Tree.hasSelectedAncestor] in *; try done.
  - destruct (decide (p ∈ selected)); [done|]. done.
  - destruct (decide (p ∈ selected)) as [|Hp]; [done|].
    rewrite decide_False by set_solver. by apply IH.
Qed.

(** The loop of [getTopElements] keeps, in order, the elements whose walk
    finds no selected ancestor. *)
Lemma getTopElements_loop_filter fuel g (selected : gset string) :
  ∀ us r,
    Tree.getTopElements_loop fuel g selected us = Some r →
    r = filter (λ e, Tree.hasSelectedAncestor fuel g selected
                       (Tree.group g !! e) = Some false) us
    ∧ ∀ e, e ∈ us →
        is_Some (Tree.hasSelectedAncestor fuel g selected (Tree.group g !! e)).
Proof.
  induction us as [|u us IH]; intros r Hrun;
    cbn [Tree.getTopElements_loop] in Hrun.
  - injection Hrun as <-. split; [done | by intros e ?%not_elem_of_nil].
  - destruct (Tree.hasSelectedAncestor fuel g selected (Tree.group g !! u))
      as [b|] eqn:Hu; [|done].
    destruct (Tree.getTopElements_loop fuel g selected us) as [r'|] eqn:Hus;
      [|done].
    destruct (IH r' eq_refl) as [-> Hall]. injection Hrun as <-.
    split.
    + rewrite filter_cons, Hu. destruct b.
      * by rewrite decide_False.
      * by rewrite decide_True.
    + intros e [-> | He]%elem_of_cons; [by rewrite Hu | by apply Hall].
Qed.

Lemma getTopElements_loop_all fuel g (selected : gset string) :
  ∀ us,
    (∀ e, e ∈ us →
       Tree.hasSelectedAncestor fuel g selected (Tree.group g !! e)
       = Some false) →
    Tree.getTopElements_loop fuel g selected us = Some us.
Proof.
  induction us as [|u us IH]; intros Hall; [done|].
  cbn [Tree.getTopElements_loop].
  rewrite (Hall u) by left. rewrite IH; [done|].
  intros e He. apply Hall. by right.
Qed.

(** X1.  Whenever [getTopElements] returns, its result has no duplicates
    and consists of exactly the input elements none of whose ancestors
    (following [.group] one or more times) is in the input.  On a cycle an
    element is among its own ancestors, so a selected element of a cycle
    is dropped as well. *)
Theorem getTopElements_exact (fuel : nat) (g : Tree.Graph)
    (elements r : list string) :
  Tree.getTopElements fuel g elements = Some r →
  NoDup r
  ∧ ∀ e, e ∈ r ↔
         e ∈ elements
         ∧ ¬ ∃ a, Tree.ancestorOf g e a ∧ a ∈ elements.
Proof.
  unfold Tree.getTopElements. intros Hrun.
  destruct (getTopElements_loop_filter _ _ _ _ _ Hrun) as [-> Hall].
  split; [apply NoDup_filter, unique_NoDup|].
  intros e. rewrite list_elem_of_filter, elem_of_unique. split.
  - intros [Hwalk He]. split; [done|].
    intros (a & Hanc & Ha).
    pose proof (hasSelectedAncestor_sound _ _ _ _ _ Hwalk) as [_ Hfound].
    discriminate Hfound. exists a. split; [by apply ancestorOf_onWalk|].
    by rewrite elem_of_list_to_set, elem_of_unique.
  - intros [He Hnone]. split; [|done].
    destruct (Hall e) as [b Hwalk]; [by apply elem_of_unique|].
    rewrite Hwalk. f_equal. destruct b; [|done]. exfalso. apply Hnone.
    pose proof (hasSelectedAncestor_sound _ _ _ _ _ Hwalk) as [Hfound _].
    destruct (Hfound eq_refl) as (a & Hw & Ha). exists a.
    split; [by apply ancestorOf_onWalk|].
    by rewrite elem_of_list_to_set, elem_of_unique in Ha.
Qed.

Lemma getTopElements_exact_witness :
  NoDup ["root"; "leaf-c"]
  ∧ ∀ e, e ∈ ["root"; "leaf-c"] ↔
         e ∈ ["root"; "nested"; "leaf-a"; "leaf-b"; "leaf-c"]
         ∧ ¬ ∃ a, Tree.ancestorOf Tree.testTree e a
                  ∧ a ∈ ["root"; "nested"; "leaf-a"; "leaf-b"; "leaf-c"].
Proof.
  apply (getTopElements_exact 5 Tree.testTree
           ["root"; "nested"; "leaf-a"; "leaf-b"; "leaf-c"]).
  vm_compute. reflexivity.
Defined.

(** X2.  [getTopElements] is idempotent: whenever it returns a list, it
    returns that same list when run on it again. *)
Theorem getTopElements_idempotent (fuel : nat) (g : Tree.Graph)
    (elements r : list string) :
  Tree.getTopElements fuel g elements = Some r →
  Tree.getTopElements fuel g r = Some r.
Proof.
  unfold Tree.getTopElements. intros Hrun.
  destruct (getTopElements_loop_filter _ _ _ _ _ Hrun) as [Hr _].
  assert (Hnd : NoDup r) by (rewrite Hr; apply NoDup_filter, unique_NoDup).
  rewrite (unique_id r Hnd).
  apply getTopElements_loop_all. intros e He.
  assert (Hin := He). rewrite Hr, list_elem_of_filter in Hin.
  destruct Hin as [Hwalk _].
  eapply hasSelectedAncestor_fewer; [|exact Hwalk].
  intros x. rewrite !elem_of_list_to_set.
  rewrite Hr, list_elem_of_filter. tauto.
Qed.

Lemma getTopElements_idempotent_witness :
  Tree.getTopElements 5 Tree.testTree ["root"; "leaf-c"]
  = Some ["root"; "leaf-c"].
Proof.
  apply (getTopElements_idempotent 5 Tree.testTree
           ["root"; "nested"; "leaf-a"; "leaf-b"; "leaf-c"]).
  vm_compute. reflexivity.
Defined.

Lemma hasDescendantElement_loop_sound g container fuel :
  ∀ start b,
    Tree.hasDescendantElement_loop fuel g container start = Some b →
    (b = true ↔ Tree.onWalk g start container).
Proof.
  induction fuel as [|n IH]; intros [p|] b Hrun;
    cbn [Tree.hasDescendantElement_loop] in Hrun.
  - destruct (decide (p = container)) as [-> |]; [|done].
    injection Hrun as <-. split; [|done]. intros _. by left.
  - injection Hrun as <-. done.
  - destruct (decide (p = container)) as [-> | Hp].
    + injection Hrun as <-. split; [|done]. intros _. by left.
    + rewrite (IH _ _ Hrun), onWalk_step. split; [by right|].
      intros [? | ?]; done.
  - injection Hrun as <-. done.
Qed.

(** X3.  Whenever [hasDescendantElementImpl] returns, it answers [true]
    exactly when the container is reached from the element by following
    [.group] one or more times; an element is never its own descendant
    unless it lies on a cycle. *)
Theorem hasDescendantElementImpl_exact (fuel : nat) (g : Tree.Graph)
    (container element : string) (b : bool) :
  Tree.hasDescendantElementImpl fuel g container element = Some b →
  (b = true ↔ Tree.ancestorOf g element container).
Proof.
  unfold Tree.hasDescendantElementImpl. intros Hrun.
  rewrite (hasDescendantElement_loop_sound _ _ _ _ _ Hrun).
  symmetry. apply ancestorOf_onWalk.
Qed.

Lemma hasDescendantElementImpl_exact_witness :
  true = true ↔ Tree.ancestorOf Tree.testTree "leaf-b" "root".
Proof.
  apply (hasDescendantElementImpl_exact 2 Tree.testTree "root" "leaf-b" true).
  vm_compute. reflexivity.
Defined.

(** X4.  On a group graph without cycles, where every parent has a
    smaller rank than its child, both ancestor walks return once the fuel
    reaches the rank of the elements they start from. *)
Theorem ancestor_walks_return_without_cycle (g : Tree.Graph)
    (rank : string → nat) (fuel : nat) (elements : list string)
    (container element : string) :
  (∀ x p, Tree.group g !! x = Some p → rank p < rank x) →
  (∀ e, e ∈ elements → rank e ≤ fuel) →
  rank element ≤ fuel →
  is_Some (Tree.getTopElements fuel g elements)
  ∧ is_Some (Tree.hasDescendantElementImpl fuel g container element).
Proof.
  intros Hrank Hels Hel.
  assert (Hwalk : ∀ (selected : gset string) e, rank e ≤ fuel →
    is_Some (Tree.hasSelectedAncestor fuel g selected (Tree.group g !! e))).
  { intros selected e He.
    destruct (Tree.group g !! e) as [p|] eqn:Hp.
    - apply (hasSelectedAncestor_returns g rank selected Hrank).
      specialize (Hrank e p Hp). lia.
    - destruct fuel; by eexists. }
  split.
  - unfold Tree.getTopElements.
    assert (Hu : ∀ e, e ∈ unique elements → rank e ≤ fuel)
      by (intros e He; apply Hels; by apply elem_of_unique).
    revert Hu.
    generalize (list_to_set (unique elements) : gset string) as selected.
    generalize (unique elements) as us.
    intros us selected. induction us as [|u us IH]; intros Hu;
      [by eexists|].
    cbn [Tree.getTopElements_loop].
    destruct (Hwalk selected u) as [b ->]; [apply Hu; left|].
    destruct IH as [r ->]; [intros e He; apply Hu; by right|].
    by eexists.
  - unfold Tree.hasDescendantElementImpl.
    destruct (Tree.group g !! element) as [p|] eqn:Hp.
    + apply (hasDescendantElement_loop_returns g rank container Hrank).
      specialize (Hrank element p Hp). lia.
    + destruct fuel; by eexists.
Qed.

Lemma ancestor_walks_return_without_cycle_witness :
  is_Some (Tree.getTopElements 2 Tree.testTree
             ["root"; "nested"; "leaf-a"; "leaf-b"; "leaf-c"])
  ∧ is_Some (Tree.hasDescendantElementImpl 2 Tree.testTree "root" "leaf-b").
Proof.
  apply (ancestor_walks_return_without_cycle Tree.testTree Tree.testRank).
  - intros x p Hx. unfold Tree.testTree in Hx. cbn [Tree.group] in Hx.
    apply lookup_insert_Some in Hx as [[<- <-] | [_ Hx]];
      [vm_compute; lia|].
    apply lookup_insert_Some in Hx as [[<- <-] | [_ Hx]];
      [vm_compute; lia|].
    apply lookup_singleton_Some in Hx as [<- <-]. vm_compute; lia.
  - intros e He. unfold Tree.testRank. repeat case_decide; lia.
  - vm_compute; lia.
Defined.

(** ** Batch add and remove *)


(** ** [getGroups] *)

Lemma size_list_to_set_le (l : list string) :
  size (list_to_set l : gset string) ≤ length l.
Proof.
  induction l as [|x l IH]; [by rewrite list_to_set_nil, size_empty|].
  rewrite list_to_set_cons, size_union_alt, size_singleton. cbn [length].
  assert (size (list_to_set l ∖ {[x]} : gset string)
          ≤ size (list_to_set l : gset string))
    by (apply subseteq_size; set_solver).
  lia.
Qed.

Lemma groupLike_get_elem key gl g :
  Surface.groupLike_get key gl = Some g → (key, g) ∈ gl.
Proof.
  induction gl as [|[k g'] gl IH]; cbn [Surface.groupLike_get]; [done|].
  destruct (decide (k = key)) as [-> |].
  - intros [= ->]. left.
  - intros Hget. right. by apply IH.
Qed.

Lemma scanGroups_elem model gl g :
  Surface.scanGroups model gl = Some g → ∃ k, (k, g) ∈ gl.
Proof.
  intros (_ & before & key & after & -> & _)%scanGroups_Some.
  exists key. apply elem_of_app. right. left.
Qed.

(** [getGroup] only ever writes the parent index. *)
Lemma getGroup_scan_frame elem (s : Surface.State) :
  ∃ pm, (Surface.getGroup_scan elem s).2 = Surface.set_parentGroupMap pm s.
Proof.
  unfold Surface.getGroup_scan.
  destruct (Surface.resolveModel elem s) as [m|];
    [destruct (Surface.scanGroups m _)|]; cbn [snd].
  - by eexists.
  - exists (Surface._parentGroupMap s). by destruct s.
  - exists (Surface._parentGroupMap s). by destruct s.
Qed.

Lemma getGroup_frame elem (s : Surface.State) :
  ∃ pm, (Surface.getGroup elem s).2 = Surface.set_parentGroupMap pm s.
Proof.
  unfold Surface.getGroup.
  assert (Hid : ∃ pm, s = Surface.set_parentGroupMap pm s)
    by (exists (Surface._parentGroupMap s); by destruct s).
  destruct (Surface._parentGroupMap s !! Surface.elemId elem) as [p|];
    [destruct (truthy p);
     [destruct (Surface.groupLike_get p _)|]|];
    try apply getGroup_scan_frame; try done.
  destruct (getGroup_scan_frame elem
              (Surface.set_parentGroupMap
                 (delete (Surface.elemId elem) (Surface._parentGroupMap s)) s))
    as [pm ->].
  by exists pm.
Qed.

(** Whatever [getGroup] returns is a known group. *)
Lemma getGroup_known elem (s : Surface.State) g :
  (Surface.getGroup elem s).1 = Some g →
  ∃ k, (k, g) ∈ Surface._groupLikeModels s.
Proof.
  assert (Hscan : ∀ s', Surface._groupLikeModels s' = Surface._groupLikeModels s →
            (Surface.getGroup_scan elem s').1 = Some g →
            ∃ k, (k, g) ∈ Surface._groupLikeModels s).
  { intros s' Hgl. unfold Surface.getGroup_scan.
    destruct (Surface.resolveModel elem s') as [m|]; [|done].
    destruct (Surface.scanGroups m _) as [g'|] eqn:Hg'; [|done].
    intros [= <-]. rewrite <- Hgl. by eapply scanGroups_elem. }
  unfold Surface.getGroup.
  destruct (Surface._parentGroupMap s !! Surface.elemId elem) as [p|];
    [destruct (truthy p);
     [destruct (Surface.groupLike_get p _) as [g'|] eqn:Hg'|]|];
    try (by apply Hscan).
  intros [= <-]. eexists. by eapply groupLike_get_elem.
Qed.

Lemma known_group_id (s : Surface.State) k g :
  (k, g) ∈ Surface._groupLikeModels s →
  Surface.gid g ∈ Surface.knownGroupIds s.
Proof.
  intros Hin. unfold Surface.knownGroupIds.
  rewrite elem_of_list_to_set, list_elem_of_fmap. exists g. split; [done|].
  rewrite list_elem_of_fmap. by exists (k, g).
Qed.

Lemma getGroups_loop_returns (s0 : Surface.State) fuel :
  ∀ (visited : gset string) groups group s,
    Surface._groupLikeModels s = Surface._groupLikeModels s0 →
    size (Surface.knownGroupIds s0 ∖ visited) ≤ fuel →
    (∀ g, group = Some g → ∃ k, (k, g) ∈ Surface._groupLikeModels s0) →
    NoDup (Surface.gid <$> groups) →
    (∀ g, g ∈ groups →
       Surface.gid g ∈ visited ∧ ∃ k, (k, g) ∈ Surface._groupLikeModels s0) →
    ∃ groups' s',
      Surface.getGroups_loop fuel visited groups group s = Some (groups', s')
      ∧ NoDup (Surface.gid <$> groups')
      ∧ (∀ g, g ∈ groups' → ∃ k, (k, g) ∈ Surface._groupLikeModels s0)
      ∧ ∃ pm, s' = Surface.set_parentGroupMap pm s.
Proof.
  assert (Hself : ∀ s : Surface.State, ∃ pm, s = Surface.set_parentGroupMap pm s)
    by (intros s; exists (Surface._parentGroupMap s); by destruct s).
  induction fuel as [|n IH];
    intros visited groups [g|] s Hgl Hsize Hknown Hnd Hgroups;
    cbn [Surface.getGroups_loop];
    try (exists groups, s; split; [done|]; split; [done|];
         split; [intros g' Hg'; by apply Hgroups | apply Hself]).
  - destruct (decide (Surface.gid g ∈ visited)) as [Hv | Hv].
    + exists groups, s. split; [done|]. split; [done|].
      split; [intros g' Hg'; by apply Hgroups | apply Hself].
    + exfalso. destruct (Hknown g eq_refl) as [k Hk].
      assert (Surface.gid g ∈ Surface.knownGroupIds s0 ∖ visited)
        by (apply elem_of_difference; split;
            [by eapply known_group_id | done]).
      assert (size ({[Surface.gid g]} : gset string)
              ≤ size (Surface.knownGroupIds s0 ∖ visited))
        as Hone by (apply subseteq_size; set_solver).
      rewrite size_singleton in Hone. lia.
  - destruct (decide (Surface.gid g ∈ visited)) as [Hv | Hv].
    + exists groups, s. split; [done|]. split; [done|].
      split; [intros g' Hg'; by apply Hgroups | apply Hself].
    + destruct (Hknown g eq_refl) as [k Hk].
      destruct (Surface.getGroup (Surface.ById (Surface.gid g)) s)
        as [next s1] eqn:Hnext.
      destruct (getGroup_frame (Surface.ById (Surface.gid g)) s) as [pm1 Hs1].
      rewrite Hnext in Hs1. cbn [snd] in Hs1.
      destruct (IH ({[Surface.gid g]} ∪ visited) (groups ++ [g]) next s1)
        as (groups' & s' & Hrun & Hnd' & Hall' & pm' & Hs').
      * by rewrite Hs1.
      * assert (size (Surface.knownGroupIds s0 ∖ ({[Surface.gid g]} ∪ visited))
                < size (Surface.knownGroupIds s0 ∖ visited)); [|lia].
        apply subset_size.
        assert (Surface.gid g ∈ Surface.knownGroupIds s0)
          by (by eapply known_group_id).
        set_solver.
      * intros g' ->.
        assert (Hk' : (Surface.getGroup (Surface.ById (Surface.gid g)) s).1
                      = Some g') by (by rewrite Hnext).
        apply getGroup_known in Hk'. by rewrite Hgl in Hk'.
      * rewrite fmap_app. apply NoDup_app. split; [done|].
        split; [|apply NoDup_singleton].
        intros x Hx ->%list_elem_of_singleton.
        apply list_elem_of_fmap in Hx as (g' & Hgid & Hg').
        destruct (Hgroups g' Hg') as [Hvis _]. rewrite <- Hgid in Hvis. done.
      * intros g' [Hg' | ->%list_elem_of_singleton]%elem_of_app.
        -- destruct (Hgroups g' Hg') as [? ?]. split; [set_solver | done].
        -- split; [set_solver | by exists k].
      * exists groups', s'. split; [done|]. split; [done|]. split; [done|].
        exists pm'. rewrite Hs', Hs1. done.
Qed.

(** X6.  [getGroups] returns on every state, whatever cycles the parent
    index holds: the groups it lists are known groups with pairwise
    distinct ids, so there are at most as many as known groups, and the
    only part of the state it may change is the parent index. *)
Theorem getGroups_returns_distinct (i : string) (s : Surface.State) :
  ∃ groups s',
    Surface.getGroups i s = Some (groups, s')
    ∧ NoDup (Surface.gid <$> groups)
    ∧ (∀ g, g ∈ groups → ∃ k, (k, g) ∈ Surface._groupLikeModels s)
    ∧ ∃ pm, s' = Surface.set_parentGroupMap pm s.
Proof.
  unfold Surface.getGroups.
  destruct (Surface.getGroup (Surface.ById i) s) as [group s1] eqn:Hfirst.
  destruct (getGroup_frame (Surface.ById i) s) as [pm1 Hs1].
  rewrite Hfirst in Hs1. cbn [snd] in Hs1.
  destruct (getGroups_loop_returns s (length (Surface._groupLikeModels s))
              ∅ [] group s1) as (groups & s' & Hrun & Hnd & Hall & pm & Hs').
  - by rewrite Hs1.
  - rewrite difference_empty_L. unfold Surface.knownGroupIds.
    etrans; [apply size_list_to_set_le|]. by rewrite !length_fmap.
  - intros g ->.
    assert (Hk : (Surface.getGroup (Surface.ById i) s).1 = Some g)
      by (by rewrite Hfirst).
    by apply getGroup_known in Hk.
  - apply NoDup_nil_2.
  - intros g ?%not_elem_of_nil. done.
  - exists groups, s'. split; [done|]. split; [done|]. split; [done|].
    exists pm. by rewrite Hs', Hs1.
Qed.

(** On the cyclic parent index the walk lists both groups once and
    stops. *)
Example getGroups_cycle_test :
  match Surface.getGroups "group-a" Surface.cyclicIndexState with
  | Some (groups, _) => Surface.gid <$> groups = ["group-b"; "group-a"]
  | None => False
  end.
Proof. vm_compute. reflexivity. Qed.

(** ** The group index: lookups after a resync, a removal, a rebuild *)

Lemma lookup_sync_parent groupId nextChildIds previousChildIds
    (s : Surface.State) c :
  Surface._parentGroupMap
    (Surface._syncGroupChildrenIndex groupId nextChildIds previousChildIds s)
  !! c
  = if decide (c ∈ nextChildIds) then Some groupId
    else if decide (c ∈ Surface.syncPrev groupId previousChildIds s
                    ∧ Surface._parentGroupMap s !! c = Some groupId)
         then None
         else Surface._parentGroupMap s !! c.
Proof.
  cbn. by rewrite lookup_linkChildren, lookup_unlinkChildren.
Qed.

Lemma groupLikeModels_sync groupId nextChildIds previousChildIds
    (s : Surface.State) :
  Surface._groupLikeModels
    (Surface._syncGroupChildrenIndex groupId nextChildIds previousChildIds s)
  = Surface._groupLikeModels s.
Proof. reflexivity. Qed.

(** X7.  After [_syncGroupChildrenIndex(G, C, prev)] every child in [C]
    points at [G], every previous child that is not in [C] no longer
    points at [G], the snapshot of [G] is [C], and, when [G] is the
    non-empty id of a known group, [getGroup] of a child in [C] returns
    that group straight from the index without changing the state. *)
Theorem sync_then_getGroup (groupId : string) (nextChildIds : list string)
    (previousChildIds : option (list string)) (s : Surface.State) :
  let s' := Surface._syncGroupChildrenIndex groupId nextChildIds
              previousChildIds s in
  (∀ c, c ∈ nextChildIds → Surface._parentGroupMap s' !! c = Some groupId)
  ∧ (∀ c, c ∈ Surface.syncPrev groupId previousChildIds s →
       c ∉ nextChildIds →
       Surface._parentGroupMap s' !! c ≠ Some groupId)
  ∧ Surface._groupChildIdsMap s' !! groupId = Some nextChildIds
  ∧ (∀ c g, c ∈ nextChildIds → truthy groupId = true →
       Surface.groupLike_get groupId (Surface._groupLikeModels s) = Some g →
       Surface.getGroup (Surface.ById c) s' = (Some g, s')
       ∧ Surface.getGroup (Surface.ByModel c) s' = (Some g, s')).
Proof.
  intros s'. subst s'. split; [|split; [|split]].
  - intros c Hc. by rewrite lookup_sync_parent, decide_True.
  - intros c Hprev Hnot. rewrite lookup_sync_parent, decide_False by done.
    case_decide as Hd; [done|]. intros Hg. apply Hd. done.
  - cbn. by rewrite lookup_insert_eq.
  - intros c g Hc Ht Hg.
    unfold Surface.getGroup. cbn [Surface.elemId].
    rewrite lookup_sync_parent, decide_True by done.
    rewrite Ht, groupLikeModels_sync, Hg. done.
Qed.

Lemma sync_then_getGroup_witness :
  Surface.getGroup (Surface.ById "0")
    (Surface._syncGroupChildrenIndex "group-fallback" ["0"] None
       Surface.staleCacheState)
  = (Some (Surface.fakeGroup "0"),
     Surface._syncGroupChildrenIndex "group-fallback" ["0"] None
       Surface.staleCacheState).
Proof.
  apply (sync_then_getGroup "group-fallback" ["0"] None
           Surface.staleCacheState);
    [left | reflexivity | reflexivity].
Defined.

(** X8.  [_removeGroupFromChildrenIndex(G)] drops the snapshot of [G]
    and nothing else from the snapshots; it drops the parent pointer of
    exactly the ids of that snapshot that point at [G], and every other
    parent pointer, to [G] or to another group, is what it was; the rest
    of the state is untouched.  When all pointers at [G] were listed in
    its snapshot, no pointer at [G] is left. *)
Theorem removeGroup_clears_group (groupId : string) (s : Surface.State) :
  let s' := Surface._removeGroupFromChildrenIndex groupId s in
  let snapshot := default [] (Surface._groupChildIdsMap s !! groupId) in
  Surface._groupChildIdsMap s' !! groupId = None
  ∧ (∀ other, other ≠ groupId →
       Surface._groupChildIdsMap s' !! other
       = Surface._groupChildIdsMap s !! other)
  ∧ (∀ c, Surface._parentGroupMap s' !! c
          = if decide (c ∈ snapshot
                       ∧ Surface._parentGroupMap s !! c = Some groupId)
            then None
            else Surface._parentGroupMap s !! c)
  ∧ ((∀ c, Surface._parentGroupMap s !! c = Some groupId → c ∈ snapshot) →
     ∀ c, Surface._parentGroupMap s' !! c ≠ Some groupId)
  ∧ s' = Surface.set_groupChildIdsMap (Surface._groupChildIdsMap s')
           (Surface.set_parentGroupMap (Surface._parentGroupMap s') s).
Proof.
  intros s' snapshot. subst s' snapshot. cbn.
  split; [by rewrite lookup_delete_eq|].
  split; [intros other Hne; by rewrite lookup_delete_ne|].
  split; [intros c; apply lookup_unlinkChildren|].
  split; [|done].
  intros Hlisted c. rewrite lookup_unlinkChildren.
  case_decide as Hd; [done|]. intros Hg. apply Hd. split; [|done].
  by apply Hlisted.
Qed.

Lemma sync_step_parent (childIdsOf : Surface.GroupModel → list string)
    (s : Surface.State) (kg : string * Surface.GroupModel) c :
  Surface._parentGroupMap
    (Surface._syncGroupChildrenIndex (Surface.gid kg.2) (childIdsOf kg.2)
       (Some []) s) !! c
  = if decide (c ∈ childIdsOf kg.2) then Some (Surface.gid kg.2)
    else Surface._parentGroupMap s !! c.
Proof.
  rewrite lookup_sync_parent. case_decide; [done|].
  rewrite decide_False; [done|]. cbn. by intros [?%not_elem_of_nil _].
Qed.

Lemma rebuild_as_foldl (childIdsOf : Surface.GroupModel → list string)
    (s : Surface.State) :
  Surface._rebuildGroupChildrenIndex childIdsOf s
  = foldl (λ st (kg : string * Surface.GroupModel),
             Surface._syncGroupChildrenIndex (Surface.gid kg.2)
               (childIdsOf kg.2) (Some []) st)
      (Surface.set_parentGroupMap ∅ (Surface.set_groupChildIdsMap ∅ s))
      (Surface._groupLikeModels s).
Proof.
  unfold Surface._rebuildGroupChildrenIndex.
  generalize (Surface.set_parentGroupMap ∅ (Surface.set_groupChildIdsMap ∅ s)).
  induction (Surface._groupLikeModels s) as [|[k g] gl IH]; intros st;
    [done|].
  cbn [foldl]. apply IH.
Qed.

(** The parent index after the groups [gl] were resynced one after the
    other from a cleared index. *)
Lemma rebuild_fold_parent (childIdsOf : Surface.GroupModel → list string)
    (s0 : Surface.State)
    (gl : list (string * Surface.GroupModel)) c :
  Surface._parentGroupMap s0 = ∅ →
  let s' := foldl (λ st (kg : string * Surface.GroupModel),
                     Surface._syncGroupChildrenIndex (Surface.gid kg.2)
                       (childIdsOf kg.2) (Some []) st) s0 gl in
  (∀ p, Surface._parentGroupMap s' !! c = Some p →
     ∃ kg, kg ∈ gl ∧ Surface.gid kg.2 = p ∧ c ∈ childIdsOf kg.2)
  ∧ (∀ kg, kg ∈ gl → c ∈ childIdsOf kg.2 →
       is_Some (Surface._parentGroupMap s' !! c)).
Proof.
  intros Hempty. induction gl as [|kg gl IH] using rev_ind; cbn zeta.
  - cbn [foldl]. rewrite Hempty, lookup_empty. split; [done|].
    by intros kg ?%not_elem_of_nil.
  - rewrite foldl_app. cbn [foldl]. rewrite sync_step_parent.
    cbn zeta in IH. destruct IH as [IHs IHc].
    destruct (decide (c ∈ childIdsOf kg.2)) as [Hc | Hc].
    + split.
      * intros p [= <-]. exists kg. split; [|done].
        apply elem_of_app. right. left.
      * intros _ _ _. by eexists.
    + split.
      * intros p Hp. destruct (IHs p Hp) as (kg' & Hin & Hgid & Hc').
        exists kg'. split; [|done]. apply elem_of_app. by left.
      * intros kg' [Hin | ->%list_elem_of_singleton]%elem_of_app Hc';
          [by eapply IHc | done].
Qed.

Lemma rebuild_fold_last (childIdsOf : Surface.GroupModel → list string)
    (s0 : Surface.State) before (kg : string * Surface.GroupModel) c :
  c ∈ childIdsOf kg.2 →
  ∀ after,
    (∀ kg', kg' ∈ after → c ∉ childIdsOf kg'.2) →
    Surface._parentGroupMap
      (foldl (λ st (kg : string * Surface.GroupModel),
                Surface._syncGroupChildrenIndex (Surface.gid kg.2)
                  (childIdsOf kg.2) (Some []) st) s0
         (before ++ kg :: after)) !! c
    = Some (Surface.gid kg.2).
Proof.
  intros Hc. induction after as [|x after IH] using rev_ind; intros Hnone.
  - rewrite foldl_app. cbn [foldl]. by rewrite sync_step_parent, decide_True.
  - rewrite app_comm_cons, app_assoc, foldl_app. cbn [foldl].
    rewrite sync_step_parent, decide_False
      by (apply Hnone, elem_of_app; right; left).
    apply IH. intros kg' Hin. apply Hnone, elem_of_app. by left.
Qed.

Lemma sync_step_children (childIdsOf : Surface.GroupModel → list string)
    (s : Surface.State) (kg : string * Surface.GroupModel) i :
  Surface._groupChildIdsMap
    (Surface._syncGroupChildrenIndex (Surface.gid kg.2) (childIdsOf kg.2)
       (Some []) s) !! i
  = if decide (i = Surface.gid kg.2) then Some (childIdsOf kg.2)
    else Surface._groupChildIdsMap s !! i.
Proof.
  cbn. destruct (decide (i = Surface.gid kg.2)) as [-> | Hne];
    [by rewrite lookup_insert_eq | by rewrite lookup_insert_ne].
Qed.

(** The snapshots after the groups [gl] were resynced one after the other
    from a cleared index. *)
Lemma rebuild_fold_children (childIdsOf : Surface.GroupModel → list string)
    (s0 : Surface.State) (gl : list (string * Surface.GroupModel)) i :
  Surface._groupChildIdsMap s0 = ∅ →
  ∀ l,
    Surface._groupChildIdsMap
      (foldl (λ st (kg : string * Surface.GroupModel),
                Surface._syncGroupChildrenIndex (Surface.gid kg.2)
                  (childIdsOf kg.2) (Some []) st) s0 gl) !! i = Some l →
    ∃ kg, kg ∈ gl ∧ Surface.gid kg.2 = i ∧ childIdsOf kg.2 = l.
Proof.
  intros Hempty. induction gl as [|kg gl IH] using rev_ind; intros l.
  - cbn [foldl]. by rewrite Hempty, lookup_empty.
  - rewrite foldl_app. cbn [foldl]. rewrite sync_step_children.
    destruct (decide (i = Surface.gid kg.2)) as [-> | Hne].
    + intros [= <-]. exists kg. split; [|done]. apply elem_of_app. right. left.
    + intros Hl. destruct (IH l Hl) as (kg' & Hin & Hgid & Hl').
      exists kg'. split; [|done]. apply elem_of_app. by left.
Qed.

Lemma rebuild_fold_children_last
    (childIdsOf : Surface.GroupModel → list string)
    (s0 : Surface.State) before (kg : string * Surface.GroupModel) :
  ∀ after,
    (∀ kg', kg' ∈ after → Surface.gid kg'.2 ≠ Surface.gid kg.2) →
    Surface._groupChildIdsMap
      (foldl (λ st (kg : string * Surface.GroupModel),
                Surface._syncGroupChildrenIndex (Surface.gid kg.2)
                  (childIdsOf kg.2) (Some []) st) s0
         (before ++ kg :: after)) !! Surface.gid kg.2
    = Some (childIdsOf kg.2).
Proof.
  induction after as [|x after IH] using rev_ind; intros Hnone.
  - rewrite foldl_app. cbn [foldl]. by rewrite sync_step_children, decide_True.
  - rewrite app_comm_cons, app_assoc, foldl_app. cbn [foldl].
    rewrite sync_step_children, decide_False.
    + apply IH. intros kg' Hin. apply Hnone, elem_of_app. by left.
    + intros Heq. apply (Hnone x); [|done]. apply elem_of_app. right. left.
Qed.

(** Resyncing groups touches the two index maps only. *)
Lemma rebuild_fold_frame (childIdsOf : Surface.GroupModel → list string)
    (gl : list (string * Surface.GroupModel)) : ∀ s0 : Surface.State,
  let s' := foldl (λ st (kg : string * Surface.GroupModel),
                     Surface._syncGroupChildrenIndex (Surface.gid kg.2)
                       (childIdsOf kg.2) (Some []) st) s0 gl in
  Surface.readonly s' = Surface.readonly s0
  ∧ Surface.blocks s' = Surface.blocks s0
  ∧ Surface._elementCtorMap s' = Surface._elementCtorMap s0
  ∧ Surface._elementModels s' = Surface._elementModels s0
  ∧ Surface._groupLikeModels s' = Surface._groupLikeModels s0.
Proof.
  induction gl as [|kg gl IH]; intros s0; [done|].
  cbn [foldl]. cbn zeta in IH.
  destruct (IH (Surface._syncGroupChildrenIndex (Surface.gid kg.2)
                  (childIdsOf kg.2) (Some []) s0))
    as (-> & -> & -> & -> & ->).
  done.
Qed.

(** X9.  [_rebuildGroupChildrenIndex] discards both index maps and fills
    them from the registry alone.  Afterwards every parent pointer names a
    known group that lists the child, every child listed by a known group
    has a parent pointer, and when several groups list the same child the
    last one in the registry wins; every snapshot is the child list of a
    known group with that id, the last one registered under the id; and
    the rest of the state is untouched. *)
Theorem rebuildGroupChildrenIndex_exact
    (childIdsOf : Surface.GroupModel → list string) (s : Surface.State) :
  let s' := Surface._rebuildGroupChildrenIndex childIdsOf s in
  (∀ c p, Surface._parentGroupMap s' !! c = Some p →
     ∃ k g, (k, g) ∈ Surface._groupLikeModels s
            ∧ Surface.gid g = p ∧ c ∈ childIdsOf g)
  ∧ (∀ k g c, (k, g) ∈ Surface._groupLikeModels s → c ∈ childIdsOf g →
       is_Some (Surface._parentGroupMap s' !! c))
  ∧ (∀ before k g after c,
       Surface._groupLikeModels s = before ++ (k, g) :: after →
       c ∈ childIdsOf g →
       (∀ kg, kg ∈ after → c ∉ childIdsOf kg.2) →
       Surface._parentGroupMap s' !! c = Some (Surface.gid g))
  ∧ (∀ i l, Surface._groupChildIdsMap s' !! i = Some l →
       ∃ k g, (k, g) ∈ Surface._groupLikeModels s
              ∧ Surface.gid g = i ∧ childIdsOf g = l)
  ∧ (∀ before k g after,
       Surface._groupLikeModels s = before ++ (k, g) :: after →
       (∀ kg, kg ∈ after → Surface.gid kg.2 ≠ Surface.gid g) →
       Surface._groupChildIdsMap s' !! Surface.gid g = Some (childIdsOf g))
  ∧ (Surface.readonly s' = Surface.readonly s
     ∧ Surface.blocks s' = Surface.blocks s
     ∧ Surface._elementCtorMap s' = Surface._elementCtorMap s
     ∧ Surface._elementModels s' = Surface._elementModels s
     ∧ Surface._groupLikeModels s' = Surface._groupLikeModels s).
Proof.
  intros s'. subst s'. rewrite rebuild_as_foldl.
  split; [|split; [|split; [|split; [|split]]]].
  - intros c p Hp.
    destruct (rebuild_fold_parent childIdsOf
                (Surface.set_parentGroupMap ∅
                   (Surface.set_groupChildIdsMap ∅ s))
                (Surface._groupLikeModels s) c eq_refl) as [Hs _].
    destruct (Hs p Hp) as ([k g] & Hin & Hgid & Hc). by exists k, g.
  - intros k g c Hin Hc.
    destruct (rebuild_fold_parent childIdsOf
                (Surface.set_parentGroupMap ∅
                   (Surface.set_groupChildIdsMap ∅ s))
                (Surface._groupLikeModels s) c eq_refl) as [_ Hcomp].
    by apply (Hcomp (k, g)).
  - intros before k g after c -> Hc Hnone.
    by apply (rebuild_fold_last childIdsOf _ before (k, g) c).
  - intros i l Hl.
    destruct (rebuild_fold_children childIdsOf
                (Surface.set_parentGroupMap ∅
                   (Surface.set_groupChildIdsMap ∅ s))
                (Surface._groupLikeModels s) i eq_refl l Hl)
      as ([k g] & Hin & Hgid & Hl').
    by exists k, g.
  - intros before k g after -> Hnone.
    by apply (rebuild_fold_children_last childIdsOf _ before (k, g)).
  - apply (rebuild_fold_frame childIdsOf (Surface._groupLikeModels s)
             (Surface.set_parentGroupMap ∅
                (Surface.set_groupChildIdsMap ∅ s))).
Qed.

(** ** [getGroup] settles after one call *)

Lemma groupLike_get_registered gl k g :
  NoDup gl.*1 → (k, g) ∈ gl → Surface.groupLike_get k gl = Some g.
Proof.
  induction gl as [|[k' g'] gl IH]; intros Hnd Hin;
    [by apply not_elem_of_nil in Hin|].
  cbn in Hnd. apply NoDup_cons in Hnd as [Hk' Hnd].
  cbn [Surface.groupLike_get].
  apply elem_of_cons in Hin as [[= <- <-] | Hin].
  - by rewrite decide_True.
  - rewrite decide_False; [by apply IH|].
    intros ->. apply Hk'. apply list_elem_of_fmap. by exists (k, g).
Qed.

Lemma resolveModel_set_parentGroupMap elem pm (s : Surface.State) :
  Surface.resolveModel elem (Surface.set_parentGroupMap pm s)
  = Surface.resolveModel elem s.
Proof. by destruct elem. Qed.

Lemma set_parentGroupMap_twice pm pm' (s : Surface.State) :
  Surface.set_parentGroupMap pm (Surface.set_parentGroupMap pm' s)
  = Surface.set_parentGroupMap pm s.
Proof. reflexivity. Qed.

Lemma set_parentGroupMap_same (s : Surface.State) :
  Surface.set_parentGroupMap (Surface._parentGroupMap s) s = s.
Proof. by destruct s. Qed.

(** After a scan that started without a usable cache entry, a second
    [getGroup] answers the same and changes nothing. *)
Lemma getGroup_after_scan elem (s : Surface.State) :
  Surface.registryWf s →
  (∀ p, Surface._parentGroupMap s !! Surface.elemId elem = Some p →
        truthy p = false) →
  Surface.getGroup elem (Surface.getGroup_scan elem s).2
  = Surface.getGroup_scan elem s.
Proof.
  intros [Hnd Hkeys] Hmiss.
  assert (Hfirst : Surface.getGroup elem s = Surface.getGroup_scan elem s).
  { unfold Surface.getGroup.
    destruct (Surface._parentGroupMap s !! Surface.elemId elem) as [p|];
      [|done].
    by rewrite (Hmiss p eq_refl). }
  destruct (Surface.resolveModel elem s) as [m|] eqn:Hm.
  2: { assert (Surface.getGroup_scan elem s = (None, s)) as Hs
         by (unfold Surface.getGroup_scan; by rewrite Hm).
       rewrite Hs. cbn [snd]. by rewrite Hfirst. }
  destruct (Surface.scanGroups m (Surface._groupLikeModels s)) as [g|] eqn:Hg.
  2: { assert (Surface.getGroup_scan elem s = (None, s)) as Hs
         by (unfold Surface.getGroup_scan; by rewrite Hm, Hg).
       rewrite Hs. cbn [snd]. by rewrite Hfirst. }
  assert (Surface.getGroup_scan elem s
          = (Some g,
             Surface.set_parentGroupMap
               (<[Surface.elemId elem := Surface.gid g]>
                  (Surface._parentGroupMap s)) s)) as Hs
    by (unfold Surface.getGroup_scan; by rewrite Hm, Hg).
  rewrite Hs. cbn [snd]. unfold Surface.getGroup.
  cbn [Surface._parentGroupMap Surface.set_parentGroupMap].
  rewrite lookup_insert_eq.
  destruct (scanGroups_elem _ _ _ Hg) as [k Hk].
  destruct (truthy (Surface.gid g)) eqn:Ht.
  - cbn [Surface._groupLikeModels Surface.set_parentGroupMap].
    rewrite (Hkeys k g Hk). by rewrite (groupLike_get_registered _ k g Hnd Hk).
  - unfold Surface.getGroup_scan.
    rewrite resolveModel_set_parentGroupMap, Hm.
    cbn [Surface._groupLikeModels Surface.set_parentGroupMap]. rewrite Hg.
    unfold Surface.set_parentGroupMap.
    cbn [Surface.readonly Surface.blocks Surface._elementCtorMap
         Surface._elementModels Surface._groupLikeModels
         Surface._parentGroupMap Surface._groupChildIdsMap Surface.elemId].
    rewrite insert_insert_eq. done.
Qed.

(** X10.  With a registry that files every group under its own id, once,
    [getGroup] settles after one call: asked again for the same element
    on the state it left, it returns the same answer and leaves that
    state as it is. *)
Theorem getGroup_settles (elem : Surface.Elem) (s : Surface.State) :
  Surface.registryWf s →
  Surface.getGroup elem (Surface.getGroup elem s).2 = Surface.getGroup elem s.
Proof.
  intros Hwf. unfold Surface.getGroup at 2 3.
  destruct (Surface._parentGroupMap s !! Surface.elemId elem) as [p|] eqn:Hp.
  - destruct (truthy p) eqn:Ht.
    + destruct (Surface.groupLike_get p (Surface._groupLikeModels s))
        as [g|] eqn:Hg.
      * cbn [snd]. unfold Surface.getGroup. by rewrite Hp, Ht, Hg.
      * apply getGroup_after_scan; [exact Hwf|].
        intros p'. cbn. by rewrite lookup_delete_eq.
    + apply getGroup_after_scan; [exact Hwf|].
      intros p' Hp'. rewrite Hp in Hp'. by injection Hp' as <-.
  - apply getGroup_after_scan; [exact Hwf|].
    intros p' Hp'. by rewrite Hp in Hp'.
Qed.

Lemma getGroup_settles_witness :
  Surface.getGroup (Surface.ById "0")
    (Surface.getGroup (Surface.ById "0") Surface.staleCacheState).2
  = Surface.getGroup (Surface.ById "0") Surface.staleCacheState.
Proof.
  apply (getGroup_settles (Surface.ById "0") Surface.staleCacheState).
  split.
  - cbn. apply NoDup_singleton.
  - intros k g Hin. cbn in Hin.
    by apply list_elem_of_singleton in Hin as [= -> ->].
Defined.

(** ** The deletion closure *)

Lemma hasElementById_true i (s : Surface.State) :
  Surface.hasElementById i s = true ↔ is_Some (Surface.getElementById i s).
Proof. unfold Surface.hasElementById. apply bool_decide_eq_true. Qed.

Lemma hasElementById_false i (s : Surface.State) :
  Surface.hasElementById i s = false ↔ Surface.getElementById i s = None.
Proof.
  unfold Surface.hasElementById, Surface.getElementById.
  rewrite bool_decide_eq_false, <- eq_None_not_Some. done.
Qed.

Lemma collectInv_addBlockId (s : Surface.State) pending b c :
  Surface.getElementById b s = None → is_Some (Surface.blocks s !! b) →
  Surface.collectInv s pending c →
  Surface.collectInv s pending (Surface.addBlockId b c).
Proof.
  intros Hb Hblock (Hnd & Hmarks & Hpend & Hlive & Hclosed & Hndb & Hblocks).
  unfold Surface.collectInv, Surface.addBlockId. cbn.
  repeat split; try done; try apply Hmarks.
  - destruct (decide (b ∈ Surface.deleteBlockIds c)); [done|].
    apply NoDup_app. split; [done|]. split; [|apply NoDup_singleton].
    by intros x Hx ->%list_elem_of_singleton.
  - destruct (decide (b ∈ Surface.deleteBlockIds c)); [by apply Hblocks|].
    apply elem_of_app in H as [H | ->%list_elem_of_singleton];
      [by apply Hblocks | done].
  - destruct (decide (b ∈ Surface.deleteBlockIds c)); [by apply Hblocks|].
    apply elem_of_app in H as [H | ->%list_elem_of_singleton];
      [by apply Hblocks | done].
Qed.

Lemma collect_children_inv n (s : Surface.State) (pending : gset string) :
  (∀ i c c',
     Surface._collectElementsToDelete n s i c = Some c' →
     Surface.collectInv s pending c →
     Surface.collectInv s pending c'
     ∧ Surface.deleteElementIds c ⊆ Surface.deleteElementIds c'
     ∧ (is_Some (Surface.getElementById i s) →
        i ∈ Surface.deleteElementIds c')) →
  ∀ children c c',
    forEachM
      (λ childId c,
         if Surface.hasElementById childId s
         then Surface._collectElementsToDelete n s childId c
         else if decide (is_Some (Surface.blocks s !! childId))
              then Some (Surface.addBlockId childId c)
              else Some c)
      children c = Some c' →
    Surface.collectInv s pending c →
    Surface.collectInv s pending c'
    ∧ Surface.deleteElementIds c ⊆ Surface.deleteElementIds c'
    ∧ (∀ child, child ∈ children →
         is_Some (Surface.getElementById child s) →
         child ∈ Surface.deleteElementIds c').
Proof.
  intros IH. induction children as [|child children IHc]; intros c c' Hrun Hinv.
  - injection Hrun as <-. split; [done|]. split; [done|].
    by intros child ?%not_elem_of_nil.
  - cbn [forEachM] in Hrun.
    destruct (Surface.hasElementById child s) eqn:Hlive.
    + destruct (Surface._collectElementsToDelete n s child c) as [c1|] eqn:Hc1;
        [|done].
      destruct (IH _ _ _ Hc1 Hinv) as (Hinv1 & Hsub1 & Hin1).
      destruct (IHc _ _ Hrun Hinv1) as (Hinv2 & Hsub2 & Hin2).
      split; [done|]. split; [set_solver|].
      intros x [-> | Hx]%elem_of_cons Hx'; [|by apply Hin2].
      apply Hsub2, Hin1. done.
    + apply hasElementById_false in Hlive.
      destruct (decide (is_Some (Surface.blocks s !! child))) as [Hb | Hb].
      * destruct (IHc _ _ Hrun (collectInv_addBlockId _ _ _ _ Hlive Hb Hinv))
          as (Hinv2 & Hsub2 & Hin2).
        split; [done|]. split; [done|].
        intros x [-> | Hx]%elem_of_cons Hx'; [|by apply Hin2].
        rewrite Hlive in Hx'. by destruct Hx'.
      * destruct (IHc _ _ Hrun Hinv) as (Hinv2 & Hsub2 & Hin2).
        split; [done|]. split; [done|].
        intros x [-> | Hx]%elem_of_cons Hx'; [|by apply Hin2].
        rewrite Hlive in Hx'. by destruct Hx'.
Qed.

Lemma collect_inv fuel (s : Surface.State) : ∀ (pending : gset string) i c c',
  Surface._collectElementsToDelete fuel s i c = Some c' →
  Surface.collectInv s pending c →
  Surface.collectInv s pending c'
  ∧ Surface.deleteElementIds c ⊆ Surface.deleteElementIds c'
  ∧ (is_Some (Surface.getElementById i s) →
     i ∈ Surface.deleteElementIds c').
Proof.
  induction fuel as [|n IH]; intros pending i c c' Hrun Hinv; [done|].
  cbn [Surface._collectElementsToDelete] in Hrun.
  destruct (decide (i ∈ Surface.deleteElementIds c)) as [Hi | Hi].
  { injection Hrun as <-. done. }
  destruct (Surface.getElementById i s) as [element|] eqn:Hel.
  2: { injection Hrun as <-. split; [done|]. split; [done|]. by intros [? ?]. }
  set (c0 := {| Surface.deleteElementIds := {[i]} ∪ Surface.deleteElementIds c;
                Surface.orderedDeleteIds := Surface.orderedDeleteIds c;
                Surface.deleteBlockIds := Surface.deleteBlockIds c |}) in *.
  destruct Hinv as (Hnd & Hmarks & Hpend & Hlive & Hclosed & Hndb & Hblocks).
  assert (Hinv0 : Surface.collectInv s ({[i]} ∪ pending) c0).
  { unfold Surface.collectInv. subst c0. cbn.
    split; [done|]. split; [|split; [|split; [|split; [|done]]]].
    - intros x. rewrite !elem_of_union, elem_of_singleton, Hmarks. tauto.
    - intros x Hx. rewrite elem_of_union, elem_of_singleton.
      intros [-> | Hp]; [|by eapply Hpend].
      apply Hi, Hmarks. by left.
    - intros x [->%elem_of_singleton | Hx]%elem_of_union;
        [by rewrite Hel | by apply Hlive].
    - intros x el children child Hx Hxel Hch Hchild Hclive.
      apply elem_of_union. right. by eapply Hclosed. }
  assert (Hkids : ∃ c1,
    Surface.collectInv s ({[i]} ∪ pending) c1
    ∧ Surface.deleteElementIds c0 ⊆ Surface.deleteElementIds c1
    ∧ (∀ children child, Surface.childIds element = Some children →
         child ∈ children → is_Some (Surface.getElementById child s) →
         child ∈ Surface.deleteElementIds c1)
    ∧ c' = {| Surface.deleteElementIds := Surface.deleteElementIds c1;
              Surface.orderedDeleteIds := Surface.orderedDeleteIds c1 ++ [i];
              Surface.deleteBlockIds := Surface.deleteBlockIds c1 |}).
  { destruct (Surface.childIds element) as [children|].
    - destruct (forEachM _ children c0) as [c1|] eqn:Hc1; [|done].
      destruct (collect_children_inv n s ({[i]} ∪ pending)
                  (IH ({[i]} ∪ pending)) children c0 c1 Hc1 Hinv0)
        as (Hinv1 & Hsub1 & Hin1).
      exists c1. injection Hrun as <-.
      split; [done|]. split; [done|]. split; [|done].
      by intros children' child [= <-]; apply Hin1.
    - exists c0. injection Hrun as <-.
      split; [done|]. split; [done|]. split; [|done]. by intros. }
  destruct Hkids as (c1 & Hinv1 & Hsub1 & Hin1 & ->).
  destruct Hinv1 as (Hnd1 & Hmarks1 & Hpend1 & Hlive1 & Hclosed1 & Hndb1
                     & Hblocks1).
  assert (Hi1 : i ∈ Surface.deleteElementIds c1)
    by (apply Hsub1; subst c0; cbn; set_solver).
  assert (Hip : i ∉ pending)
    by (intros Hp; apply Hi, Hmarks; by right).
  split; [|split].
  - unfold Surface.collectInv. cbn.
    split; [|split; [|split; [|split; [|split; [|done]]]]].
    + apply NoDup_app. split; [done|]. split; [|apply NoDup_singleton].
      intros x Hx ->%list_elem_of_singleton.
      apply (Hpend1 i Hx). set_solver.
    + intros x. rewrite Hmarks1, elem_of_app, list_elem_of_singleton.
      rewrite elem_of_union, elem_of_singleton. tauto.
    + intros x [Hx | ->%list_elem_of_singleton]%elem_of_app; [|done].
      intros Hp. apply (Hpend1 x Hx). set_solver.
    + done.
    + intros x el children child
        [Hx | ->%list_elem_of_singleton]%elem_of_app Hxel Hch Hchild Hclive.
      * by eapply Hclosed1.
      * rewrite Hel in Hxel. injection Hxel as <-. by eapply Hin1.
  - cbn. subst c0. cbn in Hsub1. set_solver.
  - intros _. done.
Qed.

Lemma collect_appends fuel (s : Surface.State) : ∀ i c c',
  Surface._collectElementsToDelete fuel s i c = Some c' →
  ∃ more, Surface.orderedDeleteIds c' = Surface.orderedDeleteIds c ++ more
          ∧ (i ∉ Surface.deleteElementIds c →
             is_Some (Surface.getElementById i s) →
             last more = Some i).
Proof.
  induction fuel as [|n IH]; intros i c c' Hrun; [done|].
  cbn [Surface._collectElementsToDelete] in Hrun.
  destruct (decide (i ∈ Surface.deleteElementIds c)) as [Hi | Hi].
  { injection Hrun as <-. exists []. by rewrite app_nil_r. }
  destruct (Surface.getElementById i s) as [element|] eqn:Hel.
  2: { injection Hrun as <-. exists []. rewrite app_nil_r.
       split; [done|]. by intros _ [? ?]. }
  set (c0 := {| Surface.deleteElementIds := {[i]} ∪ Surface.deleteElementIds c;
                Surface.orderedDeleteIds := Surface.orderedDeleteIds c;
                Surface.deleteBlockIds := Surface.deleteBlockIds c |}) in *.
  assert (Hkids : ∀ children c0 c1,
    forEachM
      (λ childId c,
         if Surface.hasElementById childId s
         then Surface._collectElementsToDelete n s childId c
         else if decide (is_Some (Surface.blocks s !! childId))
              then Some (Surface.addBlockId childId c)
              else Some c)
      children c0 = Some c1 →
    ∃ more, Surface.orderedDeleteIds c1 = Surface.orderedDeleteIds c0 ++ more).
  { induction children as [|child children IHc]; intros d d' Hd.
    - injection Hd as <-. exists []. by rewrite app_nil_r.
    - cbn [forEachM] in Hd.
      destruct (Surface.hasElementById child s).
      + destruct (Surface._collectElementsToDelete n s child d) as [d1|] eqn:Hd1;
          [|done].
        destruct (IH _ _ _ Hd1) as (m1 & Hm1 & _).
        destruct (IHc _ _ Hd) as (m2 & Hm2).
        exists (m1 ++ m2). by rewrite Hm2, Hm1, app_assoc.
      + destruct (decide _); by apply IHc in Hd. }
  destruct (Surface.childIds element) as [children|].
  - destruct (forEachM _ children c0) as [c1|] eqn:Hc1; [|done].
    destruct (Hkids _ _ _ Hc1) as (m & Hm). injection Hrun as <-. cbn.
    exists (m ++ [i]). rewrite Hm. subst c0. cbn.
    split; [by rewrite app_assoc | intros _ _; apply last_snoc].
  - injection Hrun as <-. cbn. exists [i]. split; [done | done].
Qed.

Lemma collect_reachable fuel (s : Surface.State) root : ∀ i c c',
  Surface._collectElementsToDelete fuel s i c = Some c' →
  Surface.reachableElement s root i →
  (∀ x, x ∈ Surface.deleteElementIds c → Surface.reachableElement s root x) →
  ∀ x, x ∈ Surface.deleteElementIds c' → Surface.reachableElement s root x.
Proof.
  induction fuel as [|n IH]; intros i c c' Hrun Hi Hall; [done|].
  cbn [Surface._collectElementsToDelete] in Hrun.
  destruct (decide (i ∈ Surface.deleteElementIds c)).
  { by injection Hrun as <-. }
  destruct (Surface.getElementById i s) as [element|] eqn:Hel.
  2: { by injection Hrun as <-. }
  set (c0 := {| Surface.deleteElementIds := {[i]} ∪ Surface.deleteElementIds c;
                Surface.orderedDeleteIds := Surface.orderedDeleteIds c;
                Surface.deleteBlockIds := Surface.deleteBlockIds c |}) in *.
  assert (Hall0 : ∀ x, x ∈ Surface.deleteElementIds c0 →
                       Surface.reachableElement s root x).
  { subst c0. cbn. intros x [->%elem_of_singleton | Hx]%elem_of_union;
      [done | by apply Hall]. }
  assert (Hkids : ∀ children d d',
    (∀ child, child ∈ children →
       is_Some (Surface.getElementById child s) →
       Surface.reachableElement s root child) →
    forEachM
      (λ childId c,
         if Surface.hasElementById childId s
         then Surface._collectElementsToDelete n s childId c
         else if decide (is_Some (Surface.blocks s !! childId))
              then Some (Surface.addBlockId childId c)
              else Some c)
      children d = Some d' →
    (∀ x, x ∈ Surface.deleteElementIds d → Surface.reachableElement s root x) →
    ∀ x, x ∈ Surface.deleteElementIds d' → Surface.reachableElement s root x).
  { induction children as [|child children IHc]; intros d d' Hreach Hd Hdall.
    - by injection Hd as <-.
    - cbn [forEachM] in Hd.
      destruct (Surface.hasElementById child s) eqn:Hlive.
      + destruct (Surface._collectElementsToDelete n s child d) as [d1|] eqn:Hd1;
          [|done].
        apply (IHc d1 d'); [intros; apply Hreach; [by right | done] | done|].
        apply (IH _ _ _ Hd1); [|done].
        apply Hreach; [left | by apply hasElementById_true].
      + assert (Hrest : ∀ child', child' ∈ children →
                  is_Some (Surface.getElementById child' s) →
                  Surface.reachableElement s root child')
          by (intros; apply Hreach; [by right | done]).
        destruct (decide (is_Some (Surface.blocks s !! child))).
        * by apply (IHc (Surface.addBlockId child d) d' Hrest Hd).
        * by apply (IHc d d' Hrest Hd). }
  destruct (Surface.childIds element) as [children|] eqn:Hch.
  - destruct (forEachM _ children c0) as [c1|] eqn:Hc1; [|done].
    injection Hrun as <-. cbn.
    apply (Hkids children c0 c1); [|done | done].
    intros child Hchild Hlive. by eapply Surface.reach_child.
  - injection Hrun as <-. done.
Qed.

(** The run of the collection for a live element, with what the
    invariants give at its end. *)
Lemma collect_run (i : string) (s : Surface.State) :
  is_Some (Surface.getElementById i s) →
  ∃ c,
    Surface._collectElementsToDelete (S (size (Surface._elementModels s))) s i
      Surface.emptyCollected = Some c
    ∧ Surface.collectInv s ∅ c
    ∧ i ∈ Surface.deleteElementIds c
    ∧ last (Surface.orderedDeleteIds c) = Some i
    ∧ (∀ x, x ∈ Surface.deleteElementIds c → Surface.reachableElement s i x).
Proof.
  intros Hlive.
  destruct (collectElementsToDelete_enough
              (S (size (Surface._elementModels s))) s i Surface.emptyCollected)
    as (c & Hrun & _).
  { cbn. rewrite difference_empty_L, size_dom. lia. }
  exists c. split; [done|].
  assert (Hinv0 : Surface.collectInv s ∅ Surface.emptyCollected).
  { unfold Surface.collectInv. cbn.
    repeat split; try apply NoDup_nil_2; try set_solver. }
  destruct (collect_inv _ s ∅ _ _ _ Hrun Hinv0) as (Hinv & _ & Hin).
  destruct (collect_appends _ s _ _ _ Hrun) as (more & Hmore & Hlast).
  cbn in Hmore. subst more.
  split; [done|]. split; [by apply Hin|].
  split; [apply Hlast; [set_solver | done]|].
  apply (collect_reachable _ s i _ _ _ Hrun); [constructor | set_solver].
Qed.

(** On a finished collection that holds the root, the listed ids are the
    reachable live elements. *)
Lemma collected_reachable (i : string) (s : Surface.State)
    (c : Surface.Collected) :
  Surface.collectInv s ∅ c →
  i ∈ Surface.deleteElementIds c →
  (∀ x, x ∈ Surface.deleteElementIds c → Surface.reachableElement s i x) →
  ∀ x, x ∈ Surface.orderedDeleteIds c ↔ Surface.reachableElement s i x.
Proof.
  intros (_ & Hmarks & _ & _ & Hclosed & _) Hroot Hsound x.
  assert (Hset : ∀ y, y ∈ Surface.deleteElementIds c
                      ↔ y ∈ Surface.orderedDeleteIds c)
    by (intros y; rewrite Hmarks; set_solver).
  split.
  - intros Hx. by apply Hsound, Hset.
  - intros Hreach.
    induction Hreach as [|y el children child _ IHy Hel Hch Hc Hl].
    + by apply Hset.
    + apply Hset. by eapply Hclosed.
Qed.

(** X11.  The closure [deleteElement] collects for a live element: the
    element itself comes last in the deletion order, the order lists each
    collected id once, the collected ids are exactly the live elements
    reached from it through [childIds], and the queued blocks are
    distinct ids of blocks that are not elements. *)
Theorem collectElementsToDelete_closure (i : string) (s : Surface.State) :
  is_Some (Surface.getElementById i s) →
  ∃ c,
    Surface._collectElementsToDelete (S (size (Surface._elementModels s))) s i
      Surface.emptyCollected = Some c
    ∧ last (Surface.orderedDeleteIds c) = Some i
    ∧ NoDup (Surface.orderedDeleteIds c)
    ∧ (∀ x, x ∈ Surface.orderedDeleteIds c ↔ Surface.reachableElement s i x)
    ∧ (∀ x, x ∈ Surface.deleteElementIds c ↔ x ∈ Surface.orderedDeleteIds c)
    ∧ NoDup (Surface.deleteBlockIds c)
    ∧ (∀ b, b ∈ Surface.deleteBlockIds c →
         Surface.getElementById b s = None
         ∧ is_Some (Surface.blocks s !! b)).
Proof.
  intros Hlive.
  destruct (collect_run i s Hlive) as (c & Hrun & Hinv & Hroot & Hlast & Hsound).
  exists c. split; [done|]. split; [done|].
  pose proof (collected_reachable i s c Hinv Hroot Hsound) as Hreach.
  destruct Hinv as (Hnd & Hmarks & _ & _ & _ & Hndb & Hblocks).
  split; [done|]. split; [done|]. split; [|done].
  intros x. rewrite Hmarks. set_solver.
Qed.

Lemma collectElementsToDelete_closure_witness :
  ∃ c,
    Surface._collectElementsToDelete 4 Surface.groupWithChildren "g"
      Surface.emptyCollected = Some c
    ∧ last (Surface.orderedDeleteIds c) = Some "g"
    ∧ NoDup (Surface.orderedDeleteIds c)
    ∧ (∀ x, x ∈ Surface.orderedDeleteIds c
            ↔ Surface.reachableElement Surface.groupWithChildren "g" x)
    ∧ (∀ x, x ∈ Surface.deleteElementIds c ↔ x ∈ Surface.orderedDeleteIds c)
    ∧ NoDup (Surface.deleteBlockIds c)
    ∧ (∀ b, b ∈ Surface.deleteBlockIds c →
         Surface.getElementById b Surface.groupWithChildren = None
         ∧ is_Some (Surface.blocks Surface.groupWithChildren !! b)).
Proof.
  apply (collectElementsToDelete_closure "g" Surface.groupWithChildren).
  vm_compute. by eexists.
Defined.

Lemma elementModels_getGroup elem (s : Surface.State) :
  Surface._elementModels (Surface.getGroup elem s).2
  = Surface._elementModels s.
Proof. by destruct (getGroup_frame elem s) as (pm & ->). Qed.

Lemma elementModels_onElementDeleted i (s : Surface.State) :
  Surface._elementModels (Surface.onElementDeleted i s)
  = delete i (Surface._elementModels s).
Proof.
  unfold Surface.onElementDeleted.
  destruct (Surface._elementModels s !! i) as [model|] eqn:Hi;
    [|by rewrite delete_id].
  by destruct (Surface.childIds model).
Qed.

Lemma dom_elements_deleted (l : list string) : ∀ s0 : Surface.State,
  dom (Surface._elementModels
         (foldl (λ s i, Surface.onElementDeleted i s) s0 l))
  = dom (Surface._elementModels s0) ∖ list_to_set l.
Proof.
  induction l as [|i l IH]; intros s0; cbn [foldl list_to_set].
  - by rewrite difference_empty_L.
  - rewrite IH, elementModels_onElementDeleted, dom_delete_L. set_solver.
Qed.

(** [detachedParentGroup] is the decision of
    [_removeFromParentGroupIfNeeded]. *)
Lemma removeFromParent_detached removeChild e ids (s : Surface.State) :
  Surface._removeFromParentGroupIfNeeded removeChild e ids s
  = match Surface.detachedParentGroup e ids s with
    | (Some g, s1) => removeChild g e s1
    | (None, s1) => s1
    end.
Proof.
  unfold Surface._removeFromParentGroupIfNeeded, Surface.detachedParentGroup.
  destruct (match Surface._parentGroupMap s !! e with
            | Some p => truthy p && bool_decide (p ∈ ids)
            | None => false
            end); [done|].
  destruct (match Surface._parentGroupMap s !! e with
            | Some p => if truthy p
                        then Surface.groupLike_get p (Surface._groupLikeModels s)
                        else None
            | None => None
            end) as [g|].
  - by destruct (decide _).
  - destruct (Surface.getGroup (Surface.ById e) s) as [[g|] s1]; [|done].
    by destruct (decide _).
Qed.

Lemma lookup_elements_deleted (l : list string) :
  ∀ (s0 : Surface.State) x,
    Surface._elementModels
      (foldl (λ s i, Surface.onElementDeleted i s) s0 l) !! x
    = if decide (x ∈ l) then None else Surface._elementModels s0 !! x.
Proof.
  induction l as [|i l IH]; intros s0 x; [done|].
  cbn [foldl]. rewrite IH, elementModels_onElementDeleted.
  destruct (decide (x ∈ l)) as [Hx | Hx].
  - rewrite decide_True; [done | by right].
  - destruct (decide (x = i)) as [-> | Hne].
    + rewrite decide_True; [apply lookup_delete_eq | by left].
    + rewrite decide_False; [by apply lookup_delete_ne|].
      by intros [-> | ?]%elem_of_cons.
Qed.

(** From a group without children nothing but the group is reached. *)
Lemma reachable_childless (s : Surface.State) j element x :
  Surface.getElementById j s = Some element →
  Surface.childIds element = Some [] →
  Surface.reachableElement s j x → x = j.
Proof.
  intros Hj Hnone Hreach.
  induction Hreach as [|y el children child _ IH Hel Hch Hc _]; [done|].
  subst y. rewrite Hj in Hel. injection Hel as <-.
  rewrite Hnone in Hch. injection Hch as <-. by apply not_elem_of_nil in Hc.
Qed.

Section DeleteFacts.
Variable removeChild :
  Surface.GroupModel → string → Surface.State → Surface.State.
Hypothesis removeChild_dom : ∀ g e s,
  dom (Surface._elementModels (removeChild g e s))
  = dom (Surface._elementModels s).
Hypothesis removeChild_plain : ∀ g e s x model,
  Surface._elementModels s !! x = Some model →
  Surface.childIds model = None →
  Surface._elementModels (removeChild g e s) !! x = Some model.

(** What the steps of the transaction keep: the set of element ids, and
    the model of every element that is not a group. *)
Local Abbreviation keeps s s' :=
  (dom (Surface._elementModels s') = dom (Surface._elementModels s)
   ∧ ∀ x model, Surface._elementModels s !! x = Some model →
                Surface.childIds model = None →
                Surface._elementModels s' !! x = Some model).

Lemma keeps_removeFromParent e ids (s : Surface.State) :
  keeps s (Surface._removeFromParentGroupIfNeeded removeChild e ids s).
Proof.
  rewrite removeFromParent_detached.
  unfold Surface.detachedParentGroup.
  destruct (match Surface._parentGroupMap s !! e with
            | Some p => truthy p && bool_decide (p ∈ ids)
            | None => false
            end); [done|].
  destruct (match Surface._parentGroupMap s !! e with
            | Some p => if truthy p
                        then Surface.groupLike_get p (Surface._groupLikeModels s)
                        else None
            | None => None
            end) as [g|].
  - destruct (decide _); [done|].
    split; [apply removeChild_dom | by intros; apply removeChild_plain].
  - pose proof (elementModels_getGroup (Surface.ById e) s) as Hframe.
    destruct (Surface.getGroup (Surface.ById e) s) as [[g|] s1];
      cbn [snd] in Hframe; [|by rewrite Hframe].
    destruct (decide _); [by rewrite Hframe|].
    split; [by rewrite removeChild_dom, Hframe|].
    intros x model Hx Hplain. apply removeChild_plain; [|done].
    by rewrite Hframe.
Qed.

Lemma keeps_onBlockDeleted i block (s : Surface.State) :
  keeps s (Surface.onBlockDeleted removeChild i block s).1.
Proof.
  unfold Surface.onBlockDeleted.
  set (s1 := if Surface.isGroupCompatibleBlock block then _ else _).
  assert (Hs1 : Surface._elementModels s1 = Surface._elementModels s)
    by (subst s1; by destruct (Surface.isGroupCompatibleBlock block)).
  pose proof (elementModels_getGroup (Surface.ById i) s1) as Hframe.
  destruct (Surface.getGroup (Surface.ById i) s1) as [[g|] s2];
    cbn [snd] in Hframe; cbn [fst Surface.set_parentGroupMap
                              Surface._elementModels].
  - split; [rewrite removeChild_dom; congruence|].
    intros x model Hx Hplain. apply removeChild_plain; [|done]. congruence.
  - split; [congruence|]. intros x model Hx _. congruence.
Qed.

(** The first loop of the transaction: every collected id is still a
    live element when its turn comes, so all of them are deleted. *)
Lemma deleteTransaction_keys ids (l : list string) :
  ∀ (s0 : Surface.State) keys0 (reports0 : list Surface.ElementUpdatedData),
    (∀ x, x ∈ l → x ∈ dom (Surface._elementModels s0)) →
    ∃ s1 reports1,
      foldl (λ '(s, keys, reports) elementId,
               match Surface.getElementById elementId s with
               | None => (s, keys, reports)
               | Some element =>
                   (Surface._removeFromParentGroupIfNeeded removeChild
                      (Surface.id element) ids s,
                    keys ++ [elementId],
                    reports
                    ++ match Surface.detachedParentGroup
                               (Surface.id element) ids s with
                       | (Some g, s1) =>
                           Surface.childIdsChange g s1
                             (removeChild g (Surface.id element) s1)
                       | (None, _) => []
                       end)
               end)
            (s0, keys0, reports0) l = (s1, keys0 ++ l, reports1)
      ∧ keeps s0 s1.
Proof.
  induction l as [|x l IH]; intros s0 keys0 reports0 Hlive.
  - exists s0, reports0. by rewrite app_nil_r.
  - cbn [foldl].
    assert (Hx : is_Some (Surface.getElementById x s0))
      by (apply elem_of_dom, Hlive; left).
    destruct Hx as [el Hel]. rewrite Hel.
    destruct (keeps_removeFromParent (Surface.id el) ids s0) as [Hd Hp].
    edestruct (IH (Surface._removeFromParentGroupIfNeeded removeChild
                     (Surface.id el) ids s0) (keys0 ++ [x]))
      as (s1 & reports1 & Hs1 & Hdom & Hplain).
    { intros y Hy. rewrite Hd. apply Hlive. by right. }
    exists s1, reports1. rewrite Hs1, <- app_assoc. split; [done|].
    split; [by rewrite Hdom|]. intros y model Hy Hnone.
    apply Hplain; [by apply Hp | done].
Qed.

Lemma deleteTransaction_blocks ids (l : list string) :
  ∀ (s0 : Surface.State) (bs0 : list (string * Surface.BlockModel))
    (reports0 : list Surface.ElementUpdatedData),
    keeps s0
      (foldl (λ '(s, bs, reports) blockId,
                match Surface.blocks s !! blockId with
                | None => (s, bs, reports)
                | Some block =>
                    (Surface._removeFromParentGroupIfNeeded removeChild
                       blockId ids s,
                     bs ++ [(blockId, block)],
                     reports
                     ++ match Surface.detachedParentGroup blockId ids s
                        with
                        | (Some g, s1) =>
                            Surface.childIdsChange g s1
                              (removeChild g blockId s1)
                        | (None, _) => []
                        end)
                end)
             (s0, bs0, reports0) l).1.1.
Proof.
  induction l as [|x l IH]; intros s0 bs0 reports0; [done|].
  cbn [foldl]. destruct (Surface.blocks s0 !! x); [|apply IH].
  destruct (keeps_removeFromParent x ids s0) as [Hd Hp].
  edestruct IH as [Hd' Hp']. split.
  - rewrite Hd'. exact Hd.
  - intros y model Hy Hnone. apply Hp'; [by apply Hp | done].
Qed.

Lemma keeps_blocks_deleted (l : list (string * Surface.BlockModel)) :
  ∀ (s0 : Surface.State) (reports0 : list Surface.ElementUpdatedData),
    keeps s0
      (foldl (λ '(s, reports) '(i, block),
                let '(s, more) :=
                  Surface.onBlockDeleted removeChild i block s in
                (s, reports ++ more))
             (s0, reports0) l).1.
Proof.
  induction l as [|[i block] l IH]; intros s0 reports0; [done|].
  cbn [foldl].
  destruct (keeps_onBlockDeleted i block s0) as [Hd Hp].
  destruct (Surface.onBlockDeleted removeChild i block s0) as [s1 more].
  cbn [fst] in Hd, Hp.
  edestruct IH as [Hd' Hp']. split.
  - rewrite Hd'. exact Hd.
  - intros y model Hy Hnone. apply Hp'; [by apply Hp | done].
Qed.

(** The transaction up to the point where the groups report: the
    collected elements are gone, no other id is, and the elements that
    are not groups are as they were. *)
Lemma deleteTransaction_phases (c : Surface.Collected) (s : Surface.State) :
  (∀ x, x ∈ Surface.orderedDeleteIds c →
        x ∈ dom (Surface._elementModels s)) →
  ∃ s4 reports4,
    (∀ deleteSelf,
       Surface.deleteTransaction removeChild deleteSelf c s
       = forEachM (Surface.onChange deleteSelf) reports4 s4)
    ∧ dom (Surface._elementModels s4)
      = dom (Surface._elementModels s)
        ∖ list_to_set (Surface.orderedDeleteIds c)
    ∧ (∀ x model, Surface._elementModels s !! x = Some model →
                  Surface.childIds model = None →
                  x ∉ Surface.orderedDeleteIds c →
                  Surface._elementModels s4 !! x = Some model).
Proof.
  intros Hlive. unfold Surface.deleteTransaction.
  destruct (deleteTransaction_keys (Surface.deleteElementIds c)
              (Surface.orderedDeleteIds c) s [] [] Hlive)
    as (s1 & reports1 & -> & Hdom1 & Hplain1).
  cbn [app].
  destruct (deleteTransaction_blocks (Surface.deleteElementIds c)
              (Surface.deleteBlockIds c) s1 [] reports1) as [Hdom2 Hplain2].
  destruct (foldl _ (s1, [], reports1) (Surface.deleteBlockIds c))
    as [[s2 blocks2] reports2].
  cbn [fst] in Hdom2, Hplain2.
  destruct (keeps_blocks_deleted blocks2
              (foldl (λ s i, Surface.onElementDeleted i s) s2
                 (Surface.orderedDeleteIds c)) reports2) as [Hdom4 Hplain4].
  destruct (foldl _ (foldl _ s2 (Surface.orderedDeleteIds c), reports2)
              blocks2) as [s4 reports4].
  cbn [fst] in Hdom4, Hplain4.
  exists s4, reports4. split; [done|]. split.
  - by rewrite Hdom4, dom_elements_deleted, Hdom2, Hdom1.
  - intros x model Hx Hnone Hout. apply Hplain4; [|done].
    rewrite lookup_elements_deleted, decide_False by done.
    apply Hplain2; [|done]. by apply Hplain1.
Qed.

Lemma reports_shrink n
    (deleteSelf : string → Surface.State → option Surface.State)
    (reports : list Surface.ElementUpdatedData) :
  Surface.shrinks n deleteSelf →
  ∀ st, size (dom (Surface._elementModels st)) < n →
    ∃ st', forEachM (Surface.onChange deleteSelf) reports st = Some st'
           ∧ dom (Surface._elementModels st')
             ⊆ dom (Surface._elementModels st).
Proof.
  intros Hself. induction reports as [|payload reports IH]; intros st Hlt.
  - by exists st.
  - cbn [forEachM].
    assert (Hstep : ∃ st1,
      Surface.onChange deleteSelf payload st = Some st1
      ∧ dom (Surface._elementModels st1)
        ⊆ dom (Surface._elementModels st)).
    { unfold Surface.onChange.
      destruct (Surface.getElementById _ st) as [model|]; [|by exists st].
      unfold Surface._emitElementUpdated.
      set (st0 := match Surface.childIds model with
                  | Some children => _
                  | None => st
                  end).
      assert (Hst0 : Surface._elementModels st0 = Surface._elementModels st).
      { subst st0. destruct (Surface.childIds model); [|done].
        by destruct (_ || _). }
      unfold Surface._watchGroupRelationChange.
      destruct (Surface.getElementById _ st0) as [element|];
        [|exists st0; by rewrite Hst0].
      destruct (Surface.childIds element) as [[|? ?]|];
        try (exists st0; by rewrite Hst0).
      destruct (Surface.oldTruthy _); [|exists st0; by rewrite Hst0].
      destruct (Hself (Surface.updatedId payload) st0) as (st1 & Hrun & Hsub).
      { by rewrite Hst0. }
      exists st1. split; [done|]. by rewrite <- Hst0. }
    destruct Hstep as (st1 & -> & Hsub1).
    destruct (IH st1) as (st2 & Hrun & Hsub2).
    { eapply Nat.le_lt_trans; [|exact Hlt]. by apply subseteq_size. }
    exists st2. split; [done|]. set_solver.
Qed.

(** The reports leave alone an element that is not a group, provided the
    nested [deleteElement] leaves alone what it does not reach. *)
Lemma reports_keep_plain
    (deleteSelf : string → Surface.State → option Surface.State)
    (reports : list Surface.ElementUpdatedData) x model :
  Surface.childIds model = None →
  (∀ j st st', deleteSelf j st = Some st' →
     Surface._elementModels st !! x = Some model →
     ¬ Surface.reachableElement st j x →
     Surface._elementModels st' !! x = Some model) →
  ∀ st st',
    forEachM (Surface.onChange deleteSelf) reports st = Some st' →
    Surface._elementModels st !! x = Some model →
    Surface._elementModels st' !! x = Some model.
Proof.
  intros Hnone Hself. induction reports as [|payload reports IH];
    intros st st' Hrun Hx.
  - by injection Hrun as <-.
  - cbn [forEachM] in Hrun.
    destruct (Surface.onChange deleteSelf payload st) as [st1|] eqn:Hstep;
      [|done].
    apply (IH st1 st' Hrun). clear Hrun IH.
    unfold Surface.onChange in Hstep.
    destruct (Surface.getElementById _ st) as [m|];
      [|by injection Hstep as <-].
    unfold Surface._emitElementUpdated in Hstep.
    set (st0 := match Surface.childIds m with
                | Some children => _
                | None => st
                end) in Hstep.
    assert (Hst0 : Surface._elementModels st0 = Surface._elementModels st).
    { subst st0. destruct (Surface.childIds m); [|done].
      by destruct (_ || _). }
    rewrite <- Hst0 in Hx. clearbody st0.
    unfold Surface._watchGroupRelationChange in Hstep.
    destruct (Surface.getElementById _ st0) as [element|] eqn:Hel;
      [|by injection Hstep as <-].
    destruct (Surface.childIds element) as [[|? ?]|] eqn:Hch;
      try (by injection Hstep as <-).
    destruct (Surface.oldTruthy _); [|by injection Hstep as <-].
    apply (Hself _ _ _ Hstep Hx).
    intros Hreach. apply (reachable_childless _ _ _ _ Hel Hch) in Hreach.
    subst x. unfold Surface.getElementById in Hel. congruence.
Qed.

Lemma deleteElement_fuel_shrinks n : ∀ i (s : Surface.State),
  size (dom (Surface._elementModels s)) < n →
  ∃ o s',
    Surface.deleteElement_fuel removeChild n i s = Some (o, s')
    ∧ dom (Surface._elementModels s') ⊆ dom (Surface._elementModels s)
    ∧ (Surface.readonly s = false →
       is_Some (Surface.getElementById i s) →
       o = Surface.Return ()
       ∧ ∀ x, Surface.reachableElement s i x →
              x ∉ dom (Surface._elementModels s')).
Proof.
  induction n as [|n IH]; intros i s Hlt; [lia|].
  cbn [Surface.deleteElement_fuel].
  destruct (Surface.readonly s) eqn:Hro.
  { eexists _, s. split; [done|]. split; [done|]. by intros ?. }
  destruct (Surface.hasElementById i s) eqn:Hhas; cbn [negb].
  2: { eexists _, s. split; [done|]. split; [done|].
       intros _ Hlive. apply hasElementById_true in Hlive. congruence. }
  apply hasElementById_true in Hhas.
  destruct (collect_run i s Hhas)
    as (c & -> & Hinv & Hroot & Hlast & Hsound).
  pose proof (collected_reachable i s c Hinv Hroot Hsound) as Hreach.
  destruct Hinv as (_ & Hmarks & _ & Hlives & _).
  assert (Hi : i ∈ Surface.orderedDeleteIds c).
  { destruct (Hmarks i) as [[Hin | Hin] _]; [done | done | set_solver]. }
  assert (Hlive : ∀ x, x ∈ Surface.orderedDeleteIds c →
                       x ∈ dom (Surface._elementModels s)).
  { intros x Hx. apply elem_of_dom, Hlives, Hmarks. by left. }
  destruct (deleteTransaction_phases c s Hlive)
    as (s4 & reports4 & Hrun & Hdom4 & _).
  destruct (reports_shrink n
              (λ j st, snd <$> Surface.deleteElement_fuel removeChild n j st)
              reports4) with (st := s4) as (s' & Hrep & Hsub).
  { intros j st Hst. destruct (IH j st Hst) as (o & st' & -> & Hst' & _).
    by exists st'. }
  { rewrite Hdom4.
    assert (size (dom (Surface._elementModels s)
                  ∖ list_to_set (Surface.orderedDeleteIds c))
            < size (dom (Surface._elementModels s))); [|lia].
    apply subset_size. specialize (Hlive i Hi).
    assert (i ∈ (list_to_set (Surface.orderedDeleteIds c) : gset string))
      by (by apply elem_of_list_to_set).
    set_solver. }
  destruct (Surface.orderedDeleteIds c) as [|o os] eqn:Hord;
    [by apply not_elem_of_nil in Hi|].
  rewrite <- Hord in *. rewrite Hrun, Hrep.
  eexists _, s'. split; [done|]. split; [set_solver|].
  intros _ _. split; [done|].
  intros x Hx%Hreach Hx'. apply Hsub in Hx'.
  assert (x ∈ (list_to_set (Surface.orderedDeleteIds c) : gset string))
    by (by apply elem_of_list_to_set).
  set_solver.
Qed.

Lemma deleteElement_fuel_keeps_plain n x model :
  Surface.childIds model = None →
  ∀ i (s : Surface.State) o s',
    Surface.deleteElement_fuel removeChild n i s = Some (o, s') →
    Surface._elementModels s !! x = Some model →
    ¬ Surface.reachableElement s i x →
    Surface._elementModels s' !! x = Some model.
Proof.
  intros Hnone. induction n as [|n IH]; intros i s o s' Hrun Hx Hout; [done|].
  cbn [Surface.deleteElement_fuel] in Hrun.
  destruct (Surface.readonly s); [by injection Hrun as <- <-|].
  destruct (Surface.hasElementById i s) eqn:Hhas; cbn [negb] in Hrun;
    [|by injection Hrun as <- <-].
  apply hasElementById_true in Hhas.
  destruct (collect_run i s Hhas)
    as (c & Hc & Hinv & Hroot & Hlast & Hsound).
  rewrite Hc in Hrun.
  pose proof (collected_reachable i s c Hinv Hroot Hsound) as Hreach.
  destruct Hinv as (_ & Hmarks & _ & Hlives & _).
  assert (Hlive : ∀ y, y ∈ Surface.orderedDeleteIds c →
                       y ∈ dom (Surface._elementModels s)).
  { intros y Hy. apply elem_of_dom, Hlives, Hmarks. by left. }
  destruct (Surface.orderedDeleteIds c) as [|o1 os] eqn:Hord;
    [by injection Hrun as <- <-|].
  rewrite <- Hord in *.
  destruct (deleteTransaction_phases c s Hlive)
    as (s4 & reports4 & Hphases & _ & Hplain4).
  rewrite Hphases in Hrun.
  destruct (forEachM _ reports4 s4) as [s5|] eqn:Hrep; [|done].
  injection Hrun as <- <-.
  apply (reports_keep_plain
           (λ j st, snd <$> Surface.deleteElement_fuel removeChild n j st)
           reports4 x model Hnone) with (st := s4) (st' := s5); [|done|].
  - intros j st st' Hj Hxst Hjout.
    destruct (Surface.deleteElement_fuel removeChild n j st)
      as [[o' st'']|] eqn:Hnested; [|done].
    injection Hj as <-. by eapply IH.
  - apply Hplain4; [done | done|]. by rewrite Hreach.
Qed.

End DeleteFacts.

Lemma removeChildOfElement_dom g e (s : Surface.State) :
  dom (Surface._elementModels (Surface.removeChildOfElement g e s))
  = dom (Surface._elementModels s).
Proof.
  unfold Surface.removeChildOfElement.
  destruct (Surface._elementModels s !! Surface.gid g) as [model|] eqn:Hg;
    [|done].
  cbn. rewrite dom_insert_L.
  assert (Surface.gid g ∈ dom (Surface._elementModels s))
    by (apply elem_of_dom; eauto).
  set_solver.
Qed.

Lemma removeChildOfElement_plain g e (s : Surface.State) x model :
  Surface._elementModels s !! x = Some model →
  Surface.childIds model = None →
  Surface._elementModels (Surface.removeChildOfElement g e s) !! x
  = Some model.
Proof.
  intros Hx Hnone. unfold Surface.removeChildOfElement.
  destruct (Surface._elementModels s !! Surface.gid g) as [m|] eqn:Hg;
    [|done].
  cbn. destruct (decide (x = Surface.gid g)) as [-> | Hne].
  - rewrite lookup_insert_eq. rewrite Hg in Hx. injection Hx as ->.
    destruct model as [mi mt mc]. cbn in Hnone. by subst mc.
  - by rewrite lookup_insert_ne.
Qed.


(** The group that loses its last child deletes itself, and so does the
    group around it: deleting [leaf] leaves the shape [t] alone. *)
Example deleteElement_self_destruct_test :
  match Surface.deleteElement Surface.removeChildOfElement "leaf"
          Surface.nestedGroupsState with
  | Some (Surface.Return _, s') =>
      dom (Surface._elementModels s') = {[ "t" ]}
      ∧ Surface._groupLikeModels s' = []
      ∧ Surface._parentGroupMap s' = ∅
      ∧ Surface._groupChildIdsMap s' = ∅
  | _ => False
  end.
Proof. vm_compute. repeat split. Qed.

(** A group that keeps other children stays: deleting [s] takes it out
    of the child list of [g] and out of the index, and nothing else. *)
Example deleteElement_keeps_group_test :
  match Surface.deleteElement Surface.removeChildOfElement "s"
          Surface.groupWithChildren with
  | Some (Surface.Return _, s') =>
      dom (Surface._elementModels s') = {[ "g"; "t" ]}
      ∧ (Surface.childIds <$> Surface.getElementById "g" s')
        = Some (Some ["blk"; "gone"])
      ∧ Surface._parentGroupMap s' = {[ "blk" := "g"; "gone" := "g" ]}
      ∧ Surface._groupChildIdsMap s' = {[ "g" := ["blk"; "gone"] ]}
  | _ => False
  end.
Proof. vm_compute. repeat split. Qed.

(** ** Maintenance of the connector index *)

Section ConnectorIndexExact.
Implicit Types (s : AffineSurface.State) (e c : string).
Implicit Types (k : AffineSurface.ConnectorElementModel).

Local Abbreviation pairOf k :=
  {| AffineSurface.sourceId := AffineSurface.source k;
     AffineSurface.targetId := AffineSurface.target k |}.

Lemma endpoints_setConnectorEndpoints k s c :
  AffineSurface._connectorEndpoints (AffineSurface._setConnectorEndpoints k s)
    !! c
  = if decide (c = AffineSurface.cid k) then Some (pairOf k)
    else AffineSurface._connectorEndpoints s !! c.
Proof.
  unfold AffineSurface._setConnectorEndpoints.
  destruct (AffineSurface._connectorEndpoints s !! AffineSurface.cid k)
    as [p|] eqn:Hp.
  - destruct (bool_decide (AffineSurface.sourceId p = AffineSurface.source k))
      eqn:Hsrc;
      [destruct (bool_decide
                   (AffineSurface.targetId p = AffineSurface.target k))
         eqn:Htgt|]; cbn [andb].
    + apply bool_decide_eq_true in Hsrc, Htgt.
      destruct (decide (c = AffineSurface.cid k)) as [-> | Hne]; [|done].
      rewrite Hp. destruct p. cbn in *. by subst.
    + cbn [AffineSurface.set_endpoints AffineSurface._connectorEndpoints].
      rewrite (proj1 (endpoints_addIfSet _ _ _)),
        (proj1 (endpoints_addIfSet _ _ _)),
        (proj1 (endpoints_removeIfSet _ _ _)),
        (proj1 (endpoints_removeIfSet _ _ _)).
      destruct (decide (c = AffineSurface.cid k)) as [-> | Hne];
        [by rewrite lookup_insert_eq | by rewrite lookup_insert_ne].
    + cbn [AffineSurface.set_endpoints AffineSurface._connectorEndpoints].
      rewrite (proj1 (endpoints_addIfSet _ _ _)),
        (proj1 (endpoints_addIfSet _ _ _)),
        (proj1 (endpoints_removeIfSet _ _ _)),
        (proj1 (endpoints_removeIfSet _ _ _)).
      destruct (decide (c = AffineSurface.cid k)) as [-> | Hne];
        [by rewrite lookup_insert_eq | by rewrite lookup_insert_ne].
  - cbn [AffineSurface.set_endpoints AffineSurface._connectorEndpoints].
    rewrite (proj1 (endpoints_addIfSet _ _ _)),
      (proj1 (endpoints_addIfSet _ _ _)).
    destruct (decide (c = AffineSurface.cid k)) as [-> | Hne];
      [by rewrite lookup_insert_eq | by rewrite lookup_insert_ne].
Qed.

Lemma base_setConnectorEndpoints k s :
  AffineSurface.base (AffineSurface._setConnectorEndpoints k s)
  = AffineSurface.base s.
Proof.
  unfold AffineSurface._setConnectorEndpoints.
  destruct (match AffineSurface._connectorEndpoints s !! AffineSurface.cid k
            with Some p => _ | None => false end); [done|].
  cbn [AffineSurface.set_endpoints AffineSurface.base].
  rewrite (proj2 (endpoints_addIfSet _ _ _)),
    (proj2 (endpoints_addIfSet _ _ _)).
  destruct (AffineSurface._connectorEndpoints s !! AffineSurface.cid k);
    [|done].
  by rewrite (proj2 (endpoints_removeIfSet _ _ _)),
    (proj2 (endpoints_removeIfSet _ _ _)).
Qed.

(** Membership in the index after a call that does change the cached
    pair: the connector is listed where the new pair attaches it, its old
    listings are dropped, and the other ids stay. *)
Lemma elem_of_index_setConnectorEndpoints k s e c :
  ¬ (∃ p, AffineSurface._connectorEndpoints s !! AffineSurface.cid k = Some p
          ∧ AffineSurface.sourceId p = AffineSurface.source k
          ∧ AffineSurface.targetId p = AffineSurface.target k) →
  c ∈ AffineSurface.indexOf (AffineSurface._setConnectorEndpoints k s) e
  ↔ (c = AffineSurface.cid k ∧ AffineSurface.attached (pairOf k) e)
    ∨ (c ∈ AffineSurface.indexOf s e
       ∧ ¬ (c = AffineSurface.cid k
            ∧ ∃ p, AffineSurface._connectorEndpoints s
                     !! AffineSurface.cid k = Some p
                   ∧ AffineSurface.attached p e)).
Proof.
  intros Hchanged. unfold AffineSurface._setConnectorEndpoints.
  unfold AffineSurface.attached. cbn [AffineSurface.sourceId
    AffineSurface.targetId].
  destruct (AffineSurface._connectorEndpoints s !! AffineSurface.cid k)
    as [p|] eqn:Hp.
  - assert (bool_decide (AffineSurface.sourceId p = AffineSurface.source k)
            && bool_decide (AffineSurface.targetId p = AffineSurface.target k)
            = false) as ->.
    { apply andb_false_iff. rewrite !bool_decide_eq_false.
      destruct (decide (AffineSurface.sourceId p = AffineSurface.source k));
        [|by left].
      right. intros Ht. apply Hchanged. by exists p. }
    change (AffineSurface.indexOf (AffineSurface.set_endpoints ?m ?s0) e)
      with (AffineSurface.indexOf s0 e).
    rewrite !indexOf_addIfSet, !indexOf_removeIfSet.
    repeat case_decide;
      rewrite ?elem_of_setAdd, ?elem_of_setDelete; naive_solver.
  - change (AffineSurface.indexOf (AffineSurface.set_endpoints ?m ?s0) e)
      with (AffineSurface.indexOf s0 e).
    rewrite !indexOf_addIfSet.
    repeat case_decide;
      rewrite ?elem_of_setAdd; naive_solver.
Qed.

Lemma setConnectorEndpoints_unchanged k s :
  (∃ p, AffineSurface._connectorEndpoints s !! AffineSurface.cid k = Some p
        ∧ AffineSurface.sourceId p = AffineSurface.source k
        ∧ AffineSurface.targetId p = AffineSurface.target k) →
  AffineSurface._setConnectorEndpoints k s = s.
Proof.
  intros (p & Hp & Hs & Ht). unfold AffineSurface._setConnectorEndpoints.
  rewrite Hp. by rewrite !bool_decide_eq_true_2.
Qed.

Lemma setConnectorEndpoints_cases k s :
  (∃ p, AffineSurface._connectorEndpoints s !! AffineSurface.cid k = Some p
        ∧ AffineSurface.sourceId p = AffineSurface.source k
        ∧ AffineSurface.targetId p = AffineSurface.target k)
  ∨ ¬ (∃ p, AffineSurface._connectorEndpoints s !! AffineSurface.cid k
            = Some p
          ∧ AffineSurface.sourceId p = AffineSurface.source k
          ∧ AffineSurface.targetId p = AffineSurface.target k).
Proof.
  destruct (AffineSurface._connectorEndpoints s !! AffineSurface.cid k)
    as [p|]; [|right; by intros (? & ? & _)].
  destruct (decide (AffineSurface.sourceId p = AffineSurface.source k));
    [|right; intros (? & [= <-] & ? & _); done].
  destruct (decide (AffineSurface.targetId p = AffineSurface.target k));
    [|right; intros (? & [= <-] & _ & ?); done].
  left. by exists p.
Qed.

Lemma setConnectorEndpoints_keeps_exact k s :
  AffineSurface.indexExact s →
  AffineSurface.indexExact (AffineSurface._setConnectorEndpoints k s).
Proof.
  intros Hexact.
  destruct (setConnectorEndpoints_cases k s) as [Hsame | Hch].
  { by rewrite setConnectorEndpoints_unchanged. }
  intros e c. rewrite (elem_of_index_setConnectorEndpoints _ _ _ _ Hch).
  rewrite endpoints_setConnectorEndpoints, (Hexact e c).
  destruct (decide (c = AffineSurface.cid k)) as [-> | Hne]; naive_solver.
Qed.
End ConnectorIndexExact.

Lemma clearConnectorIndex_exact (s : AffineSurface.State) :
  AffineSurface.indexExact (AffineSurface.clearConnectorIndex s).
Proof.
  intros e c. unfold AffineSurface.indexOf. cbn. rewrite !lookup_empty. cbn.
  split; [by intros ?%not_elem_of_nil | by intros (? & ? & _)].
Qed.

Lemma indexExact_backed (s : AffineSurface.State) :
  AffineSurface.indexExact s → AffineSurface.indexBacked s.
Proof.
  intros Hexact e c Hin. apply Hexact in Hin as (ep & Hep & Ht & Hor).
  split; [done|]. by exists ep.
Qed.

(** X13.  On an index that agrees with the cached endpoint pairs,
    [_setConnectorEndpoints] leaves the connector listed under exactly the
    non-empty ids among its source and target, caches that pair, and
    changes the listing of no other connector; the index still agrees
    with the cached pairs afterwards. *)
Theorem setConnectorEndpoints_indexes_connector
    (k : AffineSurface.ConnectorElementModel) (s : AffineSurface.State) :
  AffineSurface.indexExact s →
  let s' := AffineSurface._setConnectorEndpoints k s in
  AffineSurface.indexExact s'
  ∧ (∀ e, AffineSurface.cid k ∈ AffineSurface.indexOf s' e
          ↔ truthy e = true
            ∧ (AffineSurface.source k = Some e
               ∨ AffineSurface.target k = Some e))
  ∧ (∀ e c, c ≠ AffineSurface.cid k →
       c ∈ AffineSurface.indexOf s' e ↔ c ∈ AffineSurface.indexOf s e)
  ∧ AffineSurface._connectorEndpoints s' !! AffineSurface.cid k
    = Some {| AffineSurface.sourceId := AffineSurface.source k;
              AffineSurface.targetId := AffineSurface.target k |}
  ∧ AffineSurface.base s' = AffineSurface.base s.
Proof.
  intros Hexact s'.
  pose proof (setConnectorEndpoints_keeps_exact k s Hexact) as Hexact'.
  fold s' in Hexact'.
  assert (Hcid : AffineSurface._connectorEndpoints s' !! AffineSurface.cid k
                 = Some {| AffineSurface.sourceId := AffineSurface.source k;
                           AffineSurface.targetId := AffineSurface.target k |}).
  { subst s'. rewrite endpoints_setConnectorEndpoints.
    by rewrite decide_True. }
  split; [done|]. split; [|split; [|split]].
  - intros e. rewrite (Hexact' e), Hcid. unfold AffineSurface.attached. cbn.
    split; [by intros (? & [= <-] & ?) | by eexists].
  - intros e c Hne. rewrite (Hexact' e c), (Hexact e c). subst s'.
    rewrite endpoints_setConnectorEndpoints. by rewrite decide_False.
  - done.
  - apply base_setConnectorEndpoints.
Qed.

Lemma setConnectorEndpoints_indexes_connector_witness :
  let k := AffineSurface.connectorFromTo "c1" "a" "b" in
  let s := AffineSurface.clearConnectorIndex AffineSurface.emptyIndexState in
  let s' := AffineSurface._setConnectorEndpoints k s in
  AffineSurface.indexExact s'
  ∧ (∀ e, AffineSurface.cid k ∈ AffineSurface.indexOf s' e
          ↔ truthy e = true
            ∧ (AffineSurface.source k = Some e
               ∨ AffineSurface.target k = Some e))
  ∧ (∀ e c, c ≠ AffineSurface.cid k →
       c ∈ AffineSurface.indexOf s' e ↔ c ∈ AffineSurface.indexOf s e)
  ∧ AffineSurface._connectorEndpoints s' !! AffineSurface.cid k
    = Some {| AffineSurface.sourceId := AffineSurface.source k;
              AffineSurface.targetId := AffineSurface.target k |}
  ∧ AffineSurface.base s' = AffineSurface.base s.
Proof.
  apply (setConnectorEndpoints_indexes_connector
           (AffineSurface.connectorFromTo "c1" "a" "b")
           (AffineSurface.clearConnectorIndex AffineSurface.emptyIndexState)).
  apply clearConnectorIndex_exact.
Defined.

(** X14.  On an index that agrees with the cached endpoint pairs,
    [_removeConnectorFromIndex] takes the connector out of every
    endpoint's set and drops its cached pair, changes the listing of no
    other connector, and the index still agrees with the cached pairs. *)
Theorem removeConnectorFromIndex_unindexes_connector (c : string)
    (s : AffineSurface.State) :
  AffineSurface.indexExact s →
  let s' := AffineSurface._removeConnectorFromIndex c s in
  AffineSurface.indexExact s'
  ∧ (∀ e, c ∉ AffineSurface.indexOf s' e)
  ∧ AffineSurface._connectorEndpoints s' !! c = None
  ∧ (∀ e c', c' ≠ c →
       c' ∈ AffineSurface.indexOf s' e ↔ c' ∈ AffineSurface.indexOf s e)
  ∧ (∀ c', c' ≠ c →
       AffineSurface._connectorEndpoints s' !! c'
       = AffineSurface._connectorEndpoints s !! c')
  ∧ AffineSurface.base s' = AffineSurface.base s.
Proof.
  intros Hexact s'.
  destruct (removeConnectorFromIndex_backed s c (indexExact_backed s Hexact))
    as (Hidx & Hother & Hnone & Hbase).
  fold s' in Hidx, Hother, Hnone, Hbase.
  assert (Hout : ∀ e, c ∉ AffineSurface.indexOf s' e)
    by (intros e; rewrite Hidx, elem_of_setDelete; tauto).
  assert (Hkeep : ∀ e c', c' ≠ c →
            c' ∈ AffineSurface.indexOf s' e ↔ c' ∈ AffineSurface.indexOf s e)
    by (intros e c' Hne; rewrite Hidx, elem_of_setDelete; tauto).
  split; [|done].
  intros e c'. destruct (decide (c' = c)) as [-> | Hne].
  - rewrite Hnone. split; [by intros ?%Hout | by intros (? & ? & _)].
  - by rewrite (Hkeep e c' Hne), (Hother c' Hne).
Qed.

Lemma removeConnectorFromIndex_unindexes_connector_witness :
  let s := AffineSurface._setConnectorEndpoints
             (AffineSurface.connectorFromTo "c1" "a" "b")
             (AffineSurface.clearConnectorIndex
                AffineSurface.emptyIndexState) in
  let s' := AffineSurface._removeConnectorFromIndex "c1" s in
  AffineSurface.indexExact s'
  ∧ (∀ e, "c1" ∉ AffineSurface.indexOf s' e)
  ∧ AffineSurface._connectorEndpoints s' !! "c1" = None
  ∧ (∀ e c', c' ≠ "c1" →
       c' ∈ AffineSurface.indexOf s' e ↔ c' ∈ AffineSurface.indexOf s e)
  ∧ (∀ c', c' ≠ "c1" →
       AffineSurface._connectorEndpoints s' !! c'
       = AffineSurface._connectorEndpoints s !! c')
  ∧ AffineSurface.base s' = AffineSurface.base s.
Proof.
  apply (removeConnectorFromIndex_unindexes_connector "c1").
  apply setConnectorEndpoints_keeps_exact, clearConnectorIndex_exact.
Defined.

Lemma NoDup_setAdd c (l : list string) :
  NoDup l → NoDup (AffineSurface.setAdd c l).
Proof.
  intros Hnd. unfold AffineSurface.setAdd. destruct (decide (c ∈ l)); [done|].
  apply NoDup_app. split; [done|]. split; [|apply NoDup_singleton].
  by intros x Hx ->%list_elem_of_singleton.
Qed.

Lemma NoDup_setDelete c (l : list string) :
  NoDup l → NoDup (AffineSurface.setDelete c l).
Proof. apply NoDup_filter. Qed.

Lemma setConnectorEndpoints_keeps_NoDup
    (k : AffineSurface.ConnectorElementModel) (s : AffineSurface.State) :
  AffineSurface.indexNoDup s →
  AffineSurface.indexNoDup (AffineSurface._setConnectorEndpoints k s).
Proof.
  intros Hnd e. unfold AffineSurface._setConnectorEndpoints.
  destruct (match AffineSurface._connectorEndpoints s !! AffineSurface.cid k
            with Some p => _ | None => false end); [apply Hnd|].
  change (AffineSurface.indexOf (AffineSurface.set_endpoints ?m ?s0) e)
    with (AffineSurface.indexOf s0 e).
  rewrite !indexOf_addIfSet.
  assert (NoDup (AffineSurface.indexOf
            match AffineSurface._connectorEndpoints s !! AffineSurface.cid k
            with
            | Some p =>
                AffineSurface.removeIfSet (AffineSurface.targetId p)
                  (AffineSurface.cid k)
                  match AffineSurface._connectorEndpoints s
                        !! AffineSurface.cid k with
                  | Some p => AffineSurface.removeIfSet
                                (AffineSurface.sourceId p)
                                (AffineSurface.cid k) s
                  | None => s
                  end
            | None =>
                match AffineSurface._connectorEndpoints s
                      !! AffineSurface.cid k with
                | Some p => AffineSurface.removeIfSet
                              (AffineSurface.sourceId p)
                              (AffineSurface.cid k) s
                | None => s
                end
            end e)) as Hrem.
  { destruct (AffineSurface._connectorEndpoints s !! AffineSurface.cid k);
      [|apply Hnd].
    rewrite !indexOf_removeIfSet.
    repeat case_decide; repeat apply NoDup_setDelete; apply Hnd. }
  repeat case_decide; repeat apply NoDup_setAdd; done.
Qed.

Lemma rebuild_fold (l : list AffineSurface.ConnectorElementModel) :
  ∀ s0 : AffineSurface.State,
    AffineSurface.indexExact s0 → AffineSurface.indexNoDup s0 →
    NoDup (AffineSurface.cid <$> l) →
    let s' := foldl (λ s k, AffineSurface._setConnectorEndpoints k s) s0 l in
    AffineSurface.indexExact s'
    ∧ AffineSurface.indexNoDup s'
    ∧ (∀ k, k ∈ l →
         AffineSurface._connectorEndpoints s' !! AffineSurface.cid k
         = Some {| AffineSurface.sourceId := AffineSurface.source k;
                   AffineSurface.targetId := AffineSurface.target k |})
    ∧ (∀ c, c ∉ AffineSurface.cid <$> l →
         AffineSurface._connectorEndpoints s' !! c
         = AffineSurface._connectorEndpoints s0 !! c)
    ∧ AffineSurface.base s' = AffineSurface.base s0.
Proof.
  induction l as [|k l IH]; intros s0 Hexact Hnd Hids; cbn [foldl].
  - split; [done|]. split; [done|]. split; [|done].
    by intros k ?%not_elem_of_nil.
  - rewrite fmap_cons in Hids. apply NoDup_cons in Hids as [Hk Hids].
    destruct (IH (AffineSurface._setConnectorEndpoints k s0)
                (setConnectorEndpoints_keeps_exact k s0 Hexact)
                (setConnectorEndpoints_keeps_NoDup k s0 Hnd) Hids)
      as (Hexact' & Hnd' & Hin & Hout & Hbase).
    split; [done|]. split; [done|]. split; [|split].
    + intros k' [-> | Hk']%elem_of_cons; [|by apply Hin].
      rewrite (Hout _ Hk), endpoints_setConnectorEndpoints.
      by rewrite decide_True.
    + intros c Hc. rewrite fmap_cons, not_elem_of_cons in Hc.
      destruct Hc as [Hne Hc].
      rewrite (Hout _ Hc), endpoints_setConnectorEndpoints.
      by rewrite decide_False.
    + by rewrite Hbase, base_setConnectorEndpoints.
Qed.

(** X15.  [_rebuildConnectorIndex] forgets whatever the index held: for
    connectors with distinct ids, afterwards a connector id is listed
    under an endpoint exactly when that endpoint is the non-empty source
    or target id of the connector with that id, no endpoint lists an id
    twice, and the index agrees with the cached pairs. *)
Theorem rebuildConnectorIndex_exact
    (connectors : list AffineSurface.ConnectorElementModel)
    (s : AffineSurface.State) :
  NoDup (AffineSurface.cid <$> connectors) →
  let s' := AffineSurface._rebuildConnectorIndex connectors s in
  (∀ e c, c ∈ AffineSurface.indexOf s' e
          ↔ truthy e = true
            ∧ ∃ k, k ∈ connectors ∧ AffineSurface.cid k = c
                   ∧ (AffineSurface.source k = Some e
                      ∨ AffineSurface.target k = Some e))
  ∧ (∀ e, NoDup (AffineSurface.indexOf s' e))
  ∧ AffineSurface.indexExact s'
  ∧ AffineSurface.base s' = AffineSurface.base s.
Proof.
  intros Hids s'.
  destruct (rebuild_fold connectors (AffineSurface.clearConnectorIndex s)
              (clearConnectorIndex_exact s))
    as (Hexact & Hnd & Hin & Hout & Hbase); [|done|].
  { intros e. unfold AffineSurface.indexOf. cbn. rewrite lookup_empty.
    apply NoDup_nil_2. }
  fold (AffineSurface._rebuildConnectorIndex connectors s) in *.
  fold s' in Hexact, Hnd, Hin, Hout, Hbase.
  split; [|done].
  intros e c. rewrite (Hexact e c). unfold AffineSurface.attached. split.
  - intros (ep & Hep & Ht & Hor). split; [done|].
    destruct (decide (c ∈ AffineSurface.cid <$> connectors)) as [Hc | Hc].
    + apply list_elem_of_fmap in Hc as (k & -> & Hk).
      rewrite (Hin k Hk) in Hep. injection Hep as <-. by exists k.
    + rewrite (Hout c Hc) in Hep. cbn in Hep. by rewrite lookup_empty in Hep.
  - intros (Ht & k & Hk & <- & Hor). eexists. split; [by apply Hin|]. done.
Qed.

Lemma rebuildConnectorIndex_exact_witness :
  let connectors := [AffineSurface.connectorFromTo "c0" "a" "b";
                     AffineSurface.connectorFromTo "c1" "b" ""] in
  let s' := AffineSurface._rebuildConnectorIndex connectors
              AffineSurface.staleIndexState in
  (∀ e c, c ∈ AffineSurface.indexOf s' e
          ↔ truthy e = true
            ∧ ∃ k, k ∈ connectors ∧ AffineSurface.cid k = c
                   ∧ (AffineSurface.source k = Some e
                      ∨ AffineSurface.target k = Some e))
  ∧ (∀ e, NoDup (AffineSurface.indexOf s' e))
  ∧ AffineSurface.indexExact s'
  ∧ AffineSurface.base s' = AffineSurface.base AffineSurface.staleIndexState.
Proof.
  apply (rebuildConnectorIndex_exact
           [AffineSurface.connectorFromTo "c0" "a" "b";
            AffineSurface.connectorFromTo "c1" "b" ""]
           AffineSurface.staleIndexState).
  cbn. repeat constructor; set_solver.
Defined.

Lemma liveModel_base (s s' : AffineSurface.State) c :
  AffineSurface.base s' = AffineSurface.base s →
  AffineSurface.liveModel s' c = AffineSurface.liveModel s c
  ∧ AffineSurface.isLiveConnector s' c = AffineSurface.isLiveConnector s c.
Proof.
  intros Hbase. unfold AffineSurface.liveModel, AffineSurface.isLiveConnector.
  by rewrite Hbase.
Qed.

Lemma omap_cons_eq {A B : Type} (f : A → option B) (x : A) (l : list A) :
  omap f (x :: l)
  = match f x with Some y => y :: omap f l | None => omap f l end.
Proof. done. Qed.

Lemma omap_filter_live (s : AffineSurface.State) (l : list string) :
  omap (AffineSurface.liveModel s)
    (filter (λ c, AffineSurface.isLiveConnector s c = true) l)
  = omap (AffineSurface.liveModel s) l.
Proof.
  induction l as [|c l IH]; [done|].
  rewrite filter_cons. destruct (decide _) as [Hlive | Hdead].
  - by rewrite !omap_cons_eq, IH.
  - rewrite IH, omap_cons_eq.
    destruct (AffineSurface.liveModel s c) as [m|] eqn:Hm; [|done].
    exfalso. apply Hdead, isLiveConnector_liveModel. by eexists.
Qed.

Lemma filter_dead_of_live (s : AffineSurface.State) (l : list string) :
  filter (λ c, AffineSurface.isLiveConnector s c = false)
    (filter (λ c, AffineSurface.isLiveConnector s c = true) l) = [].
Proof.
  induction l as [|c l IH]; [done|].
  rewrite filter_cons. destruct (decide _) as [Hlive | Hdead]; [|done].
  rewrite filter_cons, decide_False, IH; [done|]. by rewrite Hlive.
Qed.

(** X16.  Self-healing settles after one read: on a backed index, reading
    the connectors of the same endpoint again returns the same models and
    leaves the state exactly as the first read left it. *)
Theorem getConnectors_second_read_is_pure (i : string)
    (s : AffineSurface.State) :
  AffineSurface.indexBacked s →
  AffineSurface.getConnectors i (AffineSurface.getConnectors i s).2
  = AffineSurface.getConnectors i s.
Proof.
  intros Hbacked.
  rewrite (getConnectors_unfold i s). cbn [snd].
  set (stale := filter (λ c, AffineSurface.isLiveConnector s c = false)
                  (AffineSurface.indexOf s i)).
  destruct (remove_stale_foldl stale s Hbacked) as (_ & Hidx & Hbase).
  set (s1 := foldl (λ s c, AffineSurface._removeConnectorFromIndex c s)
               s stale) in *.
  rewrite (getConnectors_unfold i s1), (Hidx i).
  assert (Hlive : filter (λ x, x ∉ stale) (AffineSurface.indexOf s i)
                  = filter (λ c, AffineSurface.isLiveConnector s c = true)
                      (AffineSurface.indexOf s i)).
  { apply filter_ext_elem. intros x Hx. subst stale.
    rewrite list_elem_of_filter.
    destruct (AffineSurface.isLiveConnector s x); naive_solver. }
  rewrite Hlive.
  assert (Hm : ∀ l : list string, omap (AffineSurface.liveModel s1) l
                    = omap (AffineSurface.liveModel s) l).
  { intros l. induction l as [|c l IH]; [done|].
    by rewrite !omap_cons_eq, IH, (proj1 (liveModel_base s s1 c Hbase)). }
  assert (Hd : ∀ l : list string, filter (λ c, AffineSurface.isLiveConnector s1 c = false) l
                    = filter (λ c, AffineSurface.isLiveConnector s c = false) l).
  { intros l. apply filter_ext_elem. intros x _.
    by rewrite (proj2 (liveModel_base s s1 x Hbase)). }
  rewrite Hm, Hd, omap_filter_live, filter_dead_of_live. done.
Qed.

Lemma getConnectors_second_read_is_pure_witness :
  AffineSurface.getConnectors "a"
    (AffineSurface.getConnectors "a" AffineSurface.staleIndexState).2
  = AffineSurface.getConnectors "a" AffineSurface.staleIndexState.
Proof.
  apply (getConnectors_second_read_is_pure "a" AffineSurface.staleIndexState).
  repeat apply setConnectorEndpoints_keeps_backed.
  apply clearConnectorIndex_backed.
Defined.

Lemma setDelete_setAdd c (l : list string) :
  AffineSurface.setDelete c (AffineSurface.setAdd c l)
  = AffineSurface.setDelete c l.
Proof.
  unfold AffineSurface.setAdd, AffineSurface.setDelete.
  destruct (decide (c ∈ l)); [done|].
  rewrite filter_app, filter_cons, decide_False by (by intros ?).
  cbn. by rewrite app_nil_r.
Qed.

(** X17.  Indexing a connector that has no cached pair and removing it
    again restores the index: every endpoint lists the same connector ids
    in the same order as before, and every cached pair is as before. *)
Theorem set_then_remove_restores_index
    (k : AffineSurface.ConnectorElementModel) (s : AffineSurface.State) :
  AffineSurface.indexBacked s →
  AffineSurface._connectorEndpoints s !! AffineSurface.cid k = None →
  let s' := AffineSurface._removeConnectorFromIndex (AffineSurface.cid k)
              (AffineSurface._setConnectorEndpoints k s) in
  (∀ e, AffineSurface.indexOf s' e = AffineSurface.indexOf s e)
  ∧ (∀ c, AffineSurface._connectorEndpoints s' !! c
          = AffineSurface._connectorEndpoints s !! c)
  ∧ AffineSurface.base s' = AffineSurface.base s.
Proof.
  intros Hbacked Hnone s'.
  destruct (removeConnectorFromIndex_backed
              (AffineSurface._setConnectorEndpoints k s) (AffineSurface.cid k)
              (setConnectorEndpoints_keeps_backed k s Hbacked))
    as (Hidx & Hother & Hgone & Hbase).
  fold s' in Hidx, Hother, Hgone, Hbase.
  assert (Hfresh : ∀ e, AffineSurface.cid k ∉ AffineSurface.indexOf s e).
  { intros e Hin. destruct (Hbacked e _ Hin) as (_ & ep & Hep & _).
    by rewrite Hnone in Hep. }
  split; [|split].
  - intros e. rewrite Hidx. unfold AffineSurface._setConnectorEndpoints.
    rewrite Hnone.
    change (AffineSurface.indexOf (AffineSurface.set_endpoints ?m ?s0) e)
      with (AffineSurface.indexOf s0 e).
    rewrite !indexOf_addIfSet.
    repeat case_decide; rewrite ?setDelete_setAdd;
      by apply setDelete_not_in.
  - intros c. destruct (decide (c = AffineSurface.cid k)) as [-> | Hne].
    + by rewrite Hgone, Hnone.
    + rewrite (Hother c Hne), endpoints_setConnectorEndpoints.
      by rewrite decide_False.
  - by rewrite Hbase, base_setConnectorEndpoints.
Qed.

Lemma set_then_remove_restores_index_witness :
  let k := AffineSurface.connectorFromTo "c2" "a" "a" in
  let s' := AffineSurface._removeConnectorFromIndex (AffineSurface.cid k)
              (AffineSurface._setConnectorEndpoints k
                 AffineSurface.staleIndexState) in
  (∀ e, AffineSurface.indexOf s' e
        = AffineSurface.indexOf AffineSurface.staleIndexState e)
  ∧ (∀ c, AffineSurface._connectorEndpoints s' !! c
          = AffineSurface._connectorEndpoints AffineSurface.staleIndexState
              !! c)
  ∧ AffineSurface.base s' = AffineSurface.base AffineSurface.staleIndexState.
Proof.
  apply (set_then_remove_restores_index
           (AffineSurface.connectorFromTo "c2" "a" "a")
           AffineSurface.staleIndexState).
  - repeat apply setConnectorEndpoints_keeps_backed.
    apply clearConnectorIndex_backed.
  - vm_compute. reflexivity.
Defined.

(** ** [canSafeAddToContainer] *)

Lemma ancestorOf_trans g x y z :
  Tree.ancestorOf g x y → Tree.ancestorOf g y z → Tree.ancestorOf g x z.
Proof.
  induction 1 as [x p Hp | x p a Hp _ IH]; intros Hz.
  - by eapply Tree.ancestor_step.
  - eapply Tree.ancestor_step; [done | by apply IH].
Qed.

Section Reparent.
Variables (g g' : Tree.Graph) (container element : string).
Hypothesis Hgroup : Tree.group g' = <[element := container]> (Tree.group g).

(** A walk of the new graph either is a walk of the old one, or reaches
    [element] in the old graph and goes on from [container]. *)
Lemma ancestorOf_reparent x a :
  Tree.ancestorOf g' x a →
  Tree.ancestorOf g x a
  ∨ ((x = element ∨ Tree.ancestorOf g x element)
     ∧ (container = a ∨ Tree.ancestorOf g' container a)).
Proof.
  induction 1 as [x p Hp | x p a Hp Hrest IH]; rewrite Hgroup in Hp.
  - destruct (decide (x = element)) as [-> | Hne].
    + rewrite lookup_insert_eq in Hp. injection Hp as <-. right. by split; left.
    + rewrite lookup_insert_ne in Hp by done. left.
      by apply Tree.ancestor_parent.
  - destruct (decide (x = element)) as [-> | Hne].
    + rewrite lookup_insert_eq in Hp. injection Hp as <-.
      right. split; [by left | by right].
    + rewrite lookup_insert_ne in Hp by done.
      destruct IH as [Hold | [[-> | Hel] Hnew]].
      * left. by eapply Tree.ancestor_step.
      * right. split; [|done]. right. by apply Tree.ancestor_parent.
      * right. split; [|done]. right. by eapply Tree.ancestor_step.
Qed.

(** In a graph without cycles, a walk that ends at [element] is still a
    walk after [element] got a new parent. *)
Lemma ancestorOf_to_reparented x :
  Tree.acyclic g →
  Tree.ancestorOf g x element → Tree.ancestorOf g' x element.
Proof.
  intros Hacyclic Hanc.
  assert (Hgen : ∀ y a, Tree.ancestorOf g y a → a = element →
                        Tree.ancestorOf g' y a); [|by eapply Hgen].
  clear x Hanc. intros x a Hanc.
  induction Hanc as [x p Hp | x p a Hp Hrest IH]; intros ->.
  - apply Tree.ancestor_parent. rewrite Hgroup, lookup_insert_ne; [done|].
    intros <-. apply (Hacyclic element). by apply Tree.ancestor_parent.
  - eapply Tree.ancestor_step; [|by apply IH].
    rewrite Hgroup, lookup_insert_ne; [done|].
    intros <-. apply (Hacyclic element). by eapply Tree.ancestor_step.
Qed.
End Reparent.

(** X18.  In a graph without cycles whose parents are all group-
    compatible, and with a [hasDescendant] method that answers whether an
    element lies below its receiver, [canSafeAddToContainer] returns
    [true] exactly when giving [element] the parent [container] leaves
    the graph without cycles. *)
Theorem canSafeAddToContainer_prevents_cycles
    (hasDescendant : string → string → bool) (g g' : Tree.Graph)
    (container element : string) :
  (∀ receiver x,
     hasDescendant receiver x = true ↔ Tree.ancestorOf g x receiver) →
  (∀ x p, Tree.group g !! x = Some p →
          Tree.isGfxGroupCompatibleModel g p = true) →
  Tree.acyclic g →
  Tree.group g' = <[element := container]> (Tree.group g) →
  Tree.canSafeAddToContainer hasDescendant g container element = true
  ↔ Tree.acyclic g'.
Proof.
  intros Hdesc Hgroups Hacyclic Hgroup.
  assert (Hparent : ∀ x a, Tree.ancestorOf g x a →
                           Tree.isGfxGroupCompatibleModel g a = true).
  { induction 1; eauto. }
  unfold Tree.canSafeAddToContainer. split.
  - intros Hsafe.
    destruct (bool_decide (element = container)) eqn:Hself; [done|].
    apply bool_decide_eq_false in Hself.
    assert (Hbelow : ¬ Tree.ancestorOf g container element).
    { intros Hanc. rewrite (Hparent _ _ Hanc) in Hsafe.
      apply Hdesc in Hanc. by rewrite Hanc in Hsafe. }
    intros x Hcycle.
    destruct (ancestorOf_reparent g g' container element Hgroup x x Hcycle)
      as [Hold | [Hup Hdown]]; [by apply (Hacyclic x)|].
    assert (Hdown' : container = x ∨ Tree.ancestorOf g container x).
    { destruct Hdown as [-> | Hdown]; [by left|]. right.
      destruct (ancestorOf_reparent g g' container element Hgroup _ _ Hdown)
        as [Hold | [[-> | Hel] _]]; done. }
    destruct Hup as [-> | Hup], Hdown' as [<- | Hdown']; try done.
    apply Hbelow. by eapply ancestorOf_trans.
  - intros Hacyclic'.
    destruct (bool_decide (element = container)) eqn:Hself.
    { apply bool_decide_eq_true in Hself as ->. exfalso.
      apply (Hacyclic' container), Tree.ancestor_parent.
      by rewrite Hgroup, lookup_insert_eq. }
    destruct (Tree.isGfxGroupCompatibleModel g element); [|done].
    destruct (hasDescendant element container) eqn:Hd; [|done].
    exfalso. apply Hdesc in Hd.
    apply (Hacyclic' element).
    eapply Tree.ancestor_step; [by rewrite Hgroup, lookup_insert_eq|].
    destruct (decide (container = element)) as [-> | Hne].
    { by apply Hacyclic in Hd. }
    by apply (ancestorOf_to_reparented g g' container element Hgroup).
Qed.

Lemma rank_acyclic (g : Tree.Graph) (rank : string → nat) :
  (∀ x p, Tree.group g !! x = Some p → rank p < rank x) → Tree.acyclic g.
Proof.
  intros Hrank.
  assert (Hlt : ∀ x a, Tree.ancestorOf g x a → rank a < rank x).
  { induction 1 as [x p Hp | x p a Hp _ IH]; [by apply Hrank|].
    specialize (Hrank x p Hp). lia. }
  intros x Hx. apply Hlt in Hx. lia.
Qed.

Lemma testTree_parent x p :
  Tree.group Tree.testTree !! x = Some p →
  (x = "leaf-a" ∧ p = "root") ∨ (x = "nested" ∧ p = "root")
  ∨ (x = "leaf-b" ∧ p = "nested").
Proof.
  intros Hx. unfold Tree.testTree in Hx. cbn [Tree.group] in Hx.
  apply lookup_insert_Some in Hx as [[<- <-] | [_ Hx]]; [by left|].
  apply lookup_insert_Some in Hx as [[<- <-] | [_ Hx]]; [by right; left|].
  apply lookup_singleton_Some in Hx as [<- <-]. by right; right.
Qed.

Lemma testTree_rank x p :
  Tree.group Tree.testTree !! x = Some p → Tree.testRank p < Tree.testRank x.
Proof.
  intros [[-> ->] | [[-> ->] | [-> ->]]]%testTree_parent; vm_compute; lia.
Qed.

Lemma testHasDescendant_exact receiver x :
  Tree.testHasDescendant receiver x = true
  ↔ Tree.ancestorOf Tree.testTree x receiver.
Proof.
  unfold Tree.testHasDescendant, Tree.hasDescendantElementImpl.
  rewrite ancestorOf_onWalk.
  assert (Hret : is_Some (Tree.hasDescendantElement_loop 3 Tree.testTree
                            receiver (Tree.group Tree.testTree !! x))).
  { destruct (Tree.group Tree.testTree !! x) as [p|] eqn:Hp; [|by eexists].
    apply (hasDescendantElement_loop_returns _ Tree.testRank);
      [apply testTree_rank|].
    unfold Tree.testRank. repeat case_decide; lia. }
  destruct Hret as [b Hb]. rewrite Hb. cbn.
  apply (hasDescendantElement_loop_sound _ _ _ _ _ Hb).
Qed.

Lemma canSafeAddToContainer_prevents_cycles_witness :
  Tree.canSafeAddToContainer Tree.testHasDescendant Tree.testTree
    "leaf-b" "root" = true
  ↔ Tree.acyclic
      {| Tree.group := <["root" := "leaf-b"]> (Tree.group Tree.testTree);
         Tree.childElements := Tree.childElements Tree.testTree |}.
Proof.
  apply (canSafeAddToContainer_prevents_cycles Tree.testHasDescendant
           Tree.testTree).
  - apply testHasDescendant_exact.
  - by intros x p [[-> ->] | [[-> ->] | [-> ->]]]%testTree_parent.
  - apply (rank_acyclic _ Tree.testRank), testTree_rank.
  - reflexivity.
Defined.

(** ** More on the ungroup index keys *)

Section BuildUngroupIndexesTotal.
Context {G E : Type}.
Variable generateNKeysBetween :
  option string → option string → nat → G → option (list string) * G.
Variable generateKeyBetween :
  option string → option string → G → option string * G.

Lemma firstSuccess_length count bounds : ∀ lib keys lib',
  GroupApi.firstSuccess generateNKeysBetween count bounds lib
  = (Some keys, lib') →
  length keys = count.
Proof.
  induction bounds as [|[lo hi] rest IH]; intros lib keys lib' Hrun;
    cbn [GroupApi.firstSuccess] in Hrun; [done|].
  destruct (generateNKeysBetween lo hi count lib) as [[generated|] lib1];
    [|by eapply IH].
  destruct (decide (length generated = count)) as [Hlen | Hlen];
    [|by eapply IH].
  by injection Hrun as <- <-.
Qed.

Lemma oneByOne_total (orderedElements : list E) :
  (∀ lo hi lib, is_Some (generateKeyBetween lo hi lib).1) →
  ∀ cursor hi lib,
    is_Some (GroupApi.oneByOne generateKeyBetween orderedElements cursor hi
               lib).1.
Proof.
  intros Htotal.
  induction orderedElements as [|e rest IH]; intros cursor hi lib;
    cbn [GroupApi.oneByOne]; [by eexists|].
  destruct (Htotal cursor hi lib) as [key Hkey].
  destruct (generateKeyBetween cursor hi lib) as [[key'|] lib1];
    cbn [fst] in Hkey; [|done].
  destruct (IH (Some key') hi lib1) as [keys Hkeys].
  destruct (GroupApi.oneByOne generateKeyBetween rest (Some key') hi lib1)
    as [[keys'|] lib2]; cbn [fst] in Hkeys; [by eexists | done].
Qed.

(** X19.  When the one-at-a-time generator never throws,
    [buildUngroupIndexes] returns exactly one key per element, whatever
    the batch generator does: the empty result is reached only through an
    exception of [generateKeyBetween]. *)
Theorem buildUngroupIndexes_one_key_per_element (orderedElements : list E)
    (afterIndex beforeIndex : option string) (fallbackAnchorIndex : string)
    (lib : G) :
  (∀ lo hi lib, is_Some (generateKeyBetween lo hi lib).1) →
  length (GroupApi.buildUngroupIndexes generateNKeysBetween
            generateKeyBetween orderedElements afterIndex beforeIndex
            fallbackAnchorIndex lib).1
  = length orderedElements.
Proof.
  intros Htotal.
  destruct (decide (orderedElements = [])) as [-> | Hne]; [done|].
  rewrite (buildUngroupIndexes_chain _ _ _ _ _ _ _ Hne).
  unfold GroupApi.fallbackChain_spec.
  destruct (GroupApi.firstSuccess _ _ _ lib) as [[keys|] lib1] eqn:Hfirst.
  - cbn [fst]. by eapply firstSuccess_length.
  - rewrite <- oneByOne_chained.
    destruct (oneByOne_total orderedElements Htotal None None lib1)
      as [keys Hkeys].
    destruct (GroupApi.oneByOne generateKeyBetween orderedElements None None
                lib1) as [[keys'|] lib2] eqn:Hrun; cbn [fst] in Hkeys;
      [|done].
    cbn [fst]. by eapply oneByOne_length.
Qed.
End BuildUngroupIndexesTotal.

Lemma buildUngroupIndexes_one_key_per_element_witness :
  length (GroupApi.buildUngroupIndexes GroupApi.throwingN GroupApi.sequenceOne
            ["child-a"; "child-b"] (Some "a0") (Some "a0") "m0" []).1
  = length ["child-a"; "child-b"].
Proof.
  apply (buildUngroupIndexes_one_key_per_element GroupApi.throwingN
           GroupApi.sequenceOne).
  intros lo hi lib. by eexists.
Defined.

(** ** Failure of [updateElement], and whom [deleteElement] detaches *)

(** X20.  [updateElement] throws in two cases only, each with its own
    message and each leaving the surface as it was: a readonly store, or
    no element under the id.  For an element whose type has no registered
    constructor the call returns normally and changes nothing: the error
    of [_propsToY] is raised inside the transaction and stays there. *)
Theorem updateElement_failure_is_atomic {V : Type}
    (propsToY : string → list (string * V) → list (string * V))
    (setProperty :
       Surface.ElementModel → string → V → Surface.State → Surface.State)
    (i : string) (props : list (string * V)) (s : Surface.State) :
  let result := Surface.updateElement propsToY setProperty i props s in
  (∀ e, result.1 = Surface.Throw e →
     result.2 = s
     ∧ ((Surface.readonly s = true
         ∧ e = Surface.Error "Cannot update element in readonly mode")
        ∨ (Surface.readonly s = false
           ∧ Surface.getElementById i s = None
           ∧ e = Surface.Error ("Element " +:+ i +:+ " is not found"))))
  ∧ (Surface.readonly s = true →
     result.1 = Surface.Throw
                  (Surface.Error "Cannot update element in readonly mode"))
  ∧ (Surface.readonly s = false → Surface.getElementById i s = None →
     result.1 = Surface.Throw
                  (Surface.Error ("Element " +:+ i +:+ " is not found")))
  ∧ (∀ element,
       Surface.readonly s = false →
       Surface.getElementById i s = Some element →
       (Surface.type element ∉ Surface._elementCtorMap s) →
       Surface._propsToY propsToY (Surface.type element) props s
       = Surface.Throw
           (Surface.Error ("Invalid element type: " +:+ Surface.type element))
       ∧ result = (Surface.Return (), s)).
Proof.
  intros result. subst result.
  unfold Surface.updateElement, Surface._propsToY.
  split; [|split; [|split]].
  - intros e. destruct (Surface.readonly s).
    { cbn. intros [= <-]. split; [done|]. by left. }
    destruct (Surface.getElementById i s) as [element|]; [done|].
    cbn. intros [= <-]. split; [done|]. by right.
  - by intros ->.
  - by intros -> ->.
  - intros element -> -> Htype. by rewrite decide_False.
Qed.

(** X21.  [_removeFromParentGroupIfNeeded] never calls [removeChild] on a
    group that is itself being deleted: its result does not depend on
    what [removeChild] does for the groups of the deletion set. *)
Theorem removeFromParentGroup_spares_deleted_groups
    (removeChild removeChild' :
       Surface.GroupModel → string → Surface.State → Surface.State)
    (element : string) (deleteElementIds : gset string) (s : Surface.State) :
  (∀ g e s, Surface.gid g ∉ deleteElementIds →
            removeChild g e s = removeChild' g e s) →
  Surface._removeFromParentGroupIfNeeded removeChild element deleteElementIds s
  = Surface._removeFromParentGroupIfNeeded removeChild' element
      deleteElementIds s.
Proof.
  intros Hsame. unfold Surface._removeFromParentGroupIfNeeded.
  destruct (match Surface._parentGroupMap s !! element with
            | Some p => truthy p && bool_decide (p ∈ deleteElementIds)
            | None => false
            end); [done|].
  destruct (match Surface._parentGroupMap s !! element with
            | Some p => if truthy p
                        then Surface.groupLike_get p (Surface._groupLikeModels s)
                        else None
            | None => None
            end) as [g|].
  - destruct (decide _); [done | by apply Hsame].
  - destruct (Surface.getGroup (Surface.ById element) s) as [[g|] s1]; [|done].
    destruct (decide _); [done | by apply Hsame].
Qed.

Lemma removeFromParentGroup_spares_deleted_groups_witness :
  Surface._removeFromParentGroupIfNeeded (λ _ _ s, s) "s" {[ "g" ]}
    Surface.groupWithChildren
  = Surface._removeFromParentGroupIfNeeded
      (λ g _ s, if decide (Surface.gid g = "g")
                then Surface.set_blocks ∅ s else s)
      "s" {[ "g" ]} Surface.groupWithChildren.
Proof.
  apply (removeFromParentGroup_spares_deleted_groups (λ _ _ s, s)
           (λ g _ s, if decide (Surface.gid g = "g")
                     then Surface.set_blocks ∅ s else s)).
  intros g e s Hg. rewrite decide_False; [done | set_solver].
Defined.

(** ** What [descendantElementsImpl] lists *)

Lemma forEachM_traverse_inv n g (pending : gset string) before :
  (∀ x st st',
     Tree.innerTraverse (Some Tree.pushResult) None n g x st = Some st' →
     Tree.traverseInv g pending before st →
     Tree.traverseInv g pending before st' ∧ st.1 ⊆ st'.1 ∧ x ∈ st'.1) →
  ∀ children st st',
    forEachM (Tree.innerTraverse (Some Tree.pushResult) None n g) children st
    = Some st' →
    Tree.traverseInv g pending before st →
    Tree.traverseInv g pending before st' ∧ st.1 ⊆ st'.1
    ∧ ∀ c, c ∈ children → c ∈ st'.1.
Proof.
  intros IH. induction children as [|c children IHc]; intros st st' Hrun Hinv.
  - injection Hrun as <-. split; [done|]. split; [done|].
    by intros c ?%not_elem_of_nil.
  - cbn [forEachM] in Hrun.
    destruct (Tree.innerTraverse _ _ n g c st) as [st1|] eqn:Hc; [|done].
    destruct (IH _ _ _ Hc Hinv) as (Hinv1 & Hsub1 & Hin1).
    destruct (IHc _ _ Hrun Hinv1) as (Hinv2 & Hsub2 & Hin2).
    split; [done|]. split; [set_solver|].
    intros c' [-> | Hc']%elem_of_cons; [set_solver | by apply Hin2].
Qed.

Lemma innerTraverse_inv fuel g : ∀ (pending : gset string) before x st st',
  Tree.innerTraverse (Some Tree.pushResult) None fuel g x st = Some st' →
  Tree.traverseInv g pending before st →
  Tree.traverseInv g pending before st' ∧ st.1 ⊆ st'.1 ∧ x ∈ st'.1.
Proof.
  induction fuel as [|n IH]; intros pending before x [visited results] st'
    Hrun Hinv; [done|].
  cbn [Tree.innerTraverse] in Hrun.
  destruct (decide (x ∈ visited)) as [Hin | Hnin].
  { injection Hrun as <-. done. }
  cbn [Tree.pushResult] in Hrun.
  destruct Hinv as (segment & Hres & Hseg & Hclosed).
  cbn [fst snd] in Hres, Hseg, Hclosed.
  assert (Hinv1 : Tree.traverseInv g ({[x]} ∪ pending) before
                    ({[x]} ∪ visited, results ++ [x])).
  { exists (segment ++ [x]). cbn [fst snd]. split; [|split].
    - by rewrite Hres, app_assoc.
    - intros y. rewrite elem_of_app, list_elem_of_singleton, Hseg.
      set_solver.
    - intros y children c Hy Hyp Hch Hc.
      apply elem_of_union. right. eapply Hclosed; [|  |done|done]; set_solver. }
  assert (Hdone : ∃ v2 r2, st' = (v2, r2)
            ∧ Tree.traverseInv g ({[x]} ∪ pending) before (v2, r2)
            ∧ {[x]} ∪ visited ⊆ v2
            ∧ ∀ children c, Tree.childElements g !! x = Some children →
                c ∈ children → c ∈ v2).
  { destruct (Tree.childElements g !! x) as [children|].
    - destruct (forEachM _ children _) as [[v2 r2]|] eqn:Hkids; [|done].
      injection Hrun as <-.
      destruct (forEachM_traverse_inv n g ({[x]} ∪ pending) before
                  (IH ({[x]} ∪ pending) before) _ _ _ Hkids Hinv1)
        as (Hinv2 & Hsub2 & Hin2).
      exists v2, r2. split; [done|]. split; [done|]. split; [done|].
      by intros children' c [= <-]; apply Hin2.
    - injection Hrun as <-. eexists _, _. split; [done|]. split; [done|].
      split; [done|]. by intros. }
  destruct Hdone as (v2 & r2 & -> & (seg2 & Hres2 & Hseg2 & Hclosed2)
                     & Hsub2 & Hkids).
  cbn [fst snd] in *. split; [|split; set_solver].
  exists seg2. cbn [fst snd]. split; [done|]. split; [done|].
  intros y children c Hy Hyp Hch Hc.
  destruct (decide (y = x)) as [-> | Hne]; [by eapply Hkids|].
  eapply Hclosed2; [done| |done|done]. set_solver.
Qed.

Lemma forEachM_traverse_sound n g (R : string → Prop) :
  (∀ x children c, R x → Tree.childElements g !! x = Some children →
                   c ∈ children → R c) →
  (∀ x st st',
     Tree.innerTraverse (Some Tree.pushResult) None n g x st = Some st' →
     R x → (∀ y, y ∈ st.1 → R y) → ∀ y, y ∈ st'.1 → R y) →
  ∀ children st st',
    forEachM (Tree.innerTraverse (Some Tree.pushResult) None n g) children st
    = Some st' →
    (∀ c, c ∈ children → R c) →
    (∀ y, y ∈ st.1 → R y) → ∀ y, y ∈ st'.1 → R y.
Proof.
  intros HR IH. induction children as [|c children IHc];
    intros st st' Hrun Hkids Hall.
  - by injection Hrun as <-.
  - cbn [forEachM] in Hrun.
    destruct (Tree.innerTraverse _ _ n g c st) as [st1|] eqn:Hc; [|done].
    apply (IHc st1 st' Hrun); [intros; apply Hkids; by right|].
    apply (IH _ _ _ Hc); [apply Hkids; by left | done].
Qed.

Lemma innerTraverse_sound fuel g (R : string → Prop) :
  (∀ x children c, R x → Tree.childElements g !! x = Some children →
                   c ∈ children → R c) →
  ∀ x st st',
    Tree.innerTraverse (Some Tree.pushResult) None fuel g x st = Some st' →
    R x → (∀ y, y ∈ st.1 → R y) → ∀ y, y ∈ st'.1 → R y.
Proof.
  intros HR. induction fuel as [|n IH]; intros x [visited results] st' Hrun
    Hx Hall; [done|].
  cbn [Tree.innerTraverse] in Hrun.
  destruct (decide (x ∈ visited)) as [Hin | Hnin].
  { by injection Hrun as <-. }
  cbn [Tree.pushResult] in Hrun.
  assert (Hall1 : ∀ y, y ∈ ({[x]} ∪ visited, results ++ [x]).1 → R y).
  { cbn [fst]. intros y [->%elem_of_singleton | Hy]%elem_of_union;
      [done | by apply Hall]. }
  destruct (Tree.childElements g !! x) as [children|] eqn:Hch.
  - destruct (forEachM _ children _) as [[v2 r2]|] eqn:Hkids; [|done].
    injection Hrun as <-.
    apply (forEachM_traverse_sound n g R HR IH _ _ _ Hkids); [|done].
    intros c Hc. by eapply HR.
  - by injection Hrun as <-.
Qed.

Lemma descendantOf_children g x e :
  Tree.descendantOf g x e
  ↔ ∃ c, c ∈ default [] (Tree.childElements g !! x)
         ∧ (e = c ∨ Tree.descendantOf g c e).
Proof.
  split.
  - intros Hd. destruct Hd as [x children c Hx Hc | x children c d Hx Hc Hrest];
      exists c; rewrite Hx; cbn; [by split; [|left] | by split; [|right]].
  - intros (c & Hc & Hor).
    destruct (Tree.childElements g !! x) as [children|] eqn:Hx;
      [|by apply not_elem_of_nil in Hc].
    cbn in Hc. destruct Hor as [-> | Hrest].
    + by eapply Tree.descendant_child.
    + by eapply Tree.descendant_step.
Qed.

Lemma descendantOf_snoc g x y children c :
  Tree.descendantOf g x y → Tree.childElements g !! y = Some children →
  c ∈ children → Tree.descendantOf g x c.
Proof.
  intros Hd Hy Hc.
  induction Hd as [x ch0 c0 H0 Hc0 | x ch0 c0 d H0 Hc0 _ IH].
  - eapply Tree.descendant_step; [done | done|].
    by eapply Tree.descendant_child.
  - eapply Tree.descendant_step; [done | done | by apply IH].
Qed.

(** What one [traverse] appends: the start element and everything below
    it. *)
Lemma traverse_appends_descendants g fuel child results results' :
  Tree.traverse (Some Tree.pushResult) None fuel g child results
  = Some results' →
  ∃ segment, results' = results ++ segment
    ∧ ∀ e, e ∈ segment ↔ e = child ∨ Tree.descendantOf g child e.
Proof.
  unfold Tree.traverse. intros Hrun.
  destruct (Tree.innerTraverse _ _ fuel g child (∅, results))
    as [[visited r]|] eqn:Hinner; [|done].
  injection Hrun as <-.
  destruct (innerTraverse_inv fuel g ∅ results child _ _ Hinner)
    as ((segment & Hres & Hseg & Hclosed) & _ & Hchild).
  { exists []. cbn. rewrite app_nil_r. split; [done|]. split; [|set_solver].
    intros y. split; [by intros ?%not_elem_of_nil | set_solver]. }
  cbn [fst snd] in *. exists segment. split; [done|].
  intros e. rewrite Hseg. split.
  - assert (HR : ∀ x children c,
              x = child ∨ Tree.descendantOf g child x →
              Tree.childElements g !! x = Some children → c ∈ children →
              c = child ∨ Tree.descendantOf g child c).
    { intros x children c [-> | Hx] Hch Hc; right.
      - by eapply Tree.descendant_child.
      - by eapply descendantOf_snoc. }
    apply (innerTraverse_sound fuel g _ HR child _ _ Hinner);
      [by left | set_solver].
  - intros [-> | Hd]; [done|]. clear Hinner.
    induction Hd as [x children c Hx Hc | x children c d Hx Hc _ IH].
    + apply (Hclosed x children c Hchild); [set_solver | done | done].
    + apply IH.
      apply (Hclosed x children c Hchild); [set_solver | done | done].
Qed.

Lemma forEachM_traverse_descendants g fuel children : ∀ results results',
  forEachM (Tree.traverse (Some Tree.pushResult) None fuel g) children results
  = Some results' →
  ∃ more, results' = results ++ more
    ∧ ∀ e, e ∈ more
           ↔ ∃ c, c ∈ children ∧ (e = c ∨ Tree.descendantOf g c e).
Proof.
  induction children as [|c children IH]; intros results results' Hrun.
  - injection Hrun as <-. exists []. rewrite app_nil_r. split; [done|].
    intros e. split; [by intros ?%not_elem_of_nil|].
    by intros (c & ?%not_elem_of_nil & _).
  - cbn [forEachM] in Hrun.
    destruct (Tree.traverse _ _ fuel g c results) as [r1|] eqn:Hc; [|done].
    destruct (traverse_appends_descendants _ _ _ _ _ Hc) as (seg & -> & Hseg).
    destruct (IH _ _ Hrun) as (more & -> & Hmore).
    exists (seg ++ more). split; [by rewrite app_assoc|].
    intros e. rewrite elem_of_app, Hseg, Hmore. split.
    + intros [He | (c' & Hc' & He)].
      * exists c. split; [by left | done].
      * exists c'. split; [by right | done].
    + intros (c' & [-> | Hc']%elem_of_cons & He); [by left|].
      right. by exists c'.
Qed.

(** X22.  [descendantElementsImpl] returns on every graph, and what it
    lists is exactly what lies below the container: an element is in the
    result if and only if it is reached from the container by following
    [childElements] one or more times. *)
Theorem descendantElementsImpl_lists_descendants (g : Tree.Graph)
    (container : string) :
  ∃ results,
    Tree.descendantElementsImpl g container = Some results
    ∧ ∀ e, e ∈ results ↔ Tree.descendantOf g container e.
Proof.
  destruct (forEachM_traverse_segments g
              (default [] (Tree.childElements g !! container)) [])
    as (segments & Hrun & _).
  exists (concat segments). split; [exact Hrun|].
  destruct (forEachM_traverse_descendants _ _ _ _ _ Hrun)
    as (more & Hmore & Hin).
  cbn [app] in Hmore. rewrite Hmore.
  intros e. by rewrite Hin, descendantOf_children.
Qed.
